(** * NANOS++ runtime: dependable objects, cluster request queues,
      task-graph dump edges and the C memory API

    A shallow embedding of
    - [src/arch/cluster/requestqueue.hpp]   ([RequestQueue], [RequestMap]),
    - [src/core/dependableobject.hpp]       ([DependableObject]),
    - [src/plugins/instrumentation/tg_dump_utils.hpp] ([Edge], [Node]),
    - [src/apis/c/nanos_memory.cpp]         ([nanos_cmalloc]),
    followed by the properties of the design document that concern them.

    Conventions.  A pointer is an address in [Z], the null pointer is 0.
    Objects that the code reaches through pointers live in a store
    ([gmap] from addresses); a method takes the address of its receiver.
    Methods run in the monad [M S A = S -> option (A * S)]: [None] means the
    call does not return (it spins on a lock that is held, or it
    dereferences an address at which no object lives).  Calls that leave
    the modelled files (scheduler hooks, virtual methods of other classes,
    [std::cerr]) are recorded, in order, in a trace.  The trace records
    that the call is made and with which arguments; what the callee then
    does to the objects it is handed (a scheduler hook may update their
    [_schedulerData]) is outside the model. *)

From Stdlib Require Import ZArith NArith Lia String.
From stdpp Require Import gmap list.

Local Open Scope Z_scope.

(** ** Pointers *)

Abbreviation ptr := Z (only parsing).
Definition NULL : ptr := 0.

(** ** The state-and-divergence monad *)

Definition M (S A : Type) : Type := S -> option (A * S).

Definition ret {S A : Type} (a : A) : M S A := fun s => Some (a, s).

Definition bind {S A B : Type} (m : M S A) (k : A -> M S B) : M S B :=
  fun s => match m s with
           | Some (a, s') => k a s'
           | None => None
           end.

Definition get {S : Type} : M S S := fun s => Some (s, s).
Definition put {S : Type} (s : S) : M S unit := fun _ => Some (tt, s).
Definition modify {S : Type} (f : S -> S) : M S unit := fun s => Some (tt, f s).
Definition diverge {S A : Type} : M S A := fun _ => None.

Notation "'let*' x ':=' m 'in' k" := (bind m (fun x => k))
  (at level 10, x name, m at level 100, k at level 200).
Notation "m ';;' k" := (bind m (fun _ => k))
  (at level 100, k at level 200, right associativity).

(** A [for] loop that runs an iterator from [begin()] to [end()], over a
    container whose elements are listed by [l]. *)
Fixpoint for_each {S A : Type} (l : list A) (body : A -> M S unit) : M S unit :=
  match l with
  | [] => ret tt
  | x :: r => body x ;; for_each r body
  end.

(** [n] calls of [m], one after the other, with what they returned. *)
Fixpoint repeatM {S A : Type} (n : nat) (m : M S A) : M S (list A) :=
  match n with
  | O => ret []
  | Datatypes.S k =>
      let* a := m in
      let* r := repeatM k m in
      ret (a :: r)
  end.

(** Partial correctness of a computation: started where [P] holds, if it
    returns [a] in the state [s'], then [R a s'] holds. *)
Definition hoare {S A : Type} (P : S -> Prop) (m : M S A) (R : A -> S -> Prop) : Prop :=
  forall s a s', P s -> m s = Some (a, s') -> R a s'.

(** Total correctness: started where [P] holds, the computation returns,
    with some [a] in some state [s'] for which [R a s'] holds. *)
Definition total {S A : Type} (P : S -> Prop) (m : M S A) (R : A -> S -> Prop) : Prop :=
  forall s, P s -> exists a s', m s = Some (a, s') /\ R a s'.

(** What a C++ function of non-void type hands to its caller: the operand
    of the [return] statement it executed, or nothing at all when control
    flows off the closing brace. *)
Inductive returned (A : Type) : Type :=
| Return (a : A)
| FlowsOffEnd.
Arguments Return {A} a.
Arguments FlowsOffEnd {A}.

(** ** Lock *)

Module Lock.
  (** Modelled from the spec: the [Lock] class ([lock.hpp] is not among the
      sources).  The design document calls it an exclusive lock; the
      methods used by the code are [acquire] (returns once the lock is
      taken), [tryAcquire] (takes the lock if it is free and says whether it
      did) and [release].  The state is [true] while the lock is held. *)
Definition acquire (held : bool) : option bool :=
    if held then None else Some true.

  (** Modelled from the spec: see [acquire]. *)
Definition tryAcquire (held : bool) : bool * bool :=
    if held then (false, held) else (true, true).

  (** Modelled from the spec: see [acquire]. *)
Definition release (held : bool) : bool := false.
End Lock.

(** ** requestqueue.hpp: RequestQueue<T> *)

Module RequestQueue.

  (** [std::list< T * > _queue; Lock _lock;] *)
Record t : Type := mk {
    _queue : list ptr;
    _lock : bool
  }.

Definition set_queue (q : list ptr) (s : t) : t := mk q (_lock s).
Definition set_lock (l : bool) (s : t) : t := mk (_queue s) l.

Definition lock_acquire : M t unit :=
    fun s => match Lock.acquire (_lock s) with
             | Some l => Some (tt, set_lock l s)
             | None => None
             end.

Definition lock_tryAcquire : M t bool :=
    fun s => let '(ok, l) := Lock.tryAcquire (_lock s) in Some (ok, set_lock l s).

Definition lock_release : M t unit :=
    modify (fun s => set_lock (Lock.release (_lock s)) s).

  (** [RequestQueue<T>::RequestQueue() : _queue(), _lock()] *)
Definition RequestQueue : t := mk [] false.

  (** [void RequestQueue<T>::add( T *elem )] *)
Definition add (elem : ptr) : M t unit :=
    lock_acquire ;;
    modify (fun s => set_queue (_queue s ++ [elem]) s) ;;
    lock_release.

  (** [T *RequestQueue<T>::fetch()]: the body declares [elem], takes and
      drops the lock, and ends without a [return] statement. *)
Definition fetch : M t (returned ptr) :=
    let elem := NULL in
    lock_acquire ;;
    lock_release ;;
    ret FlowsOffEnd.

  (** [T *RequestQueue<T>::tryFetch()] *)
Definition tryFetch : M t (returned ptr) :=
    let elem := NULL in
    let* locked := lock_tryAcquire in
    let* elem :=
      (if locked then
         let* s := get in
         let* elem :=
           (match _queue s with
            | front :: rest => put (set_queue rest s) ;; ret front
            | [] => ret elem
            end) in
         lock_release ;;
         ret elem
       else ret elem) in
    ret (Return elem).

End RequestQueue.

(** ** requestqueue.hpp: RequestMap<T> *)

Module RequestMap.

  (** [std::map< uint64_t, T * > _map; Lock _lock;] *)
Record t : Type := mk {
    _map : gmap N ptr;
    _lock : bool
  }.

  (** The object together with the [std::cerr] stream it writes to. *)
Record world : Type := mkWorld {
    obj : t;
    cerr : list string
  }.

Definition set_map (m : gmap N ptr) (w : world) : world :=
    mkWorld (mk m (_lock (obj w))) (cerr w).
Definition set_lock (l : bool) (w : world) : world :=
    mkWorld (mk (_map (obj w)) l) (cerr w).
Definition print (line : string) : M world unit :=
    modify (fun w => mkWorld (obj w) (cerr w ++ [line])).

Definition lock_acquire : M world unit :=
    fun w => match Lock.acquire (_lock (obj w)) with
             | Some l => Some (tt, set_lock l w)
             | None => None
             end.

Definition lock_release : M world unit :=
    modify (fun w => set_lock (Lock.release (_lock (obj w))) w).

  (** An iterator of the map: the key of the element it stands on, or
      [None] for [end()]. *)
Definition iterator : Type := option N.

  (** [std::map::lower_bound]: the first element whose key is not less
      than [key], [end()] when there is none. *)
Definition lower_bound (m : gmap N ptr) (key : N) : iterator :=
    match filter (fun k => (key <= k)%N) (elements (dom m)) with
    | [] => None
    | k :: r => Some (foldr N.min k r)
    end.

  (** [std::map::insert( hint, value )]: inserts unless the key is there. *)
Definition insert_hint (hint : iterator) (key : N) (elem : ptr)
      (m : gmap N ptr) : gmap N ptr :=
    match m !! key with
    | Some _ => m
    | None => <[key := elem]> m
    end.

Section Add.
    (** [it->first] for [it == end()] reads the key field of the map's
        sentinel node: the language leaves the value undefined, so it is a
        parameter here. *)
Variable end_first : N.

Definition first (it : iterator) : N :=
      match it with
      | Some k => k
      | None => end_first
      end.

    (** [void RequestMap<T>::add( uint64_t key, T *elem )] *)
Definition add (key : N) (elem : ptr) : M world unit :=
      lock_acquire ;;
      let* w := get in
      let it := lower_bound (_map (obj w)) key in
      (if negb (bool_decide (it = None)) || bool_decide (key < first it)%N then
         put (set_map (insert_hint it key elem (_map (obj w))) w)
       else
         print "Error, key already exists.") ;;
      lock_release.
End Add.

Section Fetch.
(** As in [add], the reads [it->first] and [it->second] at [end()] are
    parameters. *)
Variable end_first : N.
Variable end_second : ptr.

Definition second (m : gmap N ptr) (it : iterator) : ptr :=
  match it with
  | Some k => match m !! k with
              | Some v => v
              | None => end_second
              end
  | None => end_second
  end.

(** [T *RequestMap<T>::fetch( uint64_t key )]: like [RequestQueue::fetch],
    the body ends without a [return] statement. *)
Definition fetch (key : N) : M world (returned ptr) :=
  let elem := NULL in
  lock_acquire ;;
  let* w := get in
  let it := lower_bound (_map (obj w)) key in
  let* elem :=
    (if negb (bool_decide (it = None)) || bool_decide (key < first end_first it)%N then
       print "Error, key not found." ;; ret elem
     else
       ret (second (_map (obj w)) it)) in
  lock_release ;;
  ret FlowsOffEnd.
End Fetch.

End RequestMap.

(** ** Machine integers *)

(** [unsigned int] arithmetic wraps modulo [2^32]; [to_int] is the
    conversion of an [unsigned int] to [int]. *)
Definition wrap32 (x : Z) : Z := x mod 2 ^ 32.
Definition to_int (x : Z) : Z := if x <? 2 ^ 31 then x else x - 2 ^ 32.

(** [uint64_t] and [size_t] arithmetic wraps modulo [2^64]. *)
Definition wrap64 (x : Z) : Z := x mod 2 ^ 64.

(** ** dependableobject.hpp: DependableObject *)

Module DependableObject.

(** The fields that [operator=] and the inline methods name.  The class
    declaration ([dependableobject_decl.hpp]) is not among the sources: the
    counters [_numPredecessors] and [_references] are atomic counters, held
    here as [unsigned int] values in [0, 2^32); read as [int] they give the
    same value whichever signedness the declaration chose.  The sets
    [DependableObjectVector] are [std::set]s of object addresses (the code
    uses [find], [insert(..).second] and [erase(key)] on them), the target
    lists hold addresses of [BaseDependency] objects. *)
Record t : Type := mk {
  _id : Z;
  _numPredecessors : Z;
  _references : Z;
  _predecessors : gset Z;
  _successors : gset Z;
  _domain : ptr;
  _outputObjects : list ptr;
  _readObjects : list ptr;
  _submitted : bool;
  _needsSubmission : bool;
  _wd : ptr;
  _schedulerData : ptr;
  _objectLock : bool
}.

Definition set_id (v : Z) (o : t) : t :=
  mk v (_numPredecessors o) (_references o) (_predecessors o) (_successors o)
     (_domain o) (_outputObjects o) (_readObjects o) (_submitted o)
     (_needsSubmission o) (_wd o) (_schedulerData o) (_objectLock o).
Definition set_numPredecessors (v : Z) (o : t) : t :=
  mk (_id o) v (_references o) (_predecessors o) (_successors o)
     (_domain o) (_outputObjects o) (_readObjects o) (_submitted o)
     (_needsSubmission o) (_wd o) (_schedulerData o) (_objectLock o).
Definition set_references (v : Z) (o : t) : t :=
  mk (_id o) (_numPredecessors o) v (_predecessors o) (_successors o)
     (_domain o) (_outputObjects o) (_readObjects o) (_submitted o)
     (_needsSubmission o) (_wd o) (_schedulerData o) (_objectLock o).
Definition set_predecessors (v : gset Z) (o : t) : t :=
  mk (_id o) (_numPredecessors o) (_references o) v (_successors o)
     (_domain o) (_outputObjects o) (_readObjects o) (_submitted o)
     (_needsSubmission o) (_wd o) (_schedulerData o) (_objectLock o).
Definition set_successors (v : gset Z) (o : t) : t :=
  mk (_id o) (_numPredecessors o) (_references o) (_predecessors o) v
     (_domain o) (_outputObjects o) (_readObjects o) (_submitted o)
     (_needsSubmission o) (_wd o) (_schedulerData o) (_objectLock o).
Definition set_domain (v : ptr) (o : t) : t :=
  mk (_id o) (_numPredecessors o) (_references o) (_predecessors o) (_successors o)
     v (_outputObjects o) (_readObjects o) (_submitted o)
     (_needsSubmission o) (_wd o) (_schedulerData o) (_objectLock o).
Definition set_outputObjects (v : list ptr) (o : t) : t :=
  mk (_id o) (_numPredecessors o) (_references o) (_predecessors o) (_successors o)
     (_domain o) v (_readObjects o) (_submitted o)
     (_needsSubmission o) (_wd o) (_schedulerData o) (_objectLock o).
Definition set_readObjects (v : list ptr) (o : t) : t :=
  mk (_id o) (_numPredecessors o) (_references o) (_predecessors o) (_successors o)
     (_domain o) (_outputObjects o) v (_submitted o)
     (_needsSubmission o) (_wd o) (_schedulerData o) (_objectLock o).
Definition set_submitted (v : bool) (o : t) : t :=
  mk (_id o) (_numPredecessors o) (_references o) (_predecessors o) (_successors o)
     (_domain o) (_outputObjects o) (_readObjects o) v
     (_needsSubmission o) (_wd o) (_schedulerData o) (_objectLock o).
Definition set_needsSubmission (v : bool) (o : t) : t :=
  mk (_id o) (_numPredecessors o) (_references o) (_predecessors o) (_successors o)
     (_domain o) (_outputObjects o) (_readObjects o) (_submitted o)
     v (_wd o) (_schedulerData o) (_objectLock o).
Definition set_wd (v : ptr) (o : t) : t :=
  mk (_id o) (_numPredecessors o) (_references o) (_predecessors o) (_successors o)
     (_domain o) (_outputObjects o) (_readObjects o) (_submitted o)
     (_needsSubmission o) v (_schedulerData o) (_objectLock o).
Definition set_schedulerData (v : ptr) (o : t) : t :=
  mk (_id o) (_numPredecessors o) (_references o) (_predecessors o) (_successors o)
     (_domain o) (_outputObjects o) (_readObjects o) (_submitted o)
     (_needsSubmission o) (_wd o) v (_objectLock o).
Definition set_objectLock (v : bool) (o : t) : t :=
  mk (_id o) (_numPredecessors o) (_references o) (_predecessors o) (_successors o)
     (_domain o) (_outputObjects o) (_readObjects o) (_submitted o)
     (_needsSubmission o) (_wd o) (_schedulerData o) v.

(** Calls that leave the file, lock operations, and the calls an object
    makes on another object of the file, in program order. *)
Inductive event : Type :=
| EvAcquire (owner : ptr)
    (* the object lock of [owner] is taken *)
| EvRelease (owner : ptr)
    (* the object lock of [owner] is dropped *)
| EvAtSuccessor (depObj pred : ptr) (mode numPred : Z)
    (* sys.getDefaultSchedulePolicy()->atSuccessor( depObj, pred, mode, numPred ) *)
| EvDependenciesSatisfied (this : ptr)
    (* this->dependenciesSatisfied() *)
| EvPredecessorFinished (wd predWd : ptr)
    (* wd->predecessorFinished( predWd ) *)
| EvMemoryFence
    (* memoryFence() *)
| EvDelete (target : ptr)
    (* deleter<BaseDependency>( target ) *)
| EvDeleteSuccessor (owner depObj : ptr)
    (* owner->deleteSuccessor( depObj ), called by the destructor of depObj *).

(** The objects alive, by address, and the trace so far. *)
Record World : Type := mkWorld {
  heap : gmap Z t;
  trace : list event
}.

Definition load (p : ptr) : M World t :=
  fun w => match heap w !! p with
           | Some o => Some (o, w)
           | None => None
           end.

Definition update (p : ptr) (f : t -> t) : M World unit :=
  fun w => match heap w !! p with
           | Some o => Some (tt, mkWorld (<[p := f o]> (heap w)) (trace w))
           | None => None
           end.

Definition emit (e : event) : M World unit :=
  modify (fun w => mkWorld (heap w) (trace w ++ [e])).

(** [Lock& DependableObject::getLock()] returns [_objectLock]; the two
    definitions below take and drop that lock. *)
Definition lock_acquire (this : ptr) : M World unit :=
  let* o := load this in
  match Lock.acquire (_objectLock o) with
  | Some l => update this (set_objectLock l) ;; emit (EvAcquire this)
  | None => diverge
  end.

Definition lock_release (this : ptr) : M World unit :=
  update this (fun o => set_objectLock (Lock.release (_objectLock o)) o) ;;
  emit (EvRelease this).

(** Modelled from the spec: [SyncLockBlock] (declared outside the sources),
    the scoped holder of the exclusive [object_lock]: the lock is taken
    where the block is entered and dropped where it is left. *)
Definition SyncLockBlock {A : Type} (owner : ptr) (block : M World A) : M World A :=
  lock_acquire owner ;;
  let* r := block in
  lock_release owner ;;
  ret r.

(** [bool DependableObject::deleteSuccessor ( DependableObject *depObj )]:
    [return _successors.erase( depObj ) > 0;] *)
Definition deleteSuccessor (this : ptr) (depObj : ptr) : M World bool :=
  let* o := load this in
  update this (set_successors (_successors o ∖ {[depObj]})) ;;
  ret (bool_decide (depObj ∈ _successors o)).

(** [DependableObject::~DependableObject ( )].  Each call of the loop is
    made on another object, the predecessor [it]; the trace records it where
    it is made. *)
Definition destructor (this : ptr) : M World unit :=
  SyncLockBlock this (
    let* o := load this in
    for_each (elements (_predecessors o)) (fun it =>
      emit (EvDeleteSuccessor it this) ;;
      deleteSuccessor it this ;; ret tt)) ;;
  let* o := load this in
  for_each (_outputObjects o) (fun d => emit (EvDelete d)) ;;
  for_each (_readObjects o) (fun d => emit (EvDelete d)).

(** [const DependableObject & DependableObject::operator= ( const DependableObject &depObj )] *)
Definition assign (this : ptr) (depObj : ptr) : M World ptr :=
  if bool_decide (this = depObj) then ret this else
  let* d := load depObj in
  update this (set_id (_id d)) ;;
  update this (set_numPredecessors (_numPredecessors d)) ;;
  update this (set_references (_references d)) ;;
  update this (set_predecessors (_predecessors d)) ;;
  update this (set_successors (_successors d)) ;;
  update this (set_domain (_domain d)) ;;
  update this (set_outputObjects (_outputObjects d)) ;;
  update this (set_submitted (_submitted d)) ;;
  update this (set_needsSubmission (_needsSubmission d)) ;;
  update this (set_wd (_wd d)) ;;
  ret this.

(** [bool DependableObject::waits ( )] *)
Definition waits (this : ptr) : M World bool := ret false.

(** [unsigned long DependableObject::getDescription ( )] *)
Definition getDescription (this : ptr) : M World Z := ret 0.

(** [void * DependableObject::getRelatedObject ( )] *)
Definition getRelatedObject (this : ptr) : M World ptr := ret NULL.

(** [void DependableObject::setId ( unsigned int id )] *)
Definition setId (this : ptr) (id : Z) : M World unit := update this (set_id id).

(** [unsigned int DependableObject::getId () const] *)
Definition getId (this : ptr) : M World Z :=
  let* o := load this in ret (_id o).

(** [int DependableObject::increasePredecessors ( )]:
    [return _numPredecessors++;] *)
Definition increasePredecessors (this : ptr) : M World Z :=
  let* o := load this in
  update this (set_numPredecessors (wrap32 (_numPredecessors o + 1))) ;;
  ret (to_int (_numPredecessors o)).

(** Modelled from the spec: the virtual [dependenciesSatisfied()], whose
    implementations are in the subclasses, outside the sources; it "calls
    the scheduler", handing the object over.  The call is recorded. *)
Definition dependenciesSatisfied (this : ptr) : M World unit :=
  emit (EvDependenciesSatisfied this).

(** [int DependableObject::decreasePredecessors ( std::list<uint64_t> const * flushDeps,
      DependableObject * finishedPred, bool batchRelease, bool blocking )].
    The block that took the object lock and called
    [decreasePredecessorsInLock] is commented out in the source. *)
Definition decreasePredecessors (this : ptr) (flushDeps : ptr) (finishedPred : ptr)
    (batchRelease blocking : bool) : M World Z :=
  let* o := load this in
  update this (set_numPredecessors (wrap32 (_numPredecessors o - 1))) ;;
  let numPred := to_int (wrap32 (_numPredecessors o - 1)) in
  let depObj := this in
  emit (EvAtSuccessor depObj finishedPred 1 numPred) ;;
  (if bool_decide (numPred = 0) && negb batchRelease then
     dependenciesSatisfied this
   else ret tt) ;;
  ret numPred.

(** [void DependableObject::decreasePredecessorsInLock ( DependableObject * finishedPred, int numPred )] *)
Definition decreasePredecessorsInLock (this : ptr) (finishedPred : ptr) (numPred : Z)
    : M World unit :=
  (if bool_decide (finishedPred ≠ NULL) then
     let* o := load this in
     (if bool_decide (_wd o ≠ NULL) then
        let* f := load finishedPred in
        if bool_decide (_wd f ≠ NULL) then
          emit (EvPredecessorFinished (_wd o) (_wd f))
        else ret tt
      else ret tt) ;;
     let* o := load this in
     if bool_decide (size (_predecessors o) ≠ 0%nat) then
       if bool_decide (finishedPred ∈ _predecessors o) then
         update this (set_predecessors (_predecessors o ∖ {[finishedPred]}))
       else ret tt
     else ret tt
   else ret tt) ;;
  let* o := load this in
  if bool_decide (numPred = 0) && negb (bool_decide (_predecessors o = ∅)) then
    update this (set_predecessors ∅)
  else ret tt.

(** [int DependableObject::numPredecessors () const] *)
Definition numPredecessors (this : ptr) : M World Z :=
  let* o := load this in ret (to_int (_numPredecessors o)).

(** [DependableObjectVector & DependableObject::getPredecessors ( )] *)
Definition getPredecessors (this : ptr) : M World (gset Z) :=
  let* o := load this in ret (_predecessors o).

(** [DependableObjectVector & DependableObject::getSuccessors ( )] *)
Definition getSuccessors (this : ptr) : M World (gset Z) :=
  let* o := load this in ret (_successors o).

(** [bool DependableObject::addPredecessor ( DependableObject &depObj )] *)
Definition addPredecessor (this : ptr) (depObj : ptr) : M World bool :=
  let inserted := false in
  let* inserted :=
    SyncLockBlock this (
      let* o := load this in
      update this (set_predecessors (_predecessors o ∪ {[depObj]})) ;;
      ret (negb (bool_decide (depObj ∈ _predecessors o)))) in
  ret inserted.

(** [bool DependableObject::addSuccessor ( DependableObject &depObj )] *)
Definition addSuccessor (this : ptr) (depObj : ptr) : M World bool :=
  emit (EvAtSuccessor depObj this 0 0) ;;
  let* o := load this in
  update this (set_successors (_successors o ∪ {[depObj]})) ;;
  ret (negb (bool_decide (depObj ∈ _successors o))).

(** [DependenciesDomain * DependableObject::getDependenciesDomain ( ) const] *)
Definition getDependenciesDomain (this : ptr) : M World ptr :=
  let* o := load this in ret (_domain o).

(** [void DependableObject::setDependenciesDomain ( DependenciesDomain *dependenciesDomain )] *)
Definition setDependenciesDomain (this : ptr) (dependenciesDomain : ptr) : M World unit :=
  update this (set_domain dependenciesDomain).

(** [void DependableObject::addWriteTarget ( BaseDependency const &outObj )]:
    [clone] is the address that [outObj.clone()] returned. *)
Definition addWriteTarget (this : ptr) (clone : ptr) : M World unit :=
  let* o := load this in
  update this (set_outputObjects (_outputObjects o ++ [clone])).

(** [TargetVector const & DependableObject::getWrittenTargets ( )] *)
Definition getWrittenTargets (this : ptr) : M World (list ptr) :=
  let* o := load this in ret (_outputObjects o).

(** [void DependableObject::addReadTarget ( BaseDependency const &readObj )]:
    [clone] is the address that [readObj.clone()] returned. *)
Definition addReadTarget (this : ptr) (clone : ptr) : M World unit :=
  let* o := load this in
  update this (set_readObjects (_readObjects o ++ [clone])).

(** [TargetVector const & DependableObject::getReadTargets ( )] *)
Definition getReadTargets (this : ptr) : M World (list ptr) :=
  let* o := load this in ret (_readObjects o).

(** [void DependableObject::increaseReferences()] *)
Definition increaseReferences (this : ptr) : M World unit :=
  let* o := load this in
  update this (set_references (wrap32 (_references o + 1))).

(** [void DependableObject::resetReferences()] *)
Definition resetReferences (this : ptr) : M World unit :=
  update this (set_references 1).

(** [bool DependableObject::isSubmitted()] *)
Definition isSubmitted (this : ptr) : M World bool :=
  let* o := load this in ret (_submitted o).

(** [void DependableObject::enableSubmission()] *)
Definition enableSubmission (this : ptr) : M World unit :=
  update this (set_needsSubmission true).

(** [void DependableObject::submitted()] *)
Definition submitted (this : ptr) : M World unit :=
  update this (set_submitted true) ;;
  enableSubmission this ;;
  emit EvMemoryFence.

(** [bool DependableObject::needsSubmission() const] *)
Definition needsSubmission (this : ptr) : M World bool :=
  let* o := load this in ret (_needsSubmission o).

(** [void DependableObject::disableSubmission()] *)
Definition disableSubmission (this : ptr) : M World unit :=
  update this (set_needsSubmission false) ;;
  update this (set_submitted false) ;;
  emit EvMemoryFence.

(** [void DependableObject::setWD( WorkDescriptor *wd )] *)
Definition setWD (this : ptr) (wd : ptr) : M World unit := update this (set_wd wd).

(** [WorkDescriptor * DependableObject::getWD( void ) const] *)
Definition getWD (this : ptr) : M World ptr :=
  let* o := load this in ret (_wd o).

(** [DOSchedulerData* DependableObject::getSchedulerData ( )] *)
Definition getSchedulerData (this : ptr) : M World ptr :=
  let* o := load this in ret (_schedulerData o).

(** [void DependableObject::setSchedulerData ( DOSchedulerData* scData )] *)
Definition setSchedulerData (this : ptr) (scData : ptr) : M World unit :=
  update this (set_schedulerData scData).

(** The operations of the class, as calls on a receiver. *)
Inductive Op : Type :=
| OpDestructor
| OpAssign (depObj : ptr)
| OpWaits
| OpGetDescription
| OpGetRelatedObject
| OpSetId (id : Z)
| OpGetId
| OpIncreasePredecessors
| OpDecreasePredecessors (flushDeps finishedPred : ptr) (batchRelease blocking : bool)
| OpDecreasePredecessorsInLock (finishedPred : ptr) (numPred : Z)
| OpNumPredecessors
| OpGetPredecessors
| OpGetSuccessors
| OpAddPredecessor (depObj : ptr)
| OpAddSuccessor (depObj : ptr)
| OpDeleteSuccessor (depObj : ptr)
| OpGetDependenciesDomain
| OpSetDependenciesDomain (dependenciesDomain : ptr)
| OpAddWriteTarget (clone : ptr)
| OpGetWrittenTargets
| OpAddReadTarget (clone : ptr)
| OpGetReadTargets
| OpIncreaseReferences
| OpResetReferences
| OpIsSubmitted
| OpSubmitted
| OpNeedsSubmission
| OpEnableSubmission
| OpDisableSubmission
| OpSetWD (wd : ptr)
| OpGetWD
| OpGetSchedulerData
| OpSetSchedulerData (scData : ptr).

Definition discard {A : Type} (m : M World A) : M World unit := m ;; ret tt.

(** The operations whose body calls a method that is defined outside the
    file and is handed objects: the scheduler hook [atSuccessor]
    ([addSuccessor], [decreasePredecessors]), the virtual
    [dependenciesSatisfied] ([decreasePredecessors]) and
    [WorkDescriptor::predecessorFinished] ([decreasePredecessorsInLock]). *)
Definition calls_out (op : Op) : bool :=
  match op with
  | OpDecreasePredecessors _ _ _ _ => true
  | OpDecreasePredecessorsInLock _ _ => true
  | OpAddSuccessor _ => true
  | _ => false
  end.

(** Runs one operation on the object at [this] and drops what it returns. *)
Definition call (this : ptr) (op : Op) : M World unit :=
  match op with
  | OpDestructor => destructor this
  | OpAssign depObj => discard (assign this depObj)
  | OpWaits => discard (waits this)
  | OpGetDescription => discard (getDescription this)
  | OpGetRelatedObject => discard (getRelatedObject this)
  | OpSetId id => setId this id
  | OpGetId => discard (getId this)
  | OpIncreasePredecessors => discard (increasePredecessors this)
  | OpDecreasePredecessors flushDeps finishedPred batchRelease blocking =>
      discard (decreasePredecessors this flushDeps finishedPred batchRelease blocking)
  | OpDecreasePredecessorsInLock finishedPred numPred =>
      decreasePredecessorsInLock this finishedPred numPred
  | OpNumPredecessors => discard (numPredecessors this)
  | OpGetPredecessors => discard (getPredecessors this)
  | OpGetSuccessors => discard (getSuccessors this)
  | OpAddPredecessor depObj => discard (addPredecessor this depObj)
  | OpAddSuccessor depObj => discard (addSuccessor this depObj)
  | OpDeleteSuccessor depObj => discard (deleteSuccessor this depObj)
  | OpGetDependenciesDomain => discard (getDependenciesDomain this)
  | OpSetDependenciesDomain d => setDependenciesDomain this d
  | OpAddWriteTarget clone => addWriteTarget this clone
  | OpGetWrittenTargets => discard (getWrittenTargets this)
  | OpAddReadTarget clone => addReadTarget this clone
  | OpGetReadTargets => discard (getReadTargets this)
  | OpIncreaseReferences => increaseReferences this
  | OpResetReferences => resetReferences this
  | OpIsSubmitted => discard (isSubmitted this)
  | OpSubmitted => submitted this
  | OpNeedsSubmission => discard (needsSubmission this)
  | OpEnableSubmission => enableSubmission this
  | OpDisableSubmission => disableSubmission this
  | OpSetWD wd => setWD this wd
  | OpGetWD => discard (getWD this)
  | OpGetSchedulerData => discard (getSchedulerData this)
  | OpSetSchedulerData scData => setSchedulerData this scData
  end.

(** The value of the [_submitted] flag of the object at [p], if any. *)
Definition submitted_at (p : ptr) (w : World) : option bool :=
  _submitted <$> heap w !! p.


End DependableObject.

(** ** tg_dump_utils.hpp: Edge and Node *)

Module TgDump.

(** [enum DependencyType]; the enumerator [True] is written [True_], the
    name [True] being the proposition. *)
Inductive DependencyType : Type :=
| Null
| True_
| Anti
| Output
| InConcurrent
| OutConcurrent
| InCommutative
| OutCommutative
| InAny
| OutAny.

Inductive EdgeKind : Type :=
| Nesting
| Synchronization
| Dependency.

#[global] Instance DependencyType_eq_dec : EqDecision DependencyType.
Proof. solve_decision. Defined.
#[global] Instance EdgeKind_eq_dec : EqDecision EdgeKind.
Proof. solve_decision. Defined.

(** [struct Edge] *)
Record Edge : Type := mkEdge {
  _kind : EdgeKind;
  _dep_type : DependencyType;
  _source : ptr;
  _target : ptr;
  _data_range : ptr * ptr
}.

Definition get_source (e : Edge) : ptr := _source e.
Definition get_target (e : Edge) : ptr := _target e.
Definition get_kind (e : Edge) : EdgeKind := _kind e.
Definition get_dependency_type (e : Edge) : DependencyType := _dep_type e.
Definition get_data_range (e : Edge) : ptr * ptr := _data_range e.

(** [inline bool operator==(Edge const& lhs, Edge const& rhs)] *)
Definition Edge_eq (lhs rhs : Edge) : bool :=
  bool_decide (_kind lhs = _kind rhs) &&
  bool_decide (_dep_type lhs = _dep_type rhs) &&
  bool_decide (_source lhs = _source rhs) &&
  bool_decide (_target lhs = _target rhs) &&
  bool_decide (_data_range lhs = _data_range rhs).

Inductive NodeType : Type :=
| Root
| BarrierNode
| ConcurrentNode
| CommutativeNode
| TaskNode
| TaskwaitNode.

(** [struct Node], without its timing and hardware-counter fields
    ([_total_time], [_last_time], [_papi_event_set], [_papi_counters]) and
    its [_io] list, which the edge code does not touch.  An edge vector
    holds pointers to [Edge] objects that are never written after their
    construction and are compared through [operator==] on the objects, so
    the vectors are kept as lists of edge values. *)
Record Node : Type := mkNode {
  _wd_id : Z;
  _func_id : Z;
  _type : NodeType;
  _entry_edges : list Edge;
  _exit_edges : list Edge;
  _entry_lock : bool;
  _exit_lock : bool;
  _printed : bool;
  _critical : bool
}.

Definition set_entry_edges (v : list Edge) (n : Node) : Node :=
  mkNode (_wd_id n) (_func_id n) (_type n) v (_exit_edges n)
         (_entry_lock n) (_exit_lock n) (_printed n) (_critical n).
Definition set_exit_edges (v : list Edge) (n : Node) : Node :=
  mkNode (_wd_id n) (_func_id n) (_type n) (_entry_edges n) v
         (_entry_lock n) (_exit_lock n) (_printed n) (_critical n).
Definition set_entry_lock (v : bool) (n : Node) : Node :=
  mkNode (_wd_id n) (_func_id n) (_type n) (_entry_edges n) (_exit_edges n)
         v (_exit_lock n) (_printed n) (_critical n).
Definition set_exit_lock (v : bool) (n : Node) : Node :=
  mkNode (_wd_id n) (_func_id n) (_type n) (_entry_edges n) (_exit_edges n)
         (_entry_lock n) v (_printed n) (_critical n).

(** The nodes alive, by address, and the global [int used_edge_types[5]]. *)
Record World : Type := mkWorld {
  nodes : gmap Z Node;
  used_edge_types : list Z
}.

Definition load (p : ptr) : M World Node :=
  fun w => match nodes w !! p with
           | Some n => Some (n, w)
           | None => None
           end.

Definition update (p : ptr) (f : Node -> Node) : M World unit :=
  fun w => match nodes w !! p with
           | Some n => Some (tt, mkWorld (<[p := f n]> (nodes w)) (used_edge_types w))
           | None => None
           end.

(** [used_edge_types[i] = 1;] *)
Definition mark_used (i : nat) : M World unit :=
  modify (fun w => mkWorld (nodes w) (<[i := 1]> (used_edge_types w))).

Definition exit_lock_acquire (p : ptr) : M World unit :=
  let* n := load p in
  match Lock.acquire (_exit_lock n) with
  | Some l => update p (set_exit_lock l)
  | None => diverge
  end.

Definition exit_lock_release (p : ptr) : M World unit :=
  update p (fun n => set_exit_lock (Lock.release (_exit_lock n)) n).

Definition entry_lock_acquire (p : ptr) : M World unit :=
  let* n := load p in
  match Lock.acquire (_entry_lock n) with
  | Some l => update p (set_entry_lock l)
  | None => diverge
  end.

Definition entry_lock_release (p : ptr) : M World unit :=
  update p (fun n => set_entry_lock (Lock.release (_entry_lock n)) n).

(** [std::vector<Edge*> get_connections( Node* target ) const] *)
Definition get_connections (this : ptr) (target : ptr) : M World (list Edge) :=
  let* n := load this in
  ret (filter (fun e => get_target e = target) (_exit_edges n)).

(** [bool is_critical( )] *)
Definition is_critical (this : ptr) : M World bool :=
  let* n := load this in ret (_critical n).

(** [static void connect_nodes( Node* source, Node* target, EdgeKind kind,
      void* data_start, void* data_end, DependencyType dep_type )] *)
Definition connect_nodes (source target : ptr) (kind : EdgeKind)
    (data_start data_end : ptr) (dep_type : DependencyType) : M World unit :=
  exit_lock_acquire source ;;
  let new_edge := mkEdge kind dep_type source target (data_start, data_end) in
  let* c := get_connections source target in
  if existsb (fun it => Edge_eq it new_edge) c then
    exit_lock_release source
  else
    update source (fun n => set_exit_edges (_exit_edges n ++ [new_edge]) n) ;;
    entry_lock_acquire target ;;
    update target (fun n => set_entry_edges (_entry_edges n ++ [new_edge]) n) ;;
    entry_lock_release target ;;
    match kind with
    | Nesting => mark_used 3
    | Synchronization => mark_used 0
    | Dependency =>
        match dep_type with
        | True_ => mark_used 0
        | Anti => mark_used 1
        | Output => mark_used 2
        | _ => ret tt
        end
    end ;;
    let* sc := is_critical source in
    let* tc := (if sc then is_critical target else ret false) in
    (if sc && tc then mark_used 4 else ret tt) ;;
    exit_lock_release source.

(** [uint64_t get_data_size() const] *)
Definition get_data_size (e : Edge) : Z :=
  if bool_decide (fst (_data_range e) = NULL) || bool_decide (snd (_data_range e) = NULL)
  then 0
  else wrap64 (wrap64 (snd (_data_range e) - fst (_data_range e)) + 1).

(** [bool is_nesting() const] and the other tests on an edge. *)
Definition is_nesting (e : Edge) : bool := bool_decide (_kind e = Nesting).
Definition is_synchronization (e : Edge) : bool := bool_decide (_kind e = Synchronization).
Definition is_dependency (e : Edge) : bool := bool_decide (_kind e = Dependency).

Definition is_true_dependency (e : Edge) : bool :=
  bool_decide (_kind e = Dependency) &&
  (bool_decide (_dep_type e = True_) || bool_decide (_dep_type e = InConcurrent)
   || bool_decide (_dep_type e = InCommutative) || bool_decide (_dep_type e = InAny)).

Definition is_anti_dependency (e : Edge) : bool :=
  bool_decide (_kind e = Dependency) && bool_decide (_dep_type e = Anti).

Definition is_output_dependency (e : Edge) : bool :=
  bool_decide (_kind e = Dependency) &&
  (bool_decide (_dep_type e = Output) || bool_decide (_dep_type e = OutConcurrent)
   || bool_decide (_dep_type e = OutCommutative) || bool_decide (_dep_type e = OutAny)).

Definition is_concurrent_dep (e : Edge) : bool :=
  bool_decide (_kind e = Dependency) &&
  (bool_decide (_dep_type e = InConcurrent) || bool_decide (_dep_type e = OutConcurrent)).

Definition is_commutative_dep (e : Edge) : bool :=
  bool_decide (_kind e = Dependency) &&
  (bool_decide (_dep_type e = InCommutative) || bool_decide (_dep_type e = OutCommutative)).

Definition is_any_dep (e : Edge) : bool :=
  bool_decide (_kind e = Dependency) &&
  (bool_decide (_dep_type e = InAny) || bool_decide (_dep_type e = OutAny)).

(** [Node* get_parent_task( )]: the source of the first nesting edge among
    the entries, looked up with the entry lock held. *)
Definition get_parent_task (this : ptr) : M World ptr :=
  let res := NULL in
  entry_lock_acquire this ;;
  let* n := load this in
  let res :=
    match find is_nesting (_entry_edges n) with
    | Some it => get_source it
    | None => res
    end in
  entry_lock_release this ;;
  ret res.

(** [bool is_connected_with( Node* target ) const] *)
Definition is_connected_with (this : ptr) (target : ptr) : M World bool :=
  let* n := load this in
  ret (existsb (fun it => bool_decide (get_target it = target)) (_exit_edges n)).

(** [bool is_previous_synchronized( ) const] *)
Definition is_previous_synchronized (this : ptr) : M World bool :=
  let* n := load this in
  ret (existsb (fun it => is_dependency it || is_synchronization it) (_entry_edges n)).

(** [bool is_next_synchronized( )] *)
Definition is_next_synchronized (this : ptr) : M World bool :=
  let res := false in
  exit_lock_acquire this ;;
  let* n := load this in
  let res := existsb (fun it => is_dependency it || is_synchronization it) (_exit_edges n) in
  exit_lock_release this ;;
  ret res.

(** The description of one input or output of a task, [struct NodeIO]. *)
Record NodeIO : Type := mkNodeIO {
  _is_input : bool;
  _is_output : bool;
  _start_address : ptr;
  _end_address : ptr;
  _size : Z
}.

(** [NodeIO(nanos_data_access_t const& data_access)]; the arguments are what
    [isInput()], [isOutput()], [getDepAddress()] and [getSize()] return on
    [data_access]. *)
Definition NodeIO_of_access (isInput isOutput : bool) (depAddress : ptr) (size : Z)
    : NodeIO :=
  mkNodeIO isInput isOutput depAddress
           (wrap64 (depAddress + wrap64 (size - 1))) size.

End TgDump.

(** ** nanos_memory.cpp: nanos_cmalloc *)

Module NanosMemory.

(** [nanos_err_t]: the two codes that [nanos_cmalloc] names, and the other
    codes of the enumeration (declared in the C API header, which is not
    among the sources) by their numbers. *)
Inductive nanos_err_t : Type :=
| NANOS_OK
| NANOS_INVALID_PARAM
| NANOS_ERR (code : Z).

(** The calls that [nanos_cmalloc] makes into the runtime. *)
Inductive call : Type :=
| CallGetNumNodes
    (* sys.getNetwork()->getNumNodes() *)
| CallAllocate (size : Z)
    (* tmp_allocator.allocate( size ) *)
| CallAllocateNone (size : Z)
    (* tmp_allocator.allocate_none( size ) *)
| CallRegisterNodeOwnedMemory (node : Z) (addr : ptr) (size : Z)
    (* sys.registerNodeOwnedMemory( node, addr, size ) *).

Section Cmalloc.

(** The runtime singleton [sys] and the [OSAllocator] are outside the
    sources: their state is an abstract [Sys], their methods are
    parameters.  A method returns [inr] of its value, or [inl e] when it
    throws the [nanos_err_t] value [e]. *)
Variable Sys : Type.
Variable getNumNodes : Sys -> Z * Sys.
Variable allocate : Z -> Sys -> (nanos_err_t + ptr) * Sys.
Variable allocate_none : Z -> Sys -> (nanos_err_t + ptr) * Sys.
Variable registerNodeOwnedMemory : Z -> ptr -> Z -> Sys -> (nanos_err_t + unit) * Sys.

(** The runtime, the cell [*p] that receives the address, and the calls
    made so far. *)
Record World : Type := mkWorld {
  sys : Sys;
  cell_p : ptr;
  calls : list call
}.

(** Computations that may throw a [nanos_err_t]. *)
Definition E (A : Type) : Type := World -> (nanos_err_t + A) * World.

Definition eret {A : Type} (a : A) : E A := fun w => (inr a, w).

Definition ebind {A B : Type} (m : E A) (k : A -> E B) : E B :=
  fun w => match m w with
           | (inr a, w') => k a w'
           | (inl e, w') => (inl e, w')
           end.

(** [try { body; } catch ( nanos_err_t e ) { return e; }  return NANOS_OK;] *)
Definition try_return (body : E unit) : World -> nanos_err_t * World :=
  fun w => match body w with
           | (inr _, w') => (NANOS_OK, w')
           | (inl e, w') => (e, w')
           end.

Definition call_getNumNodes : World -> Z * World :=
  fun w => let '(n, s) := getNumNodes (sys w) in
           (n, mkWorld s (cell_p w) (calls w ++ [CallGetNumNodes])).

Definition call_allocate (size : Z) : E ptr :=
  fun w => let '(r, s) := allocate size (sys w) in
           (r, mkWorld s (cell_p w) (calls w ++ [CallAllocate size])).

Definition call_allocate_none (size : Z) : E ptr :=
  fun w => let '(r, s) := allocate_none size (sys w) in
           (r, mkWorld s (cell_p w) (calls w ++ [CallAllocateNone size])).

Definition call_registerNodeOwnedMemory (node : Z) (addr : ptr) (size : Z) : E unit :=
  fun w => let '(r, s) := registerNodeOwnedMemory node addr size (sys w) in
           (r, mkWorld s (cell_p w) (calls w ++ [CallRegisterNodeOwnedMemory node addr size])).

(** [*p = v;] *)
Definition store_p (v : ptr) : E unit :=
  fun w => (inr tt, mkWorld (sys w) v (calls w)).

(** [v = *p] *)
Definition load_p : E ptr := fun w => (inr (cell_p w), w).

(** [nanos_err_t nanos_cmalloc ( void **p, size_t size, unsigned int node,
      const char *file, int line )]; the instrumentation macro is left out. *)
Definition nanos_cmalloc (size : Z) (node : Z) (file : ptr) (line : Z)
    : World -> nanos_err_t * World :=
  fun w =>
    let '(numNodes, w) := call_getNumNodes w in
    if bool_decide (node < numNodes) then
      try_return (
        ebind (if bool_decide (node = 0) then call_allocate size
               else call_allocate_none size) (fun a =>
        ebind (store_p a) (fun _ =>
        ebind load_p (fun v =>
        call_registerNodeOwnedMemory node v size)))) w
    else
      (NANOS_INVALID_PARAM, w).

End Cmalloc.

(** The calls that [nanos_cmalloc_2dim_distributed] makes into the runtime. *)
Inductive call_2dim : Type :=
| Call2GetNumNodes
    (* sys.getNetwork()->getNumNodes() *)
| Call2AllocateNone (size : Z)
    (* tmp_allocator.allocate_none( size ) *)
| Call2RegisterMemoryChunk (addr : ptr) (rows cols elem_size : Z)
    (* sys._registerMemoryChunk_2dim( addr, rows, cols, elem_size ) *)
| Call2DistributeObject (reg : Z) (start_node num_nodes : Z)
    (* sys._distributeObject( reg, start_node, num_nodes ) *).

Section Cmalloc2dim.

(** As for [nanos_cmalloc]: the state of the runtime is abstract and its
    methods are parameters; [inl e] stands for [throw e].  The value of
    type [global_reg_t] that the registration returns is kept as a
    number. *)
Variable Sys : Type.
Variable getNumNodes : Sys -> Z * Sys.
Variable allocate_none : Z -> Sys -> (nanos_err_t + ptr) * Sys.
Variable registerMemoryChunk_2dim : ptr -> Z -> Z -> Z -> Sys -> (nanos_err_t + Z) * Sys.
Variable distributeObject : Z -> Z -> Z -> Sys -> (nanos_err_t + unit) * Sys.

Record World2 : Type := mkWorld2 {
  sys2 : Sys;
  cell_p2 : ptr;
  calls2 : list call_2dim
}.

Definition E2 (A : Type) : Type := World2 -> (nanos_err_t + A) * World2.

Definition ebind2 {A B : Type} (m : E2 A) (k : A -> E2 B) : E2 B :=
  fun w => match m w with
           | (inr a, w') => k a w'
           | (inl e, w') => (inl e, w')
           end.

Definition try_return2 (body : E2 unit) : World2 -> nanos_err_t * World2 :=
  fun w => match body w with
           | (inr _, w') => (NANOS_OK, w')
           | (inl e, w') => (e, w')
           end.

Definition call2_getNumNodes : World2 -> Z * World2 :=
  fun w => let '(n, s) := getNumNodes (sys2 w) in
           (n, mkWorld2 s (cell_p2 w) (calls2 w ++ [Call2GetNumNodes])).

Definition call2_allocate_none (size : Z) : E2 ptr :=
  fun w => let '(r, s) := allocate_none size (sys2 w) in
           (r, mkWorld2 s (cell_p2 w) (calls2 w ++ [Call2AllocateNone size])).

Definition call2_registerMemoryChunk (addr : ptr) (rows cols elem_size : Z) : E2 Z :=
  fun w => let '(r, s) := registerMemoryChunk_2dim addr rows cols elem_size (sys2 w) in
           (r, mkWorld2 s (cell_p2 w)
                 (calls2 w ++ [Call2RegisterMemoryChunk addr rows cols elem_size])).

Definition call2_distributeObject (reg start_node num_nodes : Z) : E2 unit :=
  fun w => let '(r, s) := distributeObject reg start_node num_nodes (sys2 w) in
           (r, mkWorld2 s (cell_p2 w)
                 (calls2 w ++ [Call2DistributeObject reg start_node num_nodes])).

Definition store_p2 (v : ptr) : E2 unit :=
  fun w => (inr tt, mkWorld2 (sys2 w) v (calls2 w)).

Definition load_p2 : E2 ptr := fun w => (inr (cell_p2 w), w).

(** The test of [nanos_cmalloc_2dim_distributed], a chain of [&&]: the
    number of nodes is asked for once per comparison that is reached.
    [start_node] is an [unsigned int], [num_nodes] a [size_t]; their sum is
    computed in [size_t]. *)
Definition range_is_valid (start_node num_nodes : Z) : World2 -> bool * World2 :=
  fun w =>
    if bool_decide (start_node > 0) && bool_decide (num_nodes > 0) then
      let '(n1, w1) := call2_getNumNodes w in
      if bool_decide (start_node < n1) then
        let '(n2, w2) := call2_getNumNodes w1 in
        (bool_decide (wrap64 (start_node + wrap64 (num_nodes - 1)) < n2), w2)
      else (false, w1)
    else (false, w).

(** [nanos_err_t nanos_cmalloc_2dim_distributed ( void **p, size_t rows,
      size_t cols, size_t elem_size, unsigned int start_node,
      size_t num_nodes, const char *file, int line )] *)
Definition nanos_cmalloc_2dim_distributed (rows cols elem_size : Z)
    (start_node num_nodes : Z) (file : ptr) (line : Z)
    : World2 -> nanos_err_t * World2 :=
  fun w =>
    let '(valid, w) := range_is_valid start_node num_nodes w in
    if valid then
      try_return2 (
        let size := wrap64 (wrap64 (cols * rows) * elem_size) in
        ebind2 (call2_allocate_none size) (fun a =>
        ebind2 (store_p2 a) (fun _ =>
        ebind2 load_p2 (fun v =>
        ebind2 (call2_registerMemoryChunk v rows cols elem_size) (fun reg =>
        call2_distributeObject reg start_node num_nodes))))) w
    else
      (NANOS_INVALID_PARAM, w).

End Cmalloc2dim.

End NanosMemory.

(** ** deviceops.hpp: DeviceOps and DeviceOpsPtr *)

Module DeviceOps.

(** [class DeviceOps]: the count of pending operations (an atomic
    [unsigned int]), the set of the [DeviceOpsPtr] objects that refer to this
    object, by address, and the lock that guards the set. *)
Record DeviceOps : Type := mkOps {
  _pendingDeviceOps : Z;
  _refs : gset Z;
  _lock : bool
}.

(** [class DeviceOpsPtr]: the address of a [DeviceOps], or null. *)
Record DeviceOpsPtr : Type := mkPtr {
  _value : ptr
}.

Record World : Type := mkWorld {
  ops : gmap Z DeviceOps;
  ptrs : gmap Z DeviceOpsPtr
}.

Definition load_ops (p : ptr) : M World DeviceOps :=
  fun w => match ops w !! p with
           | Some o => Some (o, w)
           | None => None
           end.

Definition update_ops (p : ptr) (f : DeviceOps -> DeviceOps) : M World unit :=
  fun w => match ops w !! p with
           | Some o => Some (tt, mkWorld (<[p := f o]> (ops w)) (ptrs w))
           | None => None
           end.

Definition load_ptr (p : ptr) : M World DeviceOpsPtr :=
  fun w => match ptrs w !! p with
           | Some o => Some (o, w)
           | None => None
           end.

Definition store_value (p : ptr) (v : ptr) : M World unit :=
  fun w => match ptrs w !! p with
           | Some _ => Some (tt, mkWorld (ops w) (<[p := mkPtr v]> (ptrs w)))
           | None => None
           end.

Definition lock_acquire (this : ptr) : M World unit :=
  let* o := load_ops this in
  match Lock.acquire (_lock o) with
  | Some l => update_ops this (fun o => mkOps (_pendingDeviceOps o) (_refs o) l)
  | None => diverge
  end.

Definition lock_release (this : ptr) : M World unit :=
  update_ops this (fun o => mkOps (_pendingDeviceOps o) (_refs o) (Lock.release (_lock o))).

(** [DeviceOps::DeviceOps() : _pendingDeviceOps ( 0 )] *)
Definition DeviceOps_ctor : DeviceOps := mkOps 0 ∅ false.

(** [unsigned int DeviceOps::getNumOps() const] *)
Definition getNumOps (this : ptr) : M World Z :=
  let* o := load_ops this in ret (_pendingDeviceOps o).

(** [void DeviceOps::addOp()] *)
Definition addOp (this : ptr) : M World unit :=
  update_ops this (fun o => mkOps (wrap32 (_pendingDeviceOps o + 1)) (_refs o) (_lock o)).

(** [bool DeviceOps::allCompleted() const] *)
Definition allCompleted (this : ptr) : M World bool :=
  let* o := load_ops this in ret (bool_decide (_pendingDeviceOps o = 0)).

(** [void DeviceOps::delRef( DeviceOpsPtr *opsPtr )] *)
Definition delRef (this : ptr) (opsPtr : ptr) : M World unit :=
  lock_acquire this ;;
  update_ops this (fun o => mkOps (_pendingDeviceOps o) (_refs o ∖ {[opsPtr]}) (_lock o)) ;;
  lock_release this.

(** [void DeviceOps::addFirstRef( DeviceOpsPtr *opsPtr )] *)
Definition addFirstRef (this : ptr) (opsPtr : ptr) : M World unit :=
  lock_acquire this ;;
  update_ops this (fun o => mkOps (_pendingDeviceOps o) (_refs o ∪ {[opsPtr]}) (_lock o)) ;;
  lock_release this.

(** [DeviceOpsPtr::~DeviceOpsPtr()] *)
Definition DeviceOpsPtr_destructor (this : ptr) : M World unit :=
  let* p := load_ptr this in
  if bool_decide (_value p <> NULL) then delRef (_value p) this else ret tt.

(** [void DeviceOpsPtr::set( DeviceOps *ops )] *)
Definition set (this : ptr) (ops : ptr) : M World unit :=
  store_value this ops ;;
  let* p := load_ptr this in
  addFirstRef (_value p) this.

(** [void DeviceOpsPtr::clear()] *)
Definition clear (this : ptr) : M World unit := store_value this NULL.

(** [bool DeviceOpsPtr::isNotSet() const] *)
Definition isNotSet (this : ptr) : M World bool :=
  let* p := load_ptr this in ret (bool_decide (_value p = NULL)).

(** [DeviceOps *DeviceOpsPtr::get() const] *)
Definition get (this : ptr) : M World ptr :=
  let* p := load_ptr this in ret (_value p).

End DeviceOps.

(** * Properties *)

(** ** The monad *)

Lemma bind_Some {S A B : Type} (m : M S A) (k : A -> M S B) (s : S) (r : B * S) :
  bind m k s = Some r <-> exists a s', m s = Some (a, s') /\ k a s' = Some r.
Proof.
  unfold bind. split.
  - destruct (m s) as [[a s']|] eqn:E; [|discriminate].
    intros H. exists a, s'. split; [reflexivity | exact H].
  - intros (a & s' & -> & H). exact H.
Qed.

Lemma bind_eq {S A B : Type} (m : M S A) (k : A -> M S B) (s s' : S) (a : A) :
  m s = Some (a, s') -> bind m k s = k a s'.
Proof. unfold bind. intros ->. reflexivity. Qed.

Lemma bind_None {S A B : Type} (m : M S A) (k : A -> M S B) (s : S) :
  m s = None -> bind m k s = None.
Proof. unfold bind. intros ->. reflexivity. Qed.

(** ** RequestQueue *)

Section RequestQueueFacts.
Import RequestQueue.

Lemma add_unlocked (elem : ptr) (q : list ptr) :
  add elem (mk q false) = Some (tt, mk (q ++ [elem]) false).
Proof. reflexivity. Qed.

Lemma add_locked (elem : ptr) (q : list ptr) :
  add elem (mk q true) = None.
Proof. reflexivity. Qed.

Lemma add_all_unlocked (elems q : list ptr) :
  for_each elems add (mk q false) = Some (tt, mk (q ++ elems) false).
Proof.
  revert q. induction elems as [|e elems IH]; intros q; simpl.
  - rewrite app_nil_r. reflexivity.
  - rewrite (bind_eq _ _ _ _ _ (add_unlocked e q)), IH, <- app_assoc.
    reflexivity.
Qed.

Lemma tryFetch_locked (q : list ptr) :
  tryFetch (mk q true) = Some (Return NULL, mk q true).
Proof. reflexivity. Qed.

Lemma tryFetch_empty :
  tryFetch (mk [] false) = Some (Return NULL, mk [] false).
Proof. reflexivity. Qed.

Lemma tryFetch_front (x : ptr) (rest : list ptr) :
  tryFetch (mk (x :: rest) false) = Some (Return x, mk rest false).
Proof. reflexivity. Qed.

Lemma fetch_unlocked (q : list ptr) :
  fetch (mk q false) = Some (FlowsOffEnd, mk q false).
Proof. reflexivity. Qed.

End RequestQueueFacts.

(** C9.  [tryFetch] always returns.  It returns the null pointer and leaves
    the queue as it is when the lock is held or the queue is empty.  On a
    free lock, after the elements [elems] were appended by [add] to a queue
    holding [q], it returns the oldest element of [q ++ elems] and leaves
    the others, in their order, behind. *)
Theorem tryFetch_is_fifo :
  (forall s, exists r s', RequestQueue.tryFetch s = Some (Return r, s')) /\
  (forall s, RequestQueue._lock s = true ->
     RequestQueue.tryFetch s = Some (Return NULL, s)) /\
  (forall s, RequestQueue._lock s = false -> RequestQueue._queue s = [] ->
     RequestQueue.tryFetch s = Some (Return NULL, s)) /\
  (forall s elems x rest,
     RequestQueue._lock s = false ->
     RequestQueue._queue s ++ elems = x :: rest ->
     exists s1,
       for_each elems RequestQueue.add s = Some (tt, s1) /\
       RequestQueue.tryFetch s1 = Some (Return x, RequestQueue.mk rest false)).
Proof.
  repeat split.
  - intros [q [|]].
    + eexists _, _. apply tryFetch_locked.
    + destruct q as [|x rest]; eexists _, _;
        [apply tryFetch_empty | apply tryFetch_front].
  - intros [q l]; simpl; intros ->. apply tryFetch_locked.
  - intros [q l]; simpl; intros -> ->. apply tryFetch_empty.
  - intros [q l] elems x rest; simpl; intros -> Hq.
    exists (RequestQueue.mk (q ++ elems) false). split.
    + apply add_all_unlocked.
    + rewrite Hq. apply tryFetch_front.
Qed.

Lemma tryFetch_is_fifo_witness :
  exists s1,
    for_each [8; 9] RequestQueue.add (RequestQueue.mk [7] false) = Some (tt, s1) /\
    RequestQueue.tryFetch s1 = Some (Return 7, RequestQueue.mk [8; 9] false).
Proof.
  apply (proj2 (proj2 (proj2 tryFetch_is_fifo))
           (RequestQueue.mk [7] false) [8; 9] 7 [8; 9]); reflexivity.
Defined.

(** C8.  On the empty queue (lock free) [fetch] takes and drops the lock and
    reaches the end of its body: no [return] statement is executed, so the
    caller receives no defined value, and in particular not the null
    pointer that [elem] was initialised with. *)
Theorem fetch_empty_returns_nothing :
  RequestQueue.fetch RequestQueue.RequestQueue
    = Some (FlowsOffEnd, RequestQueue.RequestQueue) /\
  RequestQueue.fetch RequestQueue.RequestQueue
    <> Some (Return NULL, RequestQueue.RequestQueue).
Proof. split; [reflexivity | discriminate]. Qed.

(** ** RequestMap *)

Section RequestMapFacts.
Import RequestMap.

Lemma foldr_min_le (k : N) (r : list N) :
  (foldr N.min k r <= k)%N /\ forall x, x ∈ r -> (foldr N.min k r <= x)%N.
Proof.
  induction r as [|y r [IHk IHr]]; simpl.
  - split; [lia | intros x Hx; inversion Hx].
  - split; [lia |].
    intros x [->|Hx]%elem_of_cons; [lia |].
    specialize (IHr x Hx). lia.
Qed.

Lemma foldr_min_elem (k : N) (r : list N) : foldr N.min k r ∈ k :: r.
Proof.
  induction r as [|y r IH]; simpl.
  - left.
  - destruct (N.min_spec y (foldr N.min k r)) as [[_ ->]|[_ ->]].
    + right. left.
    + apply elem_of_cons in IH as [->|IH]; [left | right; right; exact IH].
Qed.

(** [lower_bound] finds the least key that is not less than [key]. *)
Lemma lower_bound_Some (m : gmap N Z) (key k : N) :
  lower_bound m key = Some k ->
  k ∈ dom m /\ (key <= k)%N /\
  forall k', k' ∈ dom m -> (key <= k')%N -> (k <= k')%N.
Proof.
  unfold lower_bound.
  destruct (filter _ _) as [|k0 r] eqn:E; [discriminate |].
  intros [= <-].
  assert (Hin : forall x, x ∈ k0 :: r <-> (key <= x)%N /\ x ∈ dom m).
  { intros x. rewrite <- E, list_elem_of_filter, elem_of_elements. reflexivity. }
  pose proof (foldr_min_elem k0 r) as Hel. apply Hin in Hel as [Hle Hdom].
  split; [exact Hdom |]. split; [exact Hle |].
  intros k' Hk' Hle'.
  assert (Hk : k' ∈ k0 :: r) by (apply Hin; split; assumption).
  destruct (foldr_min_le k0 r) as [H0 Hr].
  apply elem_of_cons in Hk as [->|Hk]; [exact H0 | apply Hr, Hk].
Qed.

(** It is [end()] exactly when every key is less than [key]. *)
Lemma lower_bound_None (m : gmap N Z) (key : N) :
  lower_bound m key = None <-> forall k, k ∈ dom m -> (k < key)%N.
Proof.
  unfold lower_bound. split.
  - destruct (filter _ _) as [|k0 r] eqn:E; [|discriminate].
    intros _ k Hk. destruct (N.lt_ge_cases k key) as [Hlt|Hge]; [exact Hlt |].
    exfalso. eapply (filter_nil_not_elem_of _ _ k E); [exact Hge |].
    apply elem_of_elements, Hk.
  - intros Hall. destruct (filter _ _) as [|k0 r] eqn:E; [reflexivity |].
    assert (Hk0 : k0 ∈ filter (fun k => (key <= k)%N) (elements (dom m)))
      by (rewrite E; left).
    apply list_elem_of_filter in Hk0 as [Hle Hk0].
    apply elem_of_elements, Hall in Hk0. lia.
Qed.

Lemma lower_bound_present (m : gmap N Z) (key : N) (old : Z) :
  m !! key = Some old -> lower_bound m key = Some key.
Proof.
  intros Hm.
  assert (Hdom : key ∈ dom m) by (apply elem_of_dom; eauto).
  destruct (lower_bound m key) as [k|] eqn:E.
  - apply lower_bound_Some in E as (_ & Hle & Hmin).
    specialize (Hmin key Hdom (N.le_refl _)). f_equal. lia.
  - rewrite lower_bound_None in E. specialize (E key Hdom). lia.
Qed.

(** What [add] does, by the position [lower_bound] returns. *)
Lemma add_unfold (end_first key : N) (elem : Z) (m : gmap N Z) (out : list string) :
  add end_first key elem (mkWorld (mk m false) out) =
  Some (tt,
    if negb (bool_decide (lower_bound m key = None))
       || bool_decide (key < first end_first (lower_bound m key))%N
    then mkWorld (mk (insert_hint (lower_bound m key) key elem m) false) out
    else mkWorld (mk m false) (out ++ ["Error, key already exists."%string])).
Proof.
  unfold add, bind, lock_acquire, lock_release, print, modify, get, put; simpl.
  destruct (negb _ || _); reflexivity.
Qed.

(** A key that is present: nothing is inserted and nothing is reported. *)
Lemma add_present_is_silent (end_first key : N) (elem old : Z)
    (m : gmap N Z) (out : list string) :
  m !! key = Some old ->
  add end_first key elem (mkWorld (mk m false) out)
    = Some (tt, mkWorld (mk m false) out).
Proof.
  intros Hm. rewrite add_unfold, (lower_bound_present _ _ _ Hm).
  rewrite bool_decide_eq_false_2 by discriminate. simpl.
  unfold insert_hint. rewrite Hm. reflexivity.
Qed.

(** A key above every key of the map, when the read at [end()] yields a
    value that is not above it: the error is reported and nothing is
    inserted. *)
Lemma add_beyond_last_reports (end_first key : N) (elem : Z)
    (m : gmap N Z) (out : list string) :
  (forall k, k ∈ dom m -> (k < key)%N) -> (end_first <= key)%N ->
  add end_first key elem (mkWorld (mk m false) out)
    = Some (tt, mkWorld (mk m false) (out ++ ["Error, key already exists."%string])).
Proof.
  intros Hall Hend. apply lower_bound_None in Hall.
  rewrite add_unfold, Hall. simpl.
  repeat case_bool_decide; simpl; first [reflexivity | congruence | lia].
Qed.

End RequestMapFacts.

(** C7.  [add] at two inputs.  With the key 5 present, [add 5] leaves the
    map as it is but writes nothing to [std::cerr], whatever the read at
    [end()] would yield.  With the map empty and the read at [end()]
    yielding 0, [add 5] inserts nothing and writes the error line, although
    the key is absent. *)
Theorem RequestMap_add_at_failing_inputs :
  (forall end_first,
     RequestMap.add end_first 5 22
       (RequestMap.mkWorld (RequestMap.mk {[ 5%N := 11 ]} false) [])
     = Some (tt, RequestMap.mkWorld (RequestMap.mk {[ 5%N := 11 ]} false) [])) /\
  RequestMap.add 0 5 22 (RequestMap.mkWorld (RequestMap.mk ∅ false) [])
    = Some (tt, RequestMap.mkWorld (RequestMap.mk ∅ false)
                  ["Error, key already exists."%string]).
Proof.
  split.
  - intros end_first. apply (add_present_is_silent _ _ _ 11).
    apply lookup_singleton_eq.
  - apply (add_beyond_last_reports 0 5 22 ∅ []); [|lia].
    intros k Hk. rewrite dom_empty_L in Hk. set_solver.
Qed.

(** ** nanos_cmalloc *)

Section CmallocFacts.
Import NanosMemory.

Variable Sys : Type.
Variable getNumNodes : Sys -> Z * Sys.
Variable allocate : Z -> Sys -> (nanos_err_t + Z) * Sys.
Variable allocate_none : Z -> Sys -> (nanos_err_t + Z) * Sys.
Variable registerNodeOwnedMemory : Z -> Z -> Z -> Sys -> (nanos_err_t + unit) * Sys.

Let cmalloc := nanos_cmalloc Sys getNumNodes allocate allocate_none registerNodeOwnedMemory.

(** The allocator method that [nanos_cmalloc] picks for [node], and the
    call it leaves in the trace. *)
Let chosen_allocator (node : Z) : Z -> Sys -> (nanos_err_t + Z) * Sys :=
  if bool_decide (node = 0) then allocate else allocate_none.
Let chosen_call (node size : Z) : call :=
  if bool_decide (node = 0) then CallAllocate size else CallAllocateNone size.

Lemma cmalloc_invalid_node (size node : Z) (file : Z) (line : Z) (w : World Sys)
    (n : Z) (s0 : Sys) :
  getNumNodes (sys Sys w) = (n, s0) -> n <= node ->
  cmalloc size node file line w
    = (NANOS_INVALID_PARAM, mkWorld Sys s0 (cell_p Sys w) (calls Sys w ++ [CallGetNumNodes])).
Proof.
  intros Hn Hle. unfold cmalloc, nanos_cmalloc, call_getNumNodes. rewrite Hn.
  rewrite bool_decide_eq_false_2 by lia. reflexivity.
Qed.

Lemma cmalloc_allocation_throws (size node : Z) (file : Z) (line : Z) (w : World Sys)
    (n : Z) (s0 s1 : Sys) (e : nanos_err_t) :
  getNumNodes (sys Sys w) = (n, s0) -> node < n ->
  chosen_allocator node size s0 = (inl e, s1) ->
  cmalloc size node file line w
    = (e, mkWorld Sys s1 (cell_p Sys w)
            (calls Sys w ++ [CallGetNumNodes] ++ [chosen_call node size])).
Proof.
  intros Hn Hlt Ha.
  unfold cmalloc, nanos_cmalloc, call_getNumNodes. rewrite Hn.
  rewrite bool_decide_eq_true_2 by lia.
  unfold chosen_allocator, chosen_call in *.
  unfold try_return, ebind, call_allocate, call_allocate_none.
  destruct (bool_decide (node = 0)); simpl; rewrite Ha, <- app_assoc; reflexivity.
Qed.

Lemma cmalloc_allocation_returns (size node : Z) (file : Z) (line : Z) (w : World Sys)
    (n : Z) (s0 s1 s2 : Sys) (a : Z) (r : nanos_err_t + unit) :
  getNumNodes (sys Sys w) = (n, s0) -> node < n ->
  chosen_allocator node size s0 = (inr a, s1) ->
  registerNodeOwnedMemory node a size s1 = (r, s2) ->
  cmalloc size node file line w
    = (match r with inr _ => NANOS_OK | inl e => e end,
       mkWorld Sys s2 a
         (calls Sys w ++ [CallGetNumNodes] ++ [chosen_call node size]
                      ++ [CallRegisterNodeOwnedMemory node a size])).
Proof.
  intros Hn Hlt Ha Hr.
  unfold cmalloc, nanos_cmalloc, call_getNumNodes. rewrite Hn.
  rewrite bool_decide_eq_true_2 by lia.
  unfold chosen_allocator, chosen_call in *.
  unfold try_return, ebind, call_allocate, call_allocate_none, store_p, load_p,
    call_registerNodeOwnedMemory.
  destruct (bool_decide (node = 0)); simpl; rewrite Ha; simpl; rewrite Hr;
    destruct r; repeat rewrite <- app_assoc; reflexivity.
Qed.

End CmallocFacts.

(** C10.  [nanos_cmalloc] first asks for the number of nodes [n].
    - [n <= node]: it returns [NANOS_INVALID_PARAM]; the only call made is
      the one that asked for [n], and the cell [*p] is not written.
    - [node < n]: it calls [allocate] when [node = 0] and [allocate_none]
      otherwise.  If that call throws [e], it returns [e] and neither writes
      [*p] nor registers anything.  If it returns the address [a], then [a]
      is written to [*p] and registered for [node]; the result is [NANOS_OK]
      when the registration returns, and the thrown code when it throws. *)
Theorem nanos_cmalloc_validates_node
    (Sys : Type) (getNumNodes : Sys -> Z * Sys)
    (allocate allocate_none : Z -> Sys -> (NanosMemory.nanos_err_t + Z) * Sys)
    (registerNodeOwnedMemory : Z -> Z -> Z -> Sys -> (NanosMemory.nanos_err_t + unit) * Sys)
    (size node file line : Z) (w : NanosMemory.World Sys) (n : Z) (s0 : Sys) :
  let cmalloc :=
    NanosMemory.nanos_cmalloc Sys getNumNodes allocate allocate_none registerNodeOwnedMemory in
  let alloc := if bool_decide (node = 0) then allocate else allocate_none in
  let alloc_call :=
    if bool_decide (node = 0) then NanosMemory.CallAllocate size
    else NanosMemory.CallAllocateNone size in
  getNumNodes (NanosMemory.sys Sys w) = (n, s0) ->
  (n <= node ->
     cmalloc size node file line w
     = (NanosMemory.NANOS_INVALID_PARAM,
        NanosMemory.mkWorld Sys s0 (NanosMemory.cell_p Sys w)
          (NanosMemory.calls Sys w ++ [NanosMemory.CallGetNumNodes]))) /\
  (node < n ->
     (forall e s1, alloc size s0 = (inl e, s1) ->
        cmalloc size node file line w
        = (e, NanosMemory.mkWorld Sys s1 (NanosMemory.cell_p Sys w)
                (NanosMemory.calls Sys w ++ [NanosMemory.CallGetNumNodes; alloc_call]))) /\
     (forall a s1 s2, alloc size s0 = (inr a, s1) ->
        registerNodeOwnedMemory node a size s1 = (inr tt, s2) ->
        cmalloc size node file line w
        = (NanosMemory.NANOS_OK,
           NanosMemory.mkWorld Sys s2 a
             (NanosMemory.calls Sys w ++
                [NanosMemory.CallGetNumNodes; alloc_call;
                 NanosMemory.CallRegisterNodeOwnedMemory node a size]))) /\
     (forall a e s1 s2, alloc size s0 = (inr a, s1) ->
        registerNodeOwnedMemory node a size s1 = (inl e, s2) ->
        cmalloc size node file line w
        = (e, NanosMemory.mkWorld Sys s2 a
                (NanosMemory.calls Sys w ++
                   [NanosMemory.CallGetNumNodes; alloc_call;
                    NanosMemory.CallRegisterNodeOwnedMemory node a size])))).
Proof.
  intros cmalloc alloc alloc_call Hn. split.
  - intros Hle. eapply cmalloc_invalid_node; eassumption.
  - intros Hlt. repeat split.
    + intros e s1 Ha.
      eapply (cmalloc_allocation_throws _ _ _ _ _ _ _ _ _ _ _ _ _ e Hn Hlt Ha).
    + intros a s1 s2 Ha Hr.
      eapply (cmalloc_allocation_returns _ _ _ _ _ _ _ _ _ _ _ _ _ _ _ (inr tt) Hn Hlt Ha Hr).
    + intros a e s1 s2 Ha Hr.
      eapply (cmalloc_allocation_returns _ _ _ _ _ _ _ _ _ _ _ _ _ _ _ (inl e) Hn Hlt Ha Hr).
Qed.

Lemma nanos_cmalloc_validates_node_witness :
  let cmalloc :=
    NanosMemory.nanos_cmalloc unit (fun s => (2, s))
      (fun _ s => (inr 4096, s)) (fun _ s => (inr 8192, s))
      (fun _ _ _ s => (inr tt, s)) in
  let w := NanosMemory.mkWorld unit tt NULL [] in
  cmalloc 64 5 0 0 w
    = (NanosMemory.NANOS_INVALID_PARAM,
       NanosMemory.mkWorld unit tt NULL [NanosMemory.CallGetNumNodes]) /\
  cmalloc 64 1 0 0 w
    = (NanosMemory.NANOS_OK,
       NanosMemory.mkWorld unit tt 8192
         [NanosMemory.CallGetNumNodes; NanosMemory.CallAllocateNone 64;
          NanosMemory.CallRegisterNodeOwnedMemory 1 8192 64]).
Proof.
  split.
  - apply (proj1 (nanos_cmalloc_validates_node unit (fun s => (2, s))
             (fun _ s => (inr 4096, s)) (fun _ s => (inr 8192, s))
             (fun _ _ _ s => (inr tt, s)) 64 5 0 0
             (NanosMemory.mkWorld unit tt NULL []) 2 tt eq_refl)).
    lia.
  - refine (proj1 (proj2 (proj2 (nanos_cmalloc_validates_node unit (fun s => (2, s))
             (fun _ s => (inr 4096, s)) (fun _ s => (inr 8192, s))
             (fun _ _ _ s => (inr tt, s)) 64 1 0 0
             (NanosMemory.mkWorld unit tt NULL []) 2 tt eq_refl) _))
             8192 tt tt eq_refl eq_refl).
    lia.
Defined.

(** ** DependableObject: single calls *)

Section DependableObjectFacts.
Import DependableObject.

Lemma load_eq (p : Z) (w : World) (o : t) :
  heap w !! p = Some o -> load p w = Some (o, w).
Proof. unfold load. intros ->. reflexivity. Qed.

Lemma update_eq (p : Z) (f : t -> t) (w : World) (o : t) :
  heap w !! p = Some o ->
  update p f w = Some (tt, mkWorld (<[p := f o]> (heap w)) (trace w)).
Proof. unfold update. intros ->. reflexivity. Qed.

Lemma emit_eq (e : event) (w : World) :
  emit e w = Some (tt, mkWorld (heap w) (trace w ++ [e])).
Proof. reflexivity. Qed.

(** [decreasePredecessors] on a live object: the counter is decremented,
    the scheduler is told with mode 1 and the new count, and
    [dependenciesSatisfied] runs when the new count is 0 and the release is
    not batched. *)
Lemma decreasePredecessors_eq (this flushDeps finishedPred : Z)
    (batchRelease blocking : bool) (w : World) (o : t) :
  heap w !! this = Some o ->
  let numPred := to_int (wrap32 (_numPredecessors o - 1)) in
  decreasePredecessors this flushDeps finishedPred batchRelease blocking w
  = Some (numPred,
      mkWorld (<[this := set_numPredecessors (wrap32 (_numPredecessors o - 1)) o]> (heap w))
        (trace w ++ [EvAtSuccessor this finishedPred 1 numPred] ++
           (if bool_decide (numPred = 0) && negb batchRelease
            then [EvDependenciesSatisfied this] else []))).
Proof.
  intros Ho numPred. unfold decreasePredecessors.
  rewrite (bind_eq _ _ _ _ _ (load_eq _ _ _ Ho)).
  rewrite (bind_eq _ _ _ _ _ (update_eq _ _ _ _ Ho)).
  rewrite (bind_eq _ _ _ _ _ (emit_eq _ _)). simpl.
  fold numPred.
  destruct (bool_decide (numPred = 0) && negb batchRelease); simpl.
  - unfold bind, dependenciesSatisfied, ret. rewrite emit_eq. simpl.
    rewrite <- app_assoc. reflexivity.
  - unfold bind, ret. simpl. reflexivity.
Qed.

(** [addSuccessor] on a live object. *)
Lemma addSuccessor_eq (this depObj : Z) (w : World) (o : t) :
  heap w !! this = Some o ->
  addSuccessor this depObj w
  = Some (negb (bool_decide (depObj ∈ _successors o)),
      mkWorld (<[this := set_successors (_successors o ∪ {[depObj]}) o]> (heap w))
        (trace w ++ [EvAtSuccessor depObj this 0 0])).
Proof.
  intros Ho. unfold addSuccessor.
  rewrite (bind_eq _ _ _ _ _ (emit_eq _ _)).
  assert (Ho' : heap (mkWorld (heap w) (trace w ++ [EvAtSuccessor depObj this 0 0]))
                  !! this = Some o) by exact Ho.
  rewrite (bind_eq _ _ _ _ _ (load_eq _ _ _ Ho')).
  rewrite (bind_eq _ _ _ _ _ (update_eq _ _ _ _ Ho')).
  reflexivity.
Qed.

(** Writing back a field with the value it has changes nothing. *)
Lemma set_predecessors_id (o : t) : set_predecessors (_predecessors o) o = o.
Proof. destruct o; reflexivity. Qed.

(** [decreasePredecessorsInLock] with a non-null, live [finishedPred]. *)
Lemma decreasePredecessorsInLock_eq (this finishedPred numPred : Z)
    (w : World) (o f : t) :
  heap w !! this = Some o -> heap w !! finishedPred = Some f ->
  finishedPred <> NULL ->
  decreasePredecessorsInLock this finishedPred numPred w
  = Some (tt,
      mkWorld
        (<[this := set_predecessors
                     (if bool_decide (numPred = 0) then ∅
                      else _predecessors o ∖ {[finishedPred]}) o]> (heap w))
        (trace w ++
           (if bool_decide (_wd o <> NULL) && bool_decide (_wd f <> NULL)
            then [EvPredecessorFinished (_wd o) (_wd f)] else []))).
Proof.
  intros Ho Hf Hnn. unfold decreasePredecessorsInLock.
  rewrite (bool_decide_eq_true_2 _ Hnn).
  set (tr := trace w ++ _).
  set (w1 := mkWorld (heap w) tr).
  set (P1 := _predecessors o ∖ {[finishedPred]}).
  set (w2 := mkWorld (<[this := set_predecessors P1 o]> (heap w)) tr).
  (* the notification of the work descriptor *)
  assert (Hhook :
    (if bool_decide (_wd o <> NULL) then
       let* f0 := load finishedPred in
       if bool_decide (_wd f0 <> NULL) then
         emit (EvPredecessorFinished (_wd o) (_wd f0))
       else ret tt
     else ret tt) w = Some (tt, w1)).
  { subst w1 tr. destruct (bool_decide (_wd o <> NULL)); simpl.
    - rewrite (bind_eq _ _ _ _ _ (load_eq _ _ _ Hf)).
      destruct (bool_decide (_wd f <> NULL)); simpl.
      + apply emit_eq.
      + rewrite app_nil_r. destruct w; reflexivity.
    - rewrite app_nil_r. destruct w; reflexivity. }
  (* the removal from the set *)
  assert (Hrem :
    (let* o0 := load this in
     if bool_decide (size (_predecessors o0) <> 0%nat) then
       if bool_decide (finishedPred ∈ _predecessors o0) then
         update this (set_predecessors (_predecessors o0 ∖ {[finishedPred]}))
       else ret tt
     else ret tt) w1 = Some (tt, w2)).
  { assert (Ho1 : heap w1 !! this = Some o) by exact Ho.
    rewrite (bind_eq _ _ _ _ _ (load_eq _ _ _ Ho1)).
    assert (Hsame : finishedPred ∉ _predecessors o -> Some (tt, w1) = Some (tt, w2)).
    { intros Hnot. subst w1 w2 P1. do 3 f_equal.
      assert (Heq : _predecessors o ∖ {[finishedPred]} = _predecessors o)
        by set_solver.
      rewrite Heq, set_predecessors_id, insert_id; [reflexivity | exact Ho]. }
    destruct (decide (size (_predecessors o) <> 0%nat)) as [Hsz|Hsz].
    - rewrite (bool_decide_eq_true_2 _ Hsz).
      destruct (decide (finishedPred ∈ _predecessors o)) as [Hin|Hin].
      + rewrite (bool_decide_eq_true_2 _ Hin). exact (update_eq _ _ _ _ Ho1).
      + rewrite (bool_decide_eq_false_2 _ Hin). apply Hsame, Hin.
    - rewrite (bool_decide_eq_false_2 _ Hsz).
      apply Hsame. apply dec_stable in Hsz. apply size_empty_inv in Hsz.
      set_solver. }
  (* the clearing of the set when no predecessor is left to wait for *)
  erewrite bind_eq;
    [| rewrite (bind_eq _ _ _ _ _ (load_eq _ _ _ Ho));
       rewrite (bind_eq _ _ _ _ _ Hhook); exact Hrem].
  assert (Ho2 : heap w2 !! this = Some (set_predecessors P1 o))
    by (subst w2; simpl; apply lookup_insert_eq).
  rewrite (bind_eq _ _ _ _ _ (load_eq _ _ _ Ho2)). simpl.
  destruct (decide (numPred = 0)) as [Hz|Hz].
  - rewrite !(bool_decide_eq_true_2 _ Hz). simpl.
    destruct (decide (P1 = ∅)) as [He|He].
    + rewrite (bool_decide_eq_true_2 _ He). simpl.
      unfold ret. subst w2. rewrite He. reflexivity.
    + rewrite (bool_decide_eq_false_2 _ He). simpl.
      rewrite (update_eq _ _ _ _ Ho2). subst w2. simpl.
      rewrite insert_insert_eq. reflexivity.
  - rewrite !(bool_decide_eq_false_2 _ Hz). reflexivity.
Qed.

End DependableObjectFacts.

(** C1 (as the code has it).  On a live object [decreasePredecessors]
    returns the decremented count.  It calls [dependenciesSatisfied] exactly
    when that count is 0 and [batchRelease] is false.  The [_submitted] flag
    plays no part: it is not read, and it is the same afterwards. *)
Theorem decreasePredecessors_release_rule
    (this flushDeps finishedPred : Z) (batchRelease blocking : bool)
    (w : DependableObject.World) (o : DependableObject.t) :
  DependableObject.heap w !! this = Some o ->
  exists numPred w' new,
    DependableObject.decreasePredecessors this flushDeps finishedPred
      batchRelease blocking w = Some (numPred, w') /\
    numPred = to_int (wrap32 (DependableObject._numPredecessors o - 1)) /\
    DependableObject.trace w' = DependableObject.trace w ++ new /\
    (DependableObject.EvDependenciesSatisfied this ∈ new
       <-> numPred = 0 /\ batchRelease = false) /\
    DependableObject.submitted_at this w' = Some (DependableObject._submitted o).
Proof.
  intros Ho. eexists _, _, _. split; [|split; [|split; [|split]]].
  - apply decreasePredecessors_eq, Ho.
  - reflexivity.
  - reflexivity.
  - destruct (decide (to_int (wrap32 (DependableObject._numPredecessors o - 1)) = 0))
      as [Hz|Hz].
    + rewrite (bool_decide_eq_true_2 _ Hz). destruct batchRelease; simpl.
      * split; [|intros [_ ?]; discriminate].
        intros [?|[]%elem_of_nil]%elem_of_cons. discriminate.
      * split; [intros _; split; [exact Hz | reflexivity]|].
        intros _. right. left.
    + rewrite (bool_decide_eq_false_2 _ Hz). simpl.
      split; [|intros [? _]; contradiction].
      intros [?|[]%elem_of_nil]%elem_of_cons. discriminate.
  - unfold DependableObject.submitted_at. simpl.
    rewrite lookup_insert_eq. reflexivity.
Qed.

Lemma decreasePredecessors_release_rule_witness :
  exists numPred w' new,
    DependableObject.decreasePredecessors 200 NULL 100 false false
      (DependableObject.mkWorld
         {[ 200 := DependableObject.mk 2 1 1 ∅ ∅ NULL [] [] true true 20 NULL false ]} [])
      = Some (numPred, w') /\
    numPred = to_int (wrap32 (1 - 1)) /\
    DependableObject.trace w' = [] ++ new /\
    (DependableObject.EvDependenciesSatisfied 200 ∈ new
       <-> numPred = 0 /\ false = false) /\
    DependableObject.submitted_at 200 w' = Some true.
Proof.
  apply (decreasePredecessors_release_rule 200 NULL 100 false false
           (DependableObject.mkWorld
              {[ 200 := DependableObject.mk 2 1 1 ∅ ∅ NULL [] [] true true 20 NULL false ]} [])
           (DependableObject.mk 2 1 1 ∅ ∅ NULL [] [] true true 20 NULL false)).
  vm_compute. reflexivity.
Defined.

(** C1, counterexample.  An object that was never submitted and waits for
    one predecessor: the call that takes the count to 0 (not batched) runs
    [dependenciesSatisfied]. *)
Lemma decreasePredecessors_releases_unsubmitted :
  let w := DependableObject.mkWorld
             {[ 200 := DependableObject.mk 2 1 1 ∅ ∅ NULL [] [] false false 20 NULL false ]}
             [] in
  DependableObject.submitted_at 200 w = Some false /\
  exists w',
    DependableObject.decreasePredecessors 200 NULL 100 false false w = Some (0, w') /\
    DependableObject.trace w'
      = [DependableObject.EvAtSuccessor 200 100 1 0;
         DependableObject.EvDependenciesSatisfied 200].
Proof.
  split.
  - unfold DependableObject.submitted_at. simpl.
    rewrite lookup_singleton_eq. reflexivity.
  - eexists. split; [vm_compute; reflexivity | reflexivity].
Qed.


(** C3 (as the code has it).  [addSuccessor] calls the hook with the
    target, the source, mode 0 and count 0: the count is the constant 0,
    not read from the target.  [decreasePredecessors] calls it with the
    object, the finished predecessor, mode 1 and the decremented count.  So
    mode 0 marks the creation of an edge and mode 1 the completion of a
    predecessor, and each call makes one hook call only. *)
Theorem atSuccessor_modes
    (this depObj flushDeps finishedPred : Z) (batchRelease blocking : bool)
    (w : DependableObject.World) (o : DependableObject.t) :
  DependableObject.heap w !! this = Some o ->
  (exists inserted w',
     DependableObject.addSuccessor this depObj w = Some (inserted, w') /\
     DependableObject.trace w'
       = DependableObject.trace w ++ [DependableObject.EvAtSuccessor depObj this 0 0]) /\
  (exists numPred w' rest,
     DependableObject.decreasePredecessors this flushDeps finishedPred
       batchRelease blocking w = Some (numPred, w') /\
     numPred = to_int (wrap32 (DependableObject._numPredecessors o - 1)) /\
     DependableObject.trace w'
       = DependableObject.trace w ++
           DependableObject.EvAtSuccessor this finishedPred 1 numPred :: rest /\
     forall d p m n, DependableObject.EvAtSuccessor d p m n ∉ rest).
Proof.
  intros Ho. split.
  - eexists _, _. split; [apply addSuccessor_eq, Ho | reflexivity].
  - eexists _, _, _. split; [apply decreasePredecessors_eq, Ho |].
    split; [reflexivity |]. split; [reflexivity |].
    intros d p m n. destruct (_ && _).
    + intros [?|[]%elem_of_nil]%elem_of_cons. discriminate.
    + apply not_elem_of_nil.
Qed.

Lemma atSuccessor_modes_witness :
  let w := DependableObject.mkWorld
             {[ 100 := DependableObject.mk 1 0 1 ∅ ∅ NULL [] [] true true 10 NULL false ]}
             [] in
  (exists inserted w',
     DependableObject.addSuccessor 100 200 w = Some (inserted, w') /\
     DependableObject.trace w' = [] ++ [DependableObject.EvAtSuccessor 200 100 0 0]) /\
  (exists numPred w' rest,
     DependableObject.decreasePredecessors 100 NULL 50 true false w
       = Some (numPred, w') /\
     numPred = to_int (wrap32 (0 - 1)) /\
     DependableObject.trace w'
       = [] ++ DependableObject.EvAtSuccessor 100 50 1 numPred :: rest /\
     forall d p m n, DependableObject.EvAtSuccessor d p m n ∉ rest).
Proof.
  apply (atSuccessor_modes 100 200 NULL 50 true false
           (DependableObject.mkWorld
              {[ 100 := DependableObject.mk 1 0 1 ∅ ∅ NULL [] [] true true 10 NULL false ]} [])
           (DependableObject.mk 1 0 1 ∅ ∅ NULL [] [] true true 10 NULL false)).
  vm_compute. reflexivity.
Defined.

(** C3, counterexample.  The target at 200 waits for 3 predecessors.
    [addSuccessor] on the source at 100 passes mode 0 and count 0 to the
    hook, while [decreasePredecessors] on the target is the call that
    passes mode 1, together with the count that is left. *)
Lemma addSuccessor_passes_zero_mode_and_count :
  let w := DependableObject.mkWorld
             {[ 100 := DependableObject.mk 1 0 1 ∅ ∅ NULL [] [] true true 10 NULL false;
                200 := DependableObject.mk 2 3 1 ∅ ∅ NULL [] [] false false 20 NULL false ]}
             [] in
  DependableObject.numPredecessors 200 w = Some (3, w) /\
  (exists w',
     DependableObject.addSuccessor 100 200 w = Some (true, w') /\
     DependableObject.trace w' = [DependableObject.EvAtSuccessor 200 100 0 0]) /\
  (exists w',
     DependableObject.decreasePredecessors 200 NULL 100 false false w = Some (2, w') /\
     DependableObject.trace w' = [DependableObject.EvAtSuccessor 200 100 1 2]).
Proof.
  split; [vm_compute; reflexivity |].
  split; eexists; (split; [vm_compute; reflexivity | reflexivity]).
Qed.

(** C4 (as the code has it).  [decreasePredecessors] does not touch the
    predecessor set, takes no lock and does not notify the work descriptor:
    it only calls the scheduler hook and, possibly, [dependenciesSatisfied].
    The removal is the work of [decreasePredecessorsInLock], which the
    caller runs with the lock held: for a non-null [finishedPred] it takes
    [finishedPred] out of the set (and empties the set when [numPred] is 0),
    and calls [predecessorFinished] on the object's work descriptor with
    that of [finishedPred] exactly when both are non-null. *)
Theorem predecessor_removal_is_in_lock_variant
    (this flushDeps finishedPred : Z) (batchRelease blocking : bool) (numPred : Z)
    (w : DependableObject.World) (o f : DependableObject.t) :
  DependableObject.heap w !! this = Some o ->
  DependableObject.heap w !! finishedPred = Some f ->
  finishedPred <> NULL ->
  (exists n w' new,
     DependableObject.decreasePredecessors this flushDeps finishedPred
       batchRelease blocking w = Some (n, w') /\
     DependableObject._predecessors <$> DependableObject.heap w' !! this
       = Some (DependableObject._predecessors o) /\
     DependableObject.trace w' = DependableObject.trace w ++ new /\
     forall e, e ∈ new ->
       e = DependableObject.EvAtSuccessor this finishedPred 1 n \/
       e = DependableObject.EvDependenciesSatisfied this) /\
  (exists w' o',
     DependableObject.decreasePredecessorsInLock this finishedPred numPred w
       = Some (tt, w') /\
     DependableObject.heap w' !! this = Some o' /\
     (finishedPred ∉ DependableObject._predecessors o') /\
     DependableObject._predecessors o'
       = (if bool_decide (numPred = 0) then ∅
          else DependableObject._predecessors o ∖ {[finishedPred]}) /\
     DependableObject.trace w'
       = DependableObject.trace w ++
           (if bool_decide (DependableObject._wd o <> NULL)
               && bool_decide (DependableObject._wd f <> NULL)
            then [DependableObject.EvPredecessorFinished
                    (DependableObject._wd o) (DependableObject._wd f)]
            else [])).
Proof.
  intros Ho Hf Hnn. split.
  - eexists _, _, _. split; [apply decreasePredecessors_eq, Ho |].
    split; [simpl; rewrite lookup_insert_eq; reflexivity |].
    split; [reflexivity |].
    intros e. destruct (_ && _).
    + intros [->|[->|[]%elem_of_nil]%elem_of_cons]%elem_of_cons; [left | right]; reflexivity.
    + intros [->|[]%elem_of_nil]%elem_of_cons. left. reflexivity.
  - eexists _, _. split; [apply (decreasePredecessorsInLock_eq _ _ _ _ _ _ Ho Hf Hnn) |].
    split; [simpl; apply lookup_insert_eq |].
    split; [|split; reflexivity].
    simpl. destruct (bool_decide (numPred = 0)); set_solver.
Qed.

Lemma predecessor_removal_is_in_lock_variant_witness :
  let P := DependableObject.mk 1 0 1 ∅ {[ 200 ]} NULL [] [] true true 10 NULL false in
  let S := DependableObject.mk 2 2 1 {[ 100; 150 ]} ∅ NULL [] [] true true 20 NULL true in
  let w := DependableObject.mkWorld {[ 100 := P; 200 := S ]} [] in
  exists w' o',
    DependableObject.decreasePredecessorsInLock 200 100 1 w = Some (tt, w') /\
    DependableObject.heap w' !! 200 = Some o' /\
    (100 ∉ DependableObject._predecessors o') /\
    DependableObject._predecessors o'
      = (if bool_decide (1 = 0) then ∅ else {[ 100; 150 ]} ∖ {[ 100 ]}) /\
    DependableObject.trace w'
      = [] ++ (if bool_decide (20 <> NULL) && bool_decide (10 <> NULL)
               then [DependableObject.EvPredecessorFinished 20 10] else []).
Proof.
  refine (proj2 (predecessor_removal_is_in_lock_variant 200 NULL 100 false false 1
           (DependableObject.mkWorld
              {[ 100 := DependableObject.mk 1 0 1 ∅ {[ 200 ]} NULL [] [] true true 10 NULL false;
                 200 := DependableObject.mk 2 2 1 {[ 100; 150 ]} ∅ NULL [] [] true true 20 NULL true ]}
              [])
           (DependableObject.mk 2 2 1 {[ 100; 150 ]} ∅ NULL [] [] true true 20 NULL true)
           (DependableObject.mk 1 0 1 ∅ {[ 200 ]} NULL [] [] true true 10 NULL false)
           _ _ _)); [vm_compute; reflexivity | vm_compute; reflexivity | discriminate].
Defined.

(** C4, counterexample.  The object at 200 waits for its predecessors at
    100 and 150; both objects carry work descriptors.  After
    [decreasePredecessors] with [finishedPred] = 100 the predecessor set
    still holds 100, and the trace shows the scheduler hook only: no lock
    was taken and [predecessorFinished] was not called. *)
Lemma decreasePredecessors_keeps_predecessor_set :
  let P := DependableObject.mk 1 0 1 ∅ {[ 200 ]} NULL [] [] true true 10 NULL false in
  let S := DependableObject.mk 2 2 1 {[ 100; 150 ]} ∅ NULL [] [] true true 20 NULL false in
  let w := DependableObject.mkWorld {[ 100 := P; 200 := S ]} [] in
  exists w',
    DependableObject.decreasePredecessors 200 NULL 100 false false w = Some (1, w') /\
    DependableObject.getPredecessors 200 w' = Some ({[ 100; 150 ]}, w') /\
    DependableObject.trace w' = [DependableObject.EvAtSuccessor 200 100 1 1].
Proof.
  eexists. split; [vm_compute; reflexivity |].
  split; [vm_compute; reflexivity | reflexivity].
Qed.

(** ** DependableObject: destruction *)

Section DestructorFacts.
Import DependableObject.

Lemma deleteSuccessor_eq (this depObj : Z) (w : World) (o : t) :
  heap w !! this = Some o ->
  deleteSuccessor this depObj w
  = Some (bool_decide (depObj ∈ _successors o),
      mkWorld (<[this := set_successors (_successors o ∖ {[depObj]}) o]> (heap w))
        (trace w)).
Proof.
  intros Ho. unfold deleteSuccessor.
  rewrite (bind_eq _ _ _ _ _ (load_eq _ _ _ Ho)).
  rewrite (bind_eq _ _ _ _ _ (update_eq _ _ _ _ Ho)).
  reflexivity.
Qed.

(** The loop of the destructor, over the addresses [l]: each object in [l]
    loses [this] from its successor set, the others are left alone; the
    trace grows by one call per address, in the order of [l]. *)
Lemma destructor_loop (this : Z) (l : list Z) (h : gmap Z t) (tr : list event) :
  (forall p, p ∈ l -> is_Some (h !! p)) ->
  exists h',
    for_each l (fun it =>
        emit (EvDeleteSuccessor it this) ;; deleteSuccessor it this ;; ret tt)
      (mkWorld h tr)
      = Some (tt, mkWorld h' (tr ++ map (fun p => EvDeleteSuccessor p this) l)) /\
    forall q, h' !! q
      = (fun oq => if bool_decide (q ∈ l)
                   then set_successors (_successors oq ∖ {[this]}) oq else oq)
          <$> h !! q.
Proof.
  revert h tr. induction l as [|x l IH]; intros h tr Hlive.
  - exists h. split; [simpl; rewrite app_nil_r; reflexivity |].
    intros q. destruct (h !! q); reflexivity.
  - destruct (Hlive x) as [ox Hox]; [left |].
    set (h1 := <[x := set_successors (_successors ox ∖ {[this]}) ox]> h).
    destruct (IH h1 (tr ++ [EvDeleteSuccessor x this])) as (h' & Hrun & Hh').
    { intros p Hp. subst h1. destruct (decide (x = p)) as [->|Hne].
      - rewrite lookup_insert_eq. eauto.
      - rewrite lookup_insert_ne by exact Hne. apply Hlive. right. exact Hp. }
    exists h'. split.
    + simpl.
      assert (Hox' : heap (mkWorld h (tr ++ [EvDeleteSuccessor x this])) !! x = Some ox)
        by exact Hox.
      assert (Hbody :
        (emit (EvDeleteSuccessor x this) ;; deleteSuccessor x this ;; ret tt)
          (mkWorld h tr)
        = Some (tt, mkWorld h1 (tr ++ [EvDeleteSuccessor x this]))).
      { rewrite (bind_eq _ _ _ _ _ (emit_eq _ _)). simpl.
        rewrite (bind_eq _ _ _ _ _ (deleteSuccessor_eq _ this _ _ Hox')).
        reflexivity. }
      rewrite (bind_eq _ _ _ _ _ Hbody).
      rewrite <- app_assoc in Hrun. exact Hrun.
    + intros q. rewrite Hh'. subst h1.
      destruct (decide (x = q)) as [->|Hne].
      * rewrite lookup_insert_eq, Hox. simpl.
        rewrite (bool_decide_eq_true_2 (q ∈ q :: l)) by left.
        destruct (bool_decide (q ∈ l)); [|reflexivity].
        assert (Hs : _successors ox ∖ {[this]} ∖ {[this]} = _successors ox ∖ {[this]})
          by set_solver.
        unfold set_successors at 1; simpl. rewrite Hs. reflexivity.
      * rewrite lookup_insert_ne by exact Hne.
        destruct (h !! q) as [oq|]; [simpl | reflexivity].
        destruct (decide (q ∈ l)) as [Hq|Hq].
        -- rewrite (bool_decide_eq_true_2 _ Hq).
           rewrite (bool_decide_eq_true_2 (q ∈ x :: l)) by (right; exact Hq).
           reflexivity.
        -- rewrite (bool_decide_eq_false_2 _ Hq).
           rewrite (bool_decide_eq_false_2 (q ∈ x :: l)); [reflexivity |].
           intros [?|?]%elem_of_cons; [congruence | contradiction].
Qed.

Lemma for_each_delete (l : list Z) (h : gmap Z t) (tr : list event) :
  for_each l (fun d => emit (EvDelete d)) (mkWorld h tr)
  = Some (tt, mkWorld h (tr ++ map EvDelete l)).
Proof.
  revert tr. induction l as [|d l IH]; intros tr; simpl.
  - rewrite app_nil_r. reflexivity.
  - rewrite (bind_eq _ _ _ _ _ (emit_eq _ _)). simpl.
    rewrite IH, <- app_assoc. reflexivity.
Qed.

(** The destructor of a live object whose lock is free and whose
    predecessors are live. *)
Lemma destructor_eq (this : Z) (w : World) (o : t) :
  heap w !! this = Some o -> _objectLock o = false ->
  (forall p, p ∈ _predecessors o -> is_Some (heap w !! p)) ->
  exists h',
    destructor this w
      = Some (tt, mkWorld h'
                (trace w ++ [EvAcquire this]
                         ++ map (fun p => EvDeleteSuccessor p this)
                              (elements (_predecessors o))
                         ++ [EvRelease this]
                         ++ map EvDelete (_outputObjects o ++ _readObjects o))) /\
    forall q, h' !! q
      = (fun oq => if bool_decide (q ∈ _predecessors o)
                   then set_successors (_successors oq ∖ {[this]}) oq else oq)
          <$> heap w !! q.
Proof.
  intros Ho Hfree Hlive.
  set (o1 := set_objectLock true o).
  set (h1 := <[this := o1]> (heap w)).
  set (tr1 := trace w ++ [EvAcquire this]).
  assert (Hacq : lock_acquire this w = Some (tt, mkWorld h1 tr1)).
  { unfold lock_acquire. rewrite (bind_eq _ _ _ _ _ (load_eq _ _ _ Ho)).
    rewrite Hfree. simpl.
    rewrite (bind_eq _ _ _ _ _ (update_eq _ _ _ _ Ho)). reflexivity. }
  destruct (destructor_loop this (elements (_predecessors o)) h1 tr1)
    as (h2 & Hloop & Hh2).
  { intros p Hp%elem_of_elements. subst h1.
    destruct (decide (this = p)) as [->|Hne].
    - rewrite lookup_insert_eq. eauto.
    - rewrite lookup_insert_ne by exact Hne. apply Hlive, Hp. }
  assert (Hthis2 : h2 !! this
            = Some (if bool_decide (this ∈ _predecessors o)
                    then set_successors (_successors o ∖ {[this]}) o1 else o1)).
  { rewrite Hh2. subst h1. rewrite lookup_insert_eq. simpl.
    destruct (decide (this ∈ _predecessors o)) as [Hin|Hin].
    - rewrite !(bool_decide_eq_true_2 _ Hin).
      rewrite bool_decide_eq_true_2 by (apply elem_of_elements, Hin). reflexivity.
    - rewrite !(bool_decide_eq_false_2 _ Hin).
      rewrite bool_decide_eq_false_2; [reflexivity |].
      intros Hel%elem_of_elements. contradiction. }
  set (o2 := if bool_decide (this ∈ _predecessors o)
             then set_successors (_successors o ∖ {[this]}) o1 else o1) in Hthis2.
  set (o3 := set_objectLock (Lock.release (_objectLock o2)) o2).
  set (h3 := <[this := o3]> h2).
  set (tr2 := tr1 ++ map (fun p => EvDeleteSuccessor p this) (elements (_predecessors o)))
    in Hloop.
  exists h3. split.
  - unfold destructor, SyncLockBlock.
    assert (Hblock :
      (lock_acquire this ;;
       let* r := (let* o0 := load this in
                  for_each (elements (_predecessors o0))
                    (fun it => emit (EvDeleteSuccessor it this) ;;
                               deleteSuccessor it this ;; ret tt)) in
       lock_release this ;; ret r) w
      = Some (tt, mkWorld h3 (tr2 ++ [EvRelease this]))).
    { rewrite (bind_eq _ _ _ _ _ Hacq).
      assert (Ho1 : heap (mkWorld h1 tr1) !! this = Some o1)
        by (subst h1; simpl; apply lookup_insert_eq).
      erewrite bind_eq;
        [| rewrite (bind_eq _ _ _ _ _ (load_eq _ _ _ Ho1)); exact Hloop].
      unfold lock_release.
      assert (Ho2 : heap (mkWorld h2 tr2) !! this = Some o2) by exact Hthis2.
      rewrite (bind_eq _ _ _ _ _ (bind_eq _ _ _ _ _ (update_eq _ _ _ _ Ho2))).
      reflexivity. }
    rewrite (bind_eq _ _ _ _ _ Hblock).
    assert (Ho3 : heap (mkWorld h3 (tr2 ++ [EvRelease this])) !! this = Some o3)
      by (subst h3; simpl; apply lookup_insert_eq).
    rewrite (bind_eq _ _ _ _ _ (load_eq _ _ _ Ho3)).
    rewrite (bind_eq _ _ _ _ _ (for_each_delete _ _ _)).
    rewrite for_each_delete.
    assert (Hout : _outputObjects o3 = _outputObjects o)
      by (subst o3 o2 o1; destruct (bool_decide _); reflexivity).
    assert (Hread : _readObjects o3 = _readObjects o)
      by (subst o3 o2 o1; destruct (bool_decide _); reflexivity).
    rewrite Hout, Hread. subst tr2 tr1.
    rewrite map_app, <- !app_assoc. reflexivity.
  - intros q. subst h3. destruct (decide (this = q)) as [<-|Hne].
    + rewrite lookup_insert_eq, Ho. simpl. f_equal.
      subst o3 o2 o1. destruct o; simpl in *; subst.
      destruct (bool_decide _); reflexivity.
    + rewrite lookup_insert_ne by exact Hne. rewrite Hh2. subst h1.
      rewrite lookup_insert_ne by exact Hne.
      destruct (heap w !! q) as [oq|]; [simpl | reflexivity].
      destruct (decide (q ∈ _predecessors o)) as [Hin|Hin].
      * rewrite (bool_decide_eq_true_2 _ Hin).
        rewrite bool_decide_eq_true_2 by (apply elem_of_elements, Hin). reflexivity.
      * rewrite (bool_decide_eq_false_2 _ Hin).
        rewrite bool_decide_eq_false_2; [reflexivity |].
        intros Hel%elem_of_elements. contradiction.
Qed.

End DestructorFacts.




(** ** DependableObject: the [_submitted] flag *)

Section SubmittedFacts.
Import DependableObject.

Variable Q : Z -> Prop.








End SubmittedFacts.


Section SubmittedCalls.
Import DependableObject.



End SubmittedCalls.

Section FlagWriters.
Import DependableObject.

Lemma submitted_eq (this : Z) (w : World) (o : t) :
  heap w !! this = Some o ->
  submitted this w
  = Some (tt, mkWorld (<[this := set_needsSubmission true (set_submitted true o)]> (heap w))
                (trace w ++ [EvMemoryFence])).
Proof.
  intros Ho. unfold submitted, enableSubmission.
  rewrite (bind_eq _ _ _ _ _ (update_eq _ _ _ _ Ho)).
  erewrite bind_eq; [| apply update_eq; simpl; apply lookup_insert_eq].
  rewrite emit_eq. simpl. rewrite insert_insert_eq. reflexivity.
Qed.

Lemma disableSubmission_eq (this : Z) (w : World) (o : t) :
  heap w !! this = Some o ->
  disableSubmission this w
  = Some (tt, mkWorld (<[this := set_submitted false (set_needsSubmission false o)]> (heap w))
                (trace w ++ [EvMemoryFence])).
Proof.
  intros Ho. unfold disableSubmission.
  rewrite (bind_eq _ _ _ _ _ (update_eq _ _ _ _ Ho)).
  erewrite bind_eq; [| apply update_eq; simpl; apply lookup_insert_eq].
  rewrite emit_eq. simpl. rewrite insert_insert_eq. reflexivity.
Qed.

Lemma assign_eq (this depObj : Z) (w : World) (o d : t) :
  heap w !! this = Some o -> heap w !! depObj = Some d -> this <> depObj ->
  assign this depObj w
  = Some (this,
      mkWorld
        (<[this := mk (_id d) (_numPredecessors d) (_references d) (_predecessors d)
                      (_successors d) (_domain d) (_outputObjects d) (_readObjects o)
                      (_submitted d) (_needsSubmission d) (_wd d)
                      (_schedulerData o) (_objectLock o)]> (heap w))
        (trace w)).
Proof.
  intros Ho Hd Hne. unfold assign.
  rewrite (bool_decide_eq_false_2 _ Hne).
  rewrite (bind_eq _ _ _ _ _ (load_eq _ _ _ Hd)).
  rewrite (bind_eq _ _ _ _ _ (update_eq _ _ _ _ Ho)).
  repeat (erewrite bind_eq; [| apply update_eq; simpl; apply lookup_insert_eq];
          simpl; rewrite insert_insert_eq).
  reflexivity.
Qed.

(** A call that writes through [this] returns only if an object lives
    there. *)
Lemma update_returns (p : Z) (f : t -> t) (w : World) (r : unit * World) :
  update p f w = Some r -> is_Some (heap w !! p).
Proof. unfold update. destruct (heap w !! p); [eauto | discriminate]. Qed.

Lemma load_returns (p : Z) (w : World) (r : t * World) :
  load p w = Some r -> is_Some (heap w !! p).
Proof. unfold load. destruct (heap w !! p); [eauto | discriminate]. Qed.

End FlagWriters.




(** ** Hoare rules of the monad *)

Lemma hoare_ret {S A : Type} (P : S -> Prop) (a : A) :
  hoare P (ret a) (fun _ s => P s).
Proof. intros s a' s' HP [= _ <-]. exact HP. Qed.

Lemma hoare_diverge {S A : Type} (P : S -> Prop) (R : A -> S -> Prop) :
  hoare P diverge R.
Proof. intros s a s' _ [=]. Qed.

Lemma hoare_bind {S A B : Type} (P : S -> Prop) (Q : A -> S -> Prop)
    (R : B -> S -> Prop) (m : M S A) (k : A -> M S B) :
  hoare P m Q -> (forall a, hoare (Q a) (k a) R) -> hoare P (bind m k) R.
Proof.
  intros Hm Hk s b s' HP (a & s1 & H1 & H2)%bind_Some.
  exact (Hk a s1 b s' (Hm s a s1 HP H1) H2).
Qed.

Lemma total_ret {S A : Type} (P : S -> Prop) (a : A) :
  total P (ret a) (fun _ s => P s).
Proof. intros s HP. exists a, s. split; [reflexivity | exact HP]. Qed.

Lemma total_bind {S A B : Type} (P : S -> Prop) (Q : A -> S -> Prop)
    (R : B -> S -> Prop) (m : M S A) (k : A -> M S B) :
  total P m Q -> (forall a, total (Q a) (k a) R) -> total P (bind m k) R.
Proof.
  intros Hm Hk s HP.
  destruct (Hm s HP) as (a & s1 & H1 & HQ).
  destruct (Hk a s1 HQ) as (b & s2 & H2 & HR).
  exists b, s2. split; [|exact HR].
  rewrite (bind_eq _ _ _ _ _ H1). exact H2.
Qed.

(** ** Task-graph dump: connecting nodes *)

Section ConnectFacts.
Import TgDump.

Lemma Edge_eq_refl (e : Edge) : Edge_eq e e = true.
Proof.
  unfold Edge_eq. rewrite !bool_decide_eq_true_2 by reflexivity. reflexivity.
Qed.

Lemma Edge_eq_true (a b : Edge) : Edge_eq a b = true -> a = b.
Proof.
  unfold Edge_eq. intros H.
  repeat (apply andb_prop in H as [H ?]).
  repeat match goal with
         | X : bool_decide _ = true |- _ => apply bool_decide_eq_true_1 in X
         end.
  destruct a, b; simpl in *; congruence.
Qed.

Lemma tg_update_eq (p : Z) (f : Node -> Node) (w : World) (n : Node) :
  nodes w !! p = Some n ->
  update p f w = Some (tt, mkWorld (<[p := f n]> (nodes w)) (used_edge_types w)).
Proof. unfold update. intros ->. reflexivity. Qed.

Lemma tg_load_eq (p : Z) (w : World) (n : Node) :
  nodes w !! p = Some n -> load p w = Some (n, w).
Proof. unfold load. intros ->. reflexivity. Qed.

End ConnectFacts.

Section EdgeInvariant.
Import TgDump.

Variables (source : Z) (new_edge : Edge).

(** The source node is live and has the edge among its exits. *)
Let has_edge (w : World) : Prop :=
  exists n, nodes w !! source = Some n /\ new_edge ∈ _exit_edges n.

Lemma has_edge_load (p : Z) : hoare has_edge (load p) (fun _ => has_edge).
Proof.
  intros w n w' HP. unfold load. destruct (nodes w !! p); [|discriminate].
  intros [= _ <-]. exact HP.
Qed.

Lemma has_edge_update (p : Z) (f : Node -> Node) :
  (forall n, _exit_edges (f n) = _exit_edges n) ->
  hoare has_edge (update p f) (fun _ => has_edge).
Proof.
  intros Hf w a w' (n & Hn & Hin). unfold update.
  destruct (nodes w !! p) as [np|] eqn:Hp; [|discriminate].
  intros [= _ <-]. unfold has_edge. simpl.
  destruct (decide (p = source)) as [->|Hne].
  - exists (f np). rewrite lookup_insert_eq. split; [reflexivity |].
    rewrite Hf. congruence.
  - exists n. rewrite lookup_insert_ne by exact Hne. split; assumption.
Qed.

Lemma has_edge_mark_used (i : nat) : hoare has_edge (mark_used i) (fun _ => has_edge).
Proof. intros w a w' HP [= _ <-]. exact HP. Qed.

Lemma has_edge_push :
  hoare (fun _ => True)
    (update source (fun n => set_exit_edges (_exit_edges n ++ [new_edge]) n))
    (fun _ => has_edge).
Proof.
  intros w a w' _. unfold update.
  destruct (nodes w !! source) as [n|]; [|discriminate].
  intros [= _ <-]. eexists. simpl. rewrite lookup_insert_eq.
  split; [reflexivity |]. simpl. apply elem_of_app. right. left.
Qed.

Lemma has_edge_release :
  hoare has_edge (exit_lock_release source)
    (fun _ w' => exists n, nodes w' !! source = Some n /\ _exit_lock n = false
                           /\ new_edge ∈ _exit_edges n).
Proof.
  intros w a w' (n & Hn & Hin). unfold exit_lock_release.
  rewrite (tg_update_eq _ _ _ _ Hn). intros [= _ <-].
  eexists. simpl. rewrite lookup_insert_eq. split; [reflexivity |].
  split; [reflexivity | exact Hin].
Qed.

End EdgeInvariant.

Section ConnectNodes.
Import TgDump.

Variables (source target : Z) (kind : EdgeKind) (data_start data_end : Z)
  (dep_type : DependencyType).

Let new_edge : Edge := mkEdge kind dep_type source target (data_start, data_end).

Let has_edge (w : World) : Prop :=
  exists n, nodes w !! source = Some n /\ new_edge ∈ _exit_edges n.

(** Whenever [connect_nodes] returns, the source node holds the edge and
    its exit lock is free again. *)
Lemma connect_nodes_post :
  hoare (fun _ => True)
    (connect_nodes source target kind data_start data_end dep_type)
    (fun _ w' => exists n, nodes w' !! source = Some n /\ _exit_lock n = false
                           /\ new_edge ∈ _exit_edges n).
Proof.
  unfold connect_nodes. fold new_edge.
  eapply hoare_bind with (Q := fun _ _ => True); [intros ? ? ? _ _; exact I |].
  intros _.
  eapply hoare_bind with
    (Q := fun c w => exists n, nodes w !! source = Some n /\
                     c = filter (fun e => get_target e = target) (_exit_edges n)).
  { intros w c w' _. unfold get_connections.
    intros (n & w1 & Hload & [= <- <-])%bind_Some.
    exists n. split; [|reflexivity].
    unfold load in Hload.
    destruct (nodes w !! source) as [n0|] eqn:E; [|discriminate].
    injection Hload as -> <-. exact E. }
  intros c. destruct (existsb _ c) eqn:Hdup.
  - (* the edge is there already *)
    intros w a w' (n & Hn & ->) Hrel.
    apply (has_edge_release source new_edge w a w'); [|exact Hrel].
    exists n. split; [exact Hn |].
    apply existsb_exists in Hdup as (e & He & Heq).
    apply Edge_eq_true in Heq. subst e.
    apply list_elem_of_In, list_elem_of_filter in He as [_ He]. exact He.
  - (* the edge is new *)
    eapply hoare_bind with (Q := fun _ => has_edge).
    { intros w a w' _. apply (has_edge_push source new_edge). exact I. }
    intros _.
    repeat first
      [ apply has_edge_release
      | apply has_edge_mark_used
      | apply has_edge_load
      | apply hoare_ret
      | apply hoare_diverge
      | apply has_edge_update; intros ?; reflexivity
      | eapply hoare_bind with (Q := fun _ => has_edge); [|intros ?]
      | match goal with
        | |- hoare _ (entry_lock_acquire _) _ => unfold entry_lock_acquire
        | |- hoare _ (entry_lock_release _) _ => unfold entry_lock_release
        | |- hoare _ (is_critical _) _ => unfold is_critical
        | |- hoare _ (if ?b then _ else _) _ => destruct b
        | |- hoare _ (match ?x with _ => _ end) _ => destruct x
        end ].
Qed.

(** With the edge among the exits of the source, whose exit lock is free,
    [connect_nodes] returns and changes nothing. *)
Lemma connect_nodes_duplicate (w : World) (n : Node) :
  nodes w !! source = Some n -> _exit_lock n = false ->
  new_edge ∈ _exit_edges n ->
  connect_nodes source target kind data_start data_end dep_type w = Some (tt, w).
Proof.
  intros Hn Hfree Hin. unfold connect_nodes. fold new_edge.
  set (w1 := mkWorld (<[source := set_exit_lock true n]> (nodes w)) (used_edge_types w)).
  assert (Hacq : exit_lock_acquire source w = Some (tt, w1)).
  { unfold exit_lock_acquire. rewrite (bind_eq _ _ _ _ _ (tg_load_eq _ _ _ Hn)).
    rewrite Hfree. simpl. apply (tg_update_eq _ _ _ _ Hn). }
  assert (Hn1 : nodes w1 !! source = Some (set_exit_lock true n))
    by (subst w1; simpl; apply lookup_insert_eq).
  rewrite (bind_eq _ _ _ _ _ Hacq).
  assert (Hconn : get_connections source target w1
            = Some (filter (fun e => get_target e = target) (_exit_edges n), w1)).
  { unfold get_connections. rewrite (bind_eq _ _ _ _ _ (tg_load_eq _ _ _ Hn1)).
    reflexivity. }
  rewrite (bind_eq _ _ _ _ _ Hconn).
  assert (Hdup : existsb (fun it => Edge_eq it new_edge)
                   (filter (fun e => get_target e = target) (_exit_edges n)) = true).
  { apply existsb_exists. exists new_edge. split; [|apply Edge_eq_refl].
    apply list_elem_of_In, list_elem_of_filter. split; [reflexivity | exact Hin]. }
  rewrite Hdup. unfold exit_lock_release.
  rewrite (tg_update_eq _ _ _ _ Hn1). subst w1. simpl.
  rewrite insert_insert_eq.
  assert (Heta : set_exit_lock (Lock.release true) (set_exit_lock true n) = n)
    by (destruct n; simpl in *; subst; reflexivity).
  rewrite Heta, (insert_id _ _ _ Hn). destruct w; reflexivity.
Qed.

(** Both nodes are live; with [free], the entry lock of the target is
    free as well. *)
Let live (free : bool) (w : World) : Prop :=
  is_Some (nodes w !! source) /\
  exists m, nodes w !! target = Some m /\ (free = true -> _entry_lock m = false).

Lemma live_load (free : bool) (p : Z) :
  p = source \/ p = target -> total (live free) (load p) (fun _ => live free).
Proof.
  intros Hp w Hw. pose proof Hw as ([n Hn] & m & Hm & _).
  assert (Hlive : is_Some (nodes w !! p)) by (destruct Hp as [->| ->]; eauto).
  destruct Hlive as [x Hx]. exists x, w. split; [apply tg_load_eq, Hx | exact Hw].
Qed.

Lemma live_update (free : bool) (p : Z) (f : Node -> Node) :
  p = source \/ p = target ->
  (free = true -> forall n, _entry_lock (f n) = _entry_lock n) ->
  total (live free) (update p f) (fun _ => live free).
Proof.
  intros Hp Hf w ([n Hn] & m & Hm & Hfree).
  assert (Hlive : is_Some (nodes w !! p)) by (destruct Hp as [->| ->]; eauto).
  destruct Hlive as [x Hx]. eexists tt, _. split; [apply tg_update_eq, Hx |].
  unfold live. simpl. split.
  - destruct (decide (p = source)) as [->|Hne].
    + rewrite lookup_insert_eq. eauto.
    + rewrite lookup_insert_ne by exact Hne. eauto.
  - destruct (decide (p = target)) as [->|Hne].
    + rewrite lookup_insert_eq. eexists. split; [reflexivity |].
      intros Ht. rewrite (Hf Ht). replace x with m by congruence.
      apply Hfree, Ht.
    + rewrite lookup_insert_ne by exact Hne. eauto.
Qed.

Lemma live_mark_used (free : bool) (i : nat) :
  total (live free) (mark_used i) (fun _ => live free).
Proof. intros w Hw. eexists tt, _. split; [reflexivity | exact Hw]. Qed.

Lemma live_entry_lock_acquire :
  total (live true) (entry_lock_acquire target) (fun _ => live false).
Proof.
  intros w ([n Hn] & m & Hm & Hfree). unfold entry_lock_acquire.
  rewrite (bind_eq _ _ _ _ _ (tg_load_eq _ _ _ Hm)), (Hfree eq_refl). simpl.
  apply (live_update false target); [right; reflexivity | discriminate |].
  split; [eauto |]. exists m. split; [exact Hm | discriminate].
Qed.

(** [connect_nodes] returns when both nodes are live, the exit lock of the
    source and the entry lock of the target being free. *)
Lemma connect_nodes_returns (w : World) (n m : Node) :
  nodes w !! source = Some n -> nodes w !! target = Some m ->
  _exit_lock n = false -> _entry_lock m = false ->
  exists w1,
    connect_nodes source target kind data_start data_end dep_type w = Some (tt, w1).
Proof.
  intros Hn Hm Hx He.
  assert (Hrun : total (live true)
            (let* c := get_connections source target in
             if existsb (fun it => Edge_eq it new_edge) c then
               exit_lock_release source
             else
               update source (fun n => set_exit_edges (_exit_edges n ++ [new_edge]) n) ;;
               entry_lock_acquire target ;;
               update target (fun n => set_entry_edges (_entry_edges n ++ [new_edge]) n) ;;
               entry_lock_release target ;;
               match kind with
               | Nesting => mark_used 3
               | Synchronization => mark_used 0
               | Dependency =>
                   match dep_type with
                   | True_ => mark_used 0
                   | Anti => mark_used 1
                   | Output => mark_used 2
                   | _ => ret tt
                   end
               end ;;
               let* sc := is_critical source in
               let* tc := (if sc then is_critical target else ret false) in
               (if sc && tc then mark_used 4 else ret tt) ;;
               exit_lock_release source)
            (fun _ _ => True)).
  { eapply total_bind with (Q := fun _ => live true).
    { unfold get_connections.
      eapply total_bind with (Q := fun _ => live true);
        [apply live_load; left; reflexivity | intros ?; apply total_ret]. }
    intros c. destruct (existsb _ c).
    - intros w0 Hw0.
      destruct (live_update true source
                  (fun n => set_exit_lock (Lock.release (_exit_lock n)) n)
                  (or_introl eq_refl) (fun _ _ => eq_refl) w0 Hw0)
        as (a & w1 & Hr & _).
      exists a, w1. split; [exact Hr | exact I].
    - eapply total_bind with (Q := fun _ => live true);
        [apply live_update; [left; reflexivity | intros _ ?; reflexivity] |].
      intros _.
      eapply total_bind with (Q := fun _ => live false);
        [apply live_entry_lock_acquire |].
      intros _.
      repeat (eapply total_bind with (Q := fun _ => live false); [|intros ?]);
      repeat first
        [ apply total_ret
        | apply live_mark_used
        | apply live_load; (left + right); reflexivity
        | apply live_update; [(left + right); reflexivity | discriminate]
        | eapply total_bind with (Q := fun _ => live false); [|intros ?]
        | match goal with
          | |- total _ (entry_lock_release _) _ => unfold entry_lock_release
          | |- total _ (is_critical _) _ => unfold is_critical
          | |- total _ (exit_lock_release _) (fun _ _ => True) =>
              intros w0 Hw0;
              destruct (live_update false source
                          (fun n => set_exit_lock (Lock.release (_exit_lock n)) n)
                          (or_introl eq_refl) ltac:(discriminate) w0 Hw0)
                as (? & ? & ? & _);
              eexists _, _; split; [eassumption | exact I]
          | |- total _ (if ?b then _ else _) _ => destruct b
          | |- total _ (match ?x with _ => _ end) _ => destruct x
          end ]. }
  unfold connect_nodes. fold new_edge.
  set (w0 := mkWorld (<[source := set_exit_lock true n]> (nodes w)) (used_edge_types w)).
  assert (Hacq : exit_lock_acquire source w = Some (tt, w0)).
  { unfold exit_lock_acquire. rewrite (bind_eq _ _ _ _ _ (tg_load_eq _ _ _ Hn)).
    rewrite Hx. simpl. apply (tg_update_eq _ _ _ _ Hn). }
  rewrite (bind_eq _ _ _ _ _ Hacq).
  destruct (Hrun w0) as ([] & w1 & Hw1 & _); [|exists w1; exact Hw1].
  subst w0. unfold live. simpl. split.
  - rewrite lookup_insert_eq. eauto.
  - destruct (decide (source = target)) as [Heq|Hne].
    + rewrite Heq, lookup_insert_eq. eexists. split; [reflexivity |].
      intros _. simpl. rewrite Heq in Hn. congruence.
    + rewrite lookup_insert_ne by exact Hne. exists m. split; [exact Hm | intros _; exact He].
Qed.

(** Connecting twice is connecting once. *)
Lemma connect_nodes_twice (w w1 : World) :
  connect_nodes source target kind data_start data_end dep_type w = Some (tt, w1) ->
  connect_nodes source target kind data_start data_end dep_type w1 = Some (tt, w1).
Proof.
  intros Hrun.
  destruct (connect_nodes_post w tt w1 I Hrun) as (n & Hn & Hfree & Hin).
  exact (connect_nodes_duplicate w1 n Hn Hfree Hin).
Qed.

End ConnectNodes.

(** ** Edge insertion twice *)

Section AddSuccessorTwice.
Import DependableObject.

Lemma set_successors_twice (X Y : gset Z) (o : t) :
  set_successors X (set_successors Y o) = set_successors X o.
Proof. reflexivity. Qed.

(** The second [addSuccessor] of the same target returns false and leaves
    every object as the first one left it; the scheduler hook is called
    again. *)
Lemma addSuccessor_twice (this depObj : Z) (w : World) (o : t) :
  heap w !! this = Some o ->
  exists inserted w1 w2 o1,
    addSuccessor this depObj w = Some (inserted, w1) /\
    addSuccessor this depObj w1 = Some (false, w2) /\
    heap w1 !! this = Some o1 /\
    _successors o1 = _successors o ∪ {[depObj]} /\
    heap w2 = heap w1 /\
    trace w2 = trace w1 ++ [EvAtSuccessor depObj this 0 0].
Proof.
  intros Ho.
  set (o1 := set_successors (_successors o ∪ {[depObj]}) o).
  set (w1 := mkWorld (<[this := o1]> (heap w)) (trace w ++ [EvAtSuccessor depObj this 0 0])).
  assert (Ho1 : heap w1 !! this = Some o1) by (subst w1; simpl; apply lookup_insert_eq).
  eexists _, w1, _, o1.
  split; [exact (addSuccessor_eq this depObj w o Ho) |].
  split; [|split; [exact Ho1 | split; [reflexivity |]]].
  - rewrite (addSuccessor_eq this depObj w1 o1 Ho1).
    rewrite (bool_decide_eq_true_2 (depObj ∈ _successors o1))
      by (subst o1; simpl; set_solver).
    reflexivity.
  - simpl. split; [|reflexivity].
    rewrite insert_insert_eq. subst o1. rewrite set_successors_twice. simpl.
    assert (Hs : _successors o ∪ {[depObj]} ∪ {[depObj]} = _successors o ∪ {[depObj]})
      by set_solver.
    rewrite Hs. reflexivity.
Qed.

End AddSuccessorTwice.

(** C5.  Adding the same successor to a live object a second time returns
    false and leaves every object, hence every successor set, as the first
    addition left it (the advisory scheduler hook is called once more).
    Connecting two nodes of the task-graph dump returns when both are live
    and the two locks it takes are free; and once it has returned,
    connecting them again with an edge equal in kind, dependency type, end
    points and data range returns without any change to the nodes or to
    [used_edge_types]. *)
Theorem edge_insertion_is_idempotent :
  (forall (this depObj : Z) (w : DependableObject.World) (o : DependableObject.t),
     DependableObject.heap w !! this = Some o ->
     exists inserted w1 w2 o1,
       DependableObject.addSuccessor this depObj w = Some (inserted, w1) /\
       DependableObject.addSuccessor this depObj w1 = Some (false, w2) /\
       DependableObject.heap w1 !! this = Some o1 /\
       DependableObject._successors o1 = DependableObject._successors o ∪ {[depObj]} /\
       DependableObject.heap w2 = DependableObject.heap w1) /\
  (forall (source target : Z) (kind : TgDump.EdgeKind) (data_start data_end : Z)
          (dep_type : TgDump.DependencyType) (w : TgDump.World) (n m : TgDump.Node),
     TgDump.nodes w !! source = Some n -> TgDump.nodes w !! target = Some m ->
     TgDump._exit_lock n = false -> TgDump._entry_lock m = false ->
     exists w1,
       TgDump.connect_nodes source target kind data_start data_end dep_type w
         = Some (tt, w1)) /\
  (forall (source target : Z) (kind : TgDump.EdgeKind) (data_start data_end : Z)
          (dep_type : TgDump.DependencyType) (w w1 : TgDump.World),
     TgDump.connect_nodes source target kind data_start data_end dep_type w
       = Some (tt, w1) ->
     TgDump.connect_nodes source target kind data_start data_end dep_type w1
       = Some (tt, w1)).
Proof.
  split.
  - intros this depObj w o Ho.
    destruct (addSuccessor_twice this depObj w o Ho)
      as (inserted & w1 & w2 & o1 & H1 & H2 & H3 & H4 & H5 & _).
    exists inserted, w1, w2, o1. repeat split; assumption.
  - split.
    + intros source target kind data_start data_end dep_type w n m.
      apply connect_nodes_returns.
    + intros source target kind data_start data_end dep_type w w1.
      apply connect_nodes_twice.
Qed.

Lemma edge_insertion_is_idempotent_witness :
  let A := TgDump.mkNode 1 7 TgDump.TaskNode [] [] false false false true in
  let B := TgDump.mkNode 2 7 TgDump.TaskNode [] [] false false false true in
  let e := TgDump.mkEdge TgDump.Dependency TgDump.Anti 100 200 (4096, 4159) in
  let w := TgDump.mkWorld {[ 100 := A; 200 := B ]} [0; 0; 0; 0; 0] in
  let w1 := TgDump.mkWorld
              {[ 100 := TgDump.set_exit_edges [e] A;
                 200 := TgDump.set_entry_edges [e] B ]} [0; 1; 0; 0; 1] in
  (exists inserted u1 u2 o1,
     DependableObject.addSuccessor 100 200
       (DependableObject.mkWorld
          {[ 100 := DependableObject.mk 1 0 1 ∅ ∅ NULL [] [] true true 10 NULL false ]} [])
       = Some (inserted, u1) /\
     DependableObject.addSuccessor 100 200 u1 = Some (false, u2) /\
     DependableObject.heap u1 !! 100 = Some o1 /\
     DependableObject._successors o1 = ∅ ∪ {[ 200 ]} /\
     DependableObject.heap u2 = DependableObject.heap u1) /\
  TgDump.connect_nodes 100 200 TgDump.Dependency 4096 4159 TgDump.Anti w1 = Some (tt, w1).
Proof.
  intros A B e w w1. split.
  - refine (proj1 edge_insertion_is_idempotent 100 200 _
              (DependableObject.mk 1 0 1 ∅ ∅ NULL [] [] true true 10 NULL false) _).
    vm_compute. reflexivity.
  - refine (proj2 (proj2 edge_insertion_is_idempotent) 100 200 TgDump.Dependency
              4096 4159 TgDump.Anti w w1 _).
    vm_compute. reflexivity.
Defined.

(** * Further properties of the code *)

(** ** RequestQueue: draining and the lock *)

Section RequestQueueMore.
Import RequestQueue.

Lemma repeatM_tryFetch (q : list Z) :
  repeatM (length q) tryFetch (mk q false) = Some (map Return q, mk [] false).
Proof.
  induction q as [|x q IH]; [reflexivity |].
  cbn [length repeatM map].
  rewrite (bind_eq _ _ _ _ _ (tryFetch_front x q)).
  rewrite (bind_eq _ _ _ _ _ IH). reflexivity.
Qed.

End RequestQueueMore.

(** X1.  Elements appended by [add] to a fresh queue come out of as many
    [tryFetch] calls in the order of their insertion, none lost and none
    twice, and the queue is then as fresh. *)
Theorem RequestQueue_drains_in_order (elems : list Z) :
  (for_each elems RequestQueue.add ;;
   repeatM (length elems) RequestQueue.tryFetch) RequestQueue.RequestQueue
  = Some (map Return elems, RequestQueue.RequestQueue).
Proof.
  unfold RequestQueue.RequestQueue.
  rewrite (bind_eq _ _ _ _ _ (add_all_unlocked elems [])). simpl.
  apply repeatM_tryFetch.
Qed.

(** X2.  Whenever [add], [fetch] or [tryFetch] returns, the lock is in the
    state in which the call found it; [add] and [fetch] return only when
    they found it free, and [fetch] returns with the queue untouched. *)
Theorem RequestQueue_calls_balance_the_lock (s s' : RequestQueue.t) :
  (forall elem, RequestQueue.add elem s = Some (tt, s') ->
     RequestQueue._lock s = false /\ RequestQueue._lock s' = false /\
     RequestQueue._queue s' = RequestQueue._queue s ++ [elem]) /\
  (forall r, RequestQueue.fetch s = Some (r, s') ->
     RequestQueue._lock s = false /\ s' = s) /\
  (forall r, RequestQueue.tryFetch s = Some (r, s') ->
     RequestQueue._lock s' = RequestQueue._lock s).
Proof.
  destruct s as [q [|]]; (split; [|split]).
  - intros elem. rewrite add_locked. discriminate.
  - intros r. discriminate.
  - intros r. rewrite tryFetch_locked. intros [= _ <-]. reflexivity.
  - intros elem. rewrite add_unlocked. intros [= <-]. repeat split.
  - intros r. rewrite fetch_unlocked. intros [= _ <-]. split; reflexivity.
  - intros r. destruct q as [|x q];
      [rewrite tryFetch_empty | rewrite tryFetch_front]; intros [= _ <-]; reflexivity.
Qed.

Lemma RequestQueue_calls_balance_the_lock_witness :
  RequestQueue._lock (RequestQueue.mk [7] false) = false /\
  RequestQueue._lock (RequestQueue.mk [7; 8] false) = false /\
  RequestQueue._queue (RequestQueue.mk [7; 8] false)
    = RequestQueue._queue (RequestQueue.mk [7] false) ++ [8].
Proof.
  apply (proj1 (RequestQueue_calls_balance_the_lock
                  (RequestQueue.mk [7] false) (RequestQueue.mk [7; 8] false)) 8).
  reflexivity.
Defined.

(** ** RequestMap: what [add] and [fetch] do to the map *)

Section RequestMapMore.
Import RequestMap.

Lemma add_returns_unlocked (end_first key : N) (elem : Z) (w : world) (r : unit * world) :
  add end_first key elem w = Some r -> _lock (obj w) = false.
Proof.
  unfold add, bind, lock_acquire. destruct (_lock (obj w)); [discriminate | reflexivity].
Qed.

Lemma world_eta (w : world) :
  _lock (obj w) = false -> w = mkWorld (mk (_map (obj w)) false) (cerr w).
Proof. destruct w as [[m l] out]. simpl. intros ->. reflexivity. Qed.

Lemma fetch_unfold (end_first : N) (end_second : Z) (key : N)
    (m : gmap N Z) (out : list string) :
  fetch end_first end_second key (mkWorld (mk m false) out) =
  Some (FlowsOffEnd,
    mkWorld (mk m false)
      (if negb (bool_decide (lower_bound m key = None))
          || bool_decide (key < first end_first (lower_bound m key))%N
       then out ++ ["Error, key not found."%string] else out)).
Proof.
  unfold fetch, bind, lock_acquire, lock_release, print, modify, get, put, ret; simpl.
  destruct (negb _ || _); reflexivity.
Qed.

End RequestMapMore.

(** X3.  [add] never removes or overwrites a binding of the map, and never
    touches a key other than the one it is given; the lock is free again
    when it returns.  This holds whatever the read at [end()] yields. *)
Theorem RequestMap_add_keeps_bindings
    (end_first key : N) (elem : Z) (w w' : RequestMap.world) :
  RequestMap.add end_first key elem w = Some (tt, w') ->
  (forall k v, RequestMap._map (RequestMap.obj w) !! k = Some v ->
     RequestMap._map (RequestMap.obj w') !! k = Some v) /\
  (forall k, k <> key ->
     RequestMap._map (RequestMap.obj w') !! k = RequestMap._map (RequestMap.obj w) !! k) /\
  RequestMap._lock (RequestMap.obj w') = false.
Proof.
  intros Hadd. pose proof (add_returns_unlocked _ _ _ _ _ Hadd) as Hfree.
  rewrite (world_eta w Hfree), add_unfold in Hadd. injection Hadd as <-.
  destruct (negb _ || _); simpl; [|repeat split; auto].
  unfold RequestMap.insert_hint.
  destruct (RequestMap._map (RequestMap.obj w) !! key) as [old|] eqn:Hkey;
    [repeat split; auto |].
  split; [|split; [|reflexivity]].
  - intros k v Hk. destruct (decide (key = k)) as [->|Hne]; [congruence |].
    rewrite lookup_insert_ne by exact Hne. exact Hk.
  - intros k Hne. apply lookup_insert_ne. congruence.
Qed.

Lemma RequestMap_add_keeps_bindings_witness :
  let w := RequestMap.mkWorld (RequestMap.mk {[ 9%N := 11 ]} false) [] in
  let w' := RequestMap.mkWorld (RequestMap.mk {[ 5%N := 22; 9%N := 11 ]} false) [] in
  (forall k v, RequestMap._map (RequestMap.obj w) !! k = Some v ->
     RequestMap._map (RequestMap.obj w') !! k = Some v) /\
  (forall k, k <> 5%N ->
     RequestMap._map (RequestMap.obj w') !! k = RequestMap._map (RequestMap.obj w) !! k) /\
  RequestMap._lock (RequestMap.obj w') = false.
Proof.
  intros w w'. refine (RequestMap_add_keeps_bindings 0 5 22 w w' _).
  vm_compute. reflexivity.
Defined.

(** X4.  Insert and look up: when the key is absent and the map holds some
    key that is not smaller, [add] inserts the pair and writes nothing to
    [std::cerr]; the key then maps to the element.  (When every key of the
    map is smaller, the code reads [end()] and the outcome is not
    determined.) *)
Theorem RequestMap_add_inserts_below_a_key
    (end_first key above : N) (elem : Z) (m : gmap N Z) (out : list string) :
  m !! key = None -> above ∈ dom m -> (key <= above)%N ->
  exists w',
    RequestMap.add end_first key elem (RequestMap.mkWorld (RequestMap.mk m false) out)
      = Some (tt, w') /\
    RequestMap._map (RequestMap.obj w') = <[key := elem]> m /\
    RequestMap._map (RequestMap.obj w') !! key = Some elem /\
    RequestMap.cerr w' = out.
Proof.
  intros Hkey Hdom Hle.
  assert (Hit : RequestMap.lower_bound m key <> None).
  { intros Hnone. rewrite lower_bound_None in Hnone.
    specialize (Hnone above Hdom). lia. }
  eexists. split; [apply add_unfold |].
  rewrite (bool_decide_eq_false_2 _ Hit). simpl.
  unfold RequestMap.insert_hint. rewrite Hkey.
  split; [reflexivity |]. split; [apply lookup_insert_eq | reflexivity].
Qed.

Lemma RequestMap_add_inserts_below_a_key_witness :
  exists w',
    RequestMap.add 0 5 22 (RequestMap.mkWorld (RequestMap.mk {[ 9%N := 11 ]} false) [])
      = Some (tt, w') /\
    RequestMap._map (RequestMap.obj w') = <[5%N := 22]> {[ 9%N := 11 ]} /\
    RequestMap._map (RequestMap.obj w') !! 5%N = Some 22 /\
    RequestMap.cerr w' = [].
Proof.
  refine (RequestMap_add_inserts_below_a_key 0 5 9 22 {[ 9%N := 11 ]} [] _ _ _).
  - vm_compute. reflexivity.
  - vm_compute. reflexivity.
  - lia.
Defined.

(** X5.  [RequestMap::fetch] with the lock free: it reaches the end of its
    body without a [return] statement, and leaves the map and the lock as
    they were, so no element is ever taken out.  For a key that is present
    it writes the line "Error, key not found." to [std::cerr]. *)
Theorem RequestMap_fetch_takes_nothing
    (end_first : N) (end_second : Z) (m : gmap N Z) (out : list string) :
  (forall key, exists out',
     RequestMap.fetch end_first end_second key
       (RequestMap.mkWorld (RequestMap.mk m false) out)
     = Some (FlowsOffEnd, RequestMap.mkWorld (RequestMap.mk m false) out')) /\
  (forall key old, m !! key = Some old ->
     RequestMap.fetch end_first end_second key
       (RequestMap.mkWorld (RequestMap.mk m false) out)
     = Some (FlowsOffEnd,
         RequestMap.mkWorld (RequestMap.mk m false)
           (out ++ ["Error, key not found."%string]))).
Proof.
  split.
  - intros key. eexists. apply fetch_unfold.
  - intros key old Hold. rewrite fetch_unfold, (lower_bound_present _ _ _ Hold).
    rewrite bool_decide_eq_false_2 by discriminate. reflexivity.
Qed.

Lemma RequestMap_fetch_takes_nothing_witness :
  RequestMap.fetch 0 0 5 (RequestMap.mkWorld (RequestMap.mk {[ 5%N := 11 ]} false) [])
  = Some (FlowsOffEnd,
      RequestMap.mkWorld (RequestMap.mk {[ 5%N := 11 ]} false)
        ([] ++ ["Error, key not found."%string])).
Proof.
  refine (proj2 (RequestMap_fetch_takes_nothing 0 0 {[ 5%N := 11 ]} []) 5%N 11 _).
  vm_compute. reflexivity.
Defined.

(** ** DependableObject: invariants of the object store *)

Section HeapInvariants.
Import DependableObject.

(** A property [Inv] of the object store alone. *)
Variable Inv : gmap Z t -> Prop.

Let holds (w : World) : Prop := Inv (heap w).

Lemma inv_load (p : Z) : hoare holds (load p) (fun _ => holds).
Proof.
  intros w o w' HI. unfold load. destruct (heap w !! p); [|discriminate].
  intros [= _ <-]. exact HI.
Qed.

Lemma inv_emit (e : event) : hoare holds (emit e) (fun _ => holds).
Proof. intros w a w' HI [= _ <-]. exact HI. Qed.

Lemma inv_update (p : Z) (f : t -> t) :
  (forall h o, Inv h -> h !! p = Some o -> Inv (<[p := f o]> h)) ->
  hoare holds (update p f) (fun _ => holds).
Proof.
  intros Hf w a w' HI. unfold update.
  destruct (heap w !! p) as [o|] eqn:Ho; [|discriminate].
  intros [= _ <-]. apply Hf; assumption.
Qed.

Lemma inv_for_each {A : Type} (l : list A) (body : A -> M World unit) :
  (forall x, hoare holds (body x) (fun _ => holds)) ->
  hoare holds (for_each l body) (fun _ => holds).
Proof.
  intros Hbody. induction l as [|x l IH]; simpl.
  - apply hoare_ret.
  - eapply hoare_bind; [apply Hbody | intros ?; exact IH].
Qed.

End HeapInvariants.

(** Walks through a computation over the object store; [side] is run on
    the condition that each [update] has to meet. *)
Ltac inv_steps side :=
  repeat first
    [ apply hoare_ret
    | apply hoare_diverge
    | apply inv_load
    | apply inv_emit
    | apply inv_for_each; intros ?
    | apply inv_update; side
    | eapply hoare_bind; [|intros ?]
    | match goal with
      | |- hoare _ (if ?b then _ else _) _ => destruct b
      | |- hoare _ (match ?x with _ => _ end) _ => destruct x
      end ].

Ltac unfold_calls :=
  unfold DependableObject.call, DependableObject.discard,
    DependableObject.destructor, DependableObject.SyncLockBlock,
    DependableObject.lock_acquire, DependableObject.lock_release,
    DependableObject.deleteSuccessor, DependableObject.assign,
    DependableObject.waits, DependableObject.getDescription,
    DependableObject.getRelatedObject, DependableObject.setId,
    DependableObject.getId, DependableObject.increasePredecessors,
    DependableObject.decreasePredecessors, DependableObject.dependenciesSatisfied,
    DependableObject.decreasePredecessorsInLock, DependableObject.numPredecessors,
    DependableObject.getPredecessors, DependableObject.getSuccessors,
    DependableObject.addPredecessor, DependableObject.addSuccessor,
    DependableObject.getDependenciesDomain, DependableObject.setDependenciesDomain,
    DependableObject.addWriteTarget, DependableObject.getWrittenTargets,
    DependableObject.addReadTarget, DependableObject.getReadTargets,
    DependableObject.increaseReferences, DependableObject.resetReferences,
    DependableObject.isSubmitted, DependableObject.submitted,
    DependableObject.needsSubmission, DependableObject.enableSubmission,
    DependableObject.disableSubmission, DependableObject.setWD,
    DependableObject.getWD, DependableObject.getSchedulerData,
    DependableObject.setSchedulerData.

Section StoreFacts.
Import DependableObject.

(** Every object that is submitted needs submission. *)
Let flags_agree (h : gmap Z t) : Prop :=
  forall p o, h !! p = Some o -> _submitted o = true -> _needsSubmission o = true.

Lemma flags_agree_insert (h : gmap Z t) (p : Z) (o : t) :
  flags_agree h -> (_submitted o = true -> _needsSubmission o = true) ->
  flags_agree (<[p := o]> h).
Proof.
  intros Hh Ho q oq. destruct (decide (p = q)) as [->|Hne].
  - rewrite lookup_insert_eq. intros [= <-]. exact Ho.
  - rewrite lookup_insert_ne by exact Hne. apply Hh.
Qed.

Lemma calls_keep_flags_agree (this : Z) (op : Op) :
  hoare (fun w => flags_agree (heap w)) (call this op) (fun _ w => flags_agree (heap w)).
Proof.
  destruct op;
    try (unfold_calls;
         inv_steps ltac:(intros h o Hh Ho;
                         apply flags_agree_insert;
                         [exact Hh | first [exact (Hh _ _ Ho) | reflexivity]]);
         fail).
  - (* operator= *)
    intros w a w' HI. simpl. unfold discard.
    intros (r & w1 & Hassign & [= <-])%bind_Some.
    destruct (decide (this = depObj)) as [<-|Hne].
    + unfold assign in Hassign. rewrite bool_decide_eq_true_2 in Hassign by reflexivity.
      injection Hassign as _ Hw. subst. exact HI.
    + pose proof Hassign as Hrun. unfold assign in Hassign.
      rewrite (bool_decide_eq_false_2 _ Hne) in Hassign.
      apply bind_Some in Hassign as (d & w2 & Hload & Hrest).
      pose proof (load_returns _ _ _ Hload) as [d' Hd].
      rewrite (load_eq _ _ _ Hd) in Hload. injection Hload as <- <-.
      apply bind_Some in Hrest as (u & w3 & Hupd & _).
      pose proof (update_returns _ _ _ _ Hupd) as [o Ho].
      rewrite (assign_eq _ _ _ _ _ Ho Hd Hne) in Hrun. injection Hrun as Hr Hw.
      clear Hr. subst. simpl. apply flags_agree_insert; [exact HI |]. simpl. apply (HI _ _ Hd).
  - (* submitted() *)
    intros w a w' HI. simpl. intros Hrun. pose proof Hrun as Hcall.
    unfold submitted in Hcall. apply bind_Some in Hcall as (u & w1 & Hupd & _).
    pose proof (update_returns _ _ _ _ Hupd) as [o Ho].
    rewrite (submitted_eq _ _ _ Ho) in Hrun. injection Hrun as Hr Hw. clear Hr. subst.
    simpl. apply flags_agree_insert; [exact HI | reflexivity].
  - (* disableSubmission() *)
    intros w a w' HI. simpl. intros Hrun. pose proof Hrun as Hcall.
    unfold disableSubmission in Hcall. apply bind_Some in Hcall as (u & w1 & Hupd & _).
    pose proof (update_returns _ _ _ _ Hupd) as [o Ho].
    rewrite (disableSubmission_eq _ _ _ Ho) in Hrun. injection Hrun as Hr Hw. clear Hr. subst.
    simpl. apply flags_agree_insert; [exact HI | discriminate].
Qed.

End StoreFacts.

(** X6.  In a store where every submitted object also needs submission,
    this is still so after any operation of the class that returns:
    [submitted()] raises both flags, [disableSubmission()] lowers both,
    [operator=] copies both, and nothing else writes [_submitted]. *)
Theorem submitted_objects_need_submission
    (this : Z) (op : DependableObject.Op) (w w' : DependableObject.World) :
  (forall p o, DependableObject.heap w !! p = Some o ->
     DependableObject._submitted o = true ->
     DependableObject._needsSubmission o = true) ->
  DependableObject.call this op w = Some (tt, w') ->
  forall p o, DependableObject.heap w' !! p = Some o ->
    DependableObject._submitted o = true ->
    DependableObject._needsSubmission o = true.
Proof.
  intros HI Hcall. exact (calls_keep_flags_agree this op w tt w' HI Hcall).
Qed.

Lemma submitted_objects_need_submission_witness :
  DependableObject._needsSubmission
    (DependableObject.mk 2 0 1 ∅ ∅ NULL [] [] true true 20 NULL false) = true.
Proof.
  refine (submitted_objects_need_submission 200 DependableObject.OpSubmitted
            (DependableObject.mkWorld
               {[ 200 := DependableObject.mk 2 0 1 ∅ ∅ NULL [] [] false false 20 NULL false ]}
               [])
            (DependableObject.mkWorld
               {[ 200 := DependableObject.mk 2 0 1 ∅ ∅ NULL [] [] true true 20 NULL false ]}
               [DependableObject.EvMemoryFence])
            _ _ 200 _ _ _).
  - intros p o Hp. simpl in Hp. destruct (decide (p = 200)) as [->|Hne].
    + rewrite lookup_singleton_eq in Hp. injection Hp as <-. discriminate.
    + rewrite lookup_singleton_ne in Hp by congruence. discriminate.
  - vm_compute. reflexivity.
  - vm_compute. reflexivity.
  - reflexivity.
Defined.

(** X7.  An operation on the object at [this] whose body calls no
    scheduler hook, no virtual method and no method of a work descriptor
    (so: any operation but [addSuccessor], [decreasePredecessors] and
    [decreasePredecessorsInLock]) and that is not the destructor leaves
    every other object of the store exactly as it was.  What the three
    excluded operations leave of the other objects depends on the methods
    they call, which are not part of the file. *)
Theorem calls_touch_their_receiver_only
    (this q : Z) (op : DependableObject.Op) (w w' : DependableObject.World) :
  DependableObject.calls_out op = false ->
  op <> DependableObject.OpDestructor -> q <> this ->
  DependableObject.call this op w = Some (tt, w') ->
  DependableObject.heap w' !! q = DependableObject.heap w !! q.
Proof.
  intros Hin Hop Hq Hcall.
  pose (same := fun h : gmap Z DependableObject.t => h !! q = DependableObject.heap w !! q).
  assert (Hframe :
    hoare (fun w0 => same (DependableObject.heap w0))
          (DependableObject.call this op)
          (fun _ w0 => same (DependableObject.heap w0))).
  { destruct op; try congruence; try discriminate Hin; unfold_calls;
      inv_steps ltac:(intros h o Hh Ho; unfold same;
                      rewrite lookup_insert_ne by congruence; exact Hh). }
  exact (Hframe w tt w' eq_refl Hcall).
Qed.

Lemma calls_touch_their_receiver_only_witness :
  let P := DependableObject.mk 1 0 1 ∅ {[ 200 ]} NULL [] [] true true 10 NULL false in
  let S := DependableObject.mk 2 1 1 ∅ ∅ NULL [] [] true true 20 NULL false in
  let w := DependableObject.mkWorld {[ 100 := P; 200 := S ]} [] in
  let w' := DependableObject.mkWorld
              {[ 100 := P; 200 := DependableObject.set_predecessors {[ 100 ]} S ]}
              [DependableObject.EvAcquire 200; DependableObject.EvRelease 200] in
  DependableObject.heap w' !! 100 = DependableObject.heap w !! 100.
Proof.
  intros P S w w'.
  refine (calls_touch_their_receiver_only 200 100 (DependableObject.OpAddPredecessor 100)
            w w' _ _ _ _).
  - reflexivity.
  - discriminate.
  - discriminate.
  - vm_compute. reflexivity.
Defined.

(** ** DependableObject: the predecessor counter *)

Section CounterFacts.
Import DependableObject.

Lemma wrap32_small (x : Z) : 0 <= x < 2 ^ 32 -> wrap32 x = x.
Proof. intros Hx. unfold wrap32. apply Z.mod_small, Hx. Qed.

Lemma to_int_zero (x : Z) : 0 <= x < 2 ^ 32 -> to_int x = 0 <-> x = 0.
Proof. intros Hx. unfold to_int. destruct (x <? 2 ^ 31) eqn:E; lia. Qed.

Lemma to_int_wrap32_minus_one : to_int (wrap32 (0 - 1)) = -1.
Proof. reflexivity. Qed.

Lemma set_successors_id (o : t) : set_successors (_successors o) o = o.
Proof. destruct o; reflexivity. Qed.

Lemma World_eta (w : World) : mkWorld (heap w) (trace w) = w.
Proof. destruct w; reflexivity. Qed.

Lemma increasePredecessors_eq (this : Z) (w : World) (o : t) :
  heap w !! this = Some o ->
  increasePredecessors this w
  = Some (to_int (_numPredecessors o),
      mkWorld (<[this := set_numPredecessors (wrap32 (_numPredecessors o + 1)) o]> (heap w))
        (trace w)).
Proof.
  intros Ho. unfold increasePredecessors.
  rewrite (bind_eq _ _ _ _ _ (load_eq _ _ _ Ho)).
  rewrite (bind_eq _ _ _ _ _ (update_eq _ _ _ _ Ho)). reflexivity.
Qed.

Lemma numPredecessors_eq (this : Z) (w : World) (o : t) :
  heap w !! this = Some o ->
  numPredecessors this w = Some (to_int (_numPredecessors o), w).
Proof.
  intros Ho. unfold numPredecessors.
  rewrite (bind_eq _ _ _ _ _ (load_eq _ _ _ Ho)). reflexivity.
Qed.

(** The calls that finish the predecessors [preds] of an object that waits
    for exactly as many: only the last one releases it. *)
Lemma decrements_release_at_the_end (this : Z) (preds : list Z) :
  forall (w : World) (o : t),
  heap w !! this = Some o ->
  0 < _numPredecessors o < 2 ^ 32 ->
  Z.of_nat (length preds) = _numPredecessors o ->
  exists h' evs,
    for_each preds
      (fun p => discard (decreasePredecessors this NULL p false false)) w
      = Some (tt, mkWorld h' (trace w ++ evs ++ [EvDependenciesSatisfied this])) /\
    (forall e, e ∈ evs -> exists p n, e = EvAtSuccessor this p 1 n) /\
    h' !! this = Some (set_numPredecessors 0 o).
Proof.
  induction preds as [|p preds IH]; intros w o Ho Hn Hlen; [simpl in Hlen; lia |].
  pose proof (decreasePredecessors_eq this NULL p false false w o Ho) as Hstep.
  cbv zeta in Hstep.
  assert (Hwrap : wrap32 (_numPredecessors o - 1) = _numPredecessors o - 1)
    by (apply wrap32_small; lia).
  rewrite Hwrap in Hstep. cbn [for_each]. unfold discard at 1.
  destruct preds as [|p' preds].
  - (* the last predecessor *)
    simpl in Hlen.
    assert (H1 : _numPredecessors o = 1) by lia.
    rewrite H1 in Hstep. change (to_int (1 - 1)) with 0 in Hstep. simpl in Hstep.
    rewrite (bind_eq _ _ _ _ _ (bind_eq _ _ _ _ _ Hstep)).
    exists (<[this := set_numPredecessors 0 o]> (heap w)), [EvAtSuccessor this p 1 0].
    split; [reflexivity |]. split.
    + intros e [->|[]%elem_of_nil]%elem_of_cons. eauto.
    + apply lookup_insert_eq.
  - (* more to come *)
    assert (Hnz : to_int (_numPredecessors o - 1) <> 0).
    { rewrite to_int_zero by lia. simpl in Hlen. lia. }
    rewrite (bool_decide_eq_false_2 _ Hnz) in Hstep. simpl in Hstep.
    rewrite (bind_eq _ _ _ _ _ (bind_eq _ _ _ _ _ Hstep)).
    set (o1 := set_numPredecessors (_numPredecessors o - 1) o) in *.
    set (w1 := mkWorld _ _).
    destruct (IH w1 o1) as (h' & evs & Hrun & Hevs & Hthis).
    { subst w1. simpl. apply lookup_insert_eq. }
    { subst o1. simpl. simpl in Hlen. lia. }
    { subst o1. simpl. simpl in Hlen. simpl. lia. }
    exists h', (EvAtSuccessor this p 1 (to_int (_numPredecessors o - 1)) :: evs).
    split; [|split].
    + rewrite Hrun. subst w1. simpl.
      rewrite <- !app_assoc. reflexivity.
    + intros e [->|He]%elem_of_cons; [eauto | apply Hevs, He].
    + rewrite Hthis. reflexivity.
Qed.

End CounterFacts.

(** X8.  An object that waits for [n] predecessors ([0 < n < 2^32]) and
    sees [n] non-batched [decreasePredecessors] calls, one per finished
    predecessor, is released exactly once, by the last of them; until then
    only the scheduler hook is called.  The counter ends at 0. *)
Theorem release_happens_once_at_the_last_decrement
    (this : Z) (preds : list Z) (w : DependableObject.World) (o : DependableObject.t) :
  DependableObject.heap w !! this = Some o ->
  0 < DependableObject._numPredecessors o < 2 ^ 32 ->
  Z.of_nat (length preds) = DependableObject._numPredecessors o ->
  exists w' evs,
    for_each preds
      (fun p => DependableObject.discard
                  (DependableObject.decreasePredecessors this NULL p false false)) w
      = Some (tt, w') /\
    DependableObject.trace w'
      = DependableObject.trace w ++ evs ++ [DependableObject.EvDependenciesSatisfied this] /\
    (forall e, e ∈ evs -> exists p n, e = DependableObject.EvAtSuccessor this p 1 n) /\
    DependableObject.numPredecessors this w' = Some (0, w').
Proof.
  intros Ho Hn Hlen.
  destruct (decrements_release_at_the_end this preds w o Ho Hn Hlen)
    as (h' & evs & Hrun & Hevs & Hthis).
  eexists _, evs. split; [exact Hrun |]. split; [reflexivity |].
  split; [exact Hevs |].
  erewrite numPredecessors_eq by exact Hthis. reflexivity.
Qed.

Lemma release_happens_once_at_the_last_decrement_witness :
  let o := DependableObject.mk 2 3 1 {[ 11; 12; 13 ]} ∅ NULL [] [] true true 20 NULL false in
  let w := DependableObject.mkWorld {[ 200 := o ]} [] in
  exists w' evs,
    for_each [11; 12; 13]
      (fun p => DependableObject.discard
                  (DependableObject.decreasePredecessors 200 NULL p false false)) w
      = Some (tt, w') /\
    DependableObject.trace w'
      = [] ++ evs ++ [DependableObject.EvDependenciesSatisfied 200] /\
    (forall e, e ∈ evs -> exists p n, e = DependableObject.EvAtSuccessor 200 p 1 n) /\
    DependableObject.numPredecessors 200 w' = Some (0, w').
Proof.
  intros o w.
  refine (release_happens_once_at_the_last_decrement 200 [11; 12; 13] w o _ _ _).
  - vm_compute. reflexivity.
  - simpl. lia.
  - reflexivity.
Defined.

(** X9.  The counter is not guarded against underflow: on an object whose
    count is 0, [decreasePredecessors] returns -1, does not release the
    object whatever [batchRelease] is, and [numPredecessors()] reads -1
    afterwards. *)
Theorem decreasePredecessors_below_zero
    (this flushDeps finishedPred : Z) (batchRelease blocking : bool)
    (w : DependableObject.World) (o : DependableObject.t) :
  DependableObject.heap w !! this = Some o ->
  DependableObject._numPredecessors o = 0 ->
  exists w',
    DependableObject.decreasePredecessors this flushDeps finishedPred
      batchRelease blocking w = Some (-1, w') /\
    DependableObject.trace w'
      = DependableObject.trace w
          ++ [DependableObject.EvAtSuccessor this finishedPred 1 (-1)] /\
    DependableObject.numPredecessors this w' = Some (-1, w').
Proof.
  intros Ho Hz.
  pose proof (decreasePredecessors_eq this flushDeps finishedPred batchRelease
                blocking w o Ho) as Hstep.
  cbv zeta in Hstep. rewrite Hz, to_int_wrap32_minus_one in Hstep.
  simpl in Hstep. eexists. split; [exact Hstep |]. split; [reflexivity |].
  erewrite numPredecessors_eq by (simpl; apply lookup_insert_eq). reflexivity.
Qed.

Lemma decreasePredecessors_below_zero_witness :
  let o := DependableObject.mk 2 0 1 ∅ ∅ NULL [] [] true true 20 NULL false in
  let w := DependableObject.mkWorld {[ 200 := o ]} [] in
  exists w',
    DependableObject.decreasePredecessors 200 NULL 100 false false w = Some (-1, w') /\
    DependableObject.trace w' = [] ++ [DependableObject.EvAtSuccessor 200 100 1 (-1)] /\
    DependableObject.numPredecessors 200 w' = Some (-1, w').
Proof.
  intros o w.
  refine (decreasePredecessors_below_zero 200 NULL 100 false false w o _ _).
  - vm_compute. reflexivity.
  - reflexivity.
Defined.

(** X10.  [increasePredecessors] followed by a batched
    [decreasePredecessors] brings the predecessor counter back to the value
    it had, for a count in the range of [unsigned int] (the largest one
    included, where the increment wraps to 0); both calls return the
    original count, the scheduler hook is called once and is passed that
    count, and the object is not released. *)
Theorem increase_then_decrease_restores
    (this flushDeps finishedPred : Z) (blocking : bool)
    (w : DependableObject.World) (o : DependableObject.t) :
  DependableObject.heap w !! this = Some o ->
  0 <= DependableObject._numPredecessors o < 2 ^ 32 ->
  let n := to_int (DependableObject._numPredecessors o) in
  exists w' o',
    (let* a := DependableObject.increasePredecessors this in
     let* b := DependableObject.decreasePredecessors this flushDeps finishedPred
                 true blocking in
     ret (a, b)) w = Some ((n, n), w') /\
    DependableObject.heap w' !! this = Some o' /\
    DependableObject._numPredecessors o' = DependableObject._numPredecessors o /\
    DependableObject.numPredecessors this w' = Some (n, w') /\
    DependableObject.trace w'
      = DependableObject.trace w
          ++ [DependableObject.EvAtSuccessor this finishedPred 1 n].
Proof.
  intros Ho Hn n.
  assert (Hrun :
    (let* a := DependableObject.increasePredecessors this in
     let* b := DependableObject.decreasePredecessors this flushDeps finishedPred
                 true blocking in
     ret (a, b)) w
    = Some ((n, n),
        DependableObject.mkWorld
          (<[this := DependableObject.set_numPredecessors
                       (DependableObject._numPredecessors o) o]>
             (DependableObject.heap w))
          (DependableObject.trace w
             ++ [DependableObject.EvAtSuccessor this finishedPred 1 n]))); [|
    eexists _, _; split; [exact Hrun |]; simpl;
    split; [apply lookup_insert_eq |]; split; [reflexivity |]; split; [|reflexivity];
    erewrite numPredecessors_eq by (simpl; apply lookup_insert_eq); reflexivity ].
  rewrite (bind_eq _ _ _ _ _ (increasePredecessors_eq this w o Ho)).
  erewrite bind_eq;
    [| apply decreasePredecessors_eq; simpl; apply lookup_insert_eq].
  simpl.
  assert (Hback : wrap32 (wrap32 (DependableObject._numPredecessors o + 1) - 1)
                  = DependableObject._numPredecessors o).
  { unfold wrap32.
    rewrite Zminus_mod_idemp_l.
    replace (DependableObject._numPredecessors o + 1 - 1)
      with (DependableObject._numPredecessors o) by lia.
    apply Z.mod_small, Hn. }
  rewrite Hback, andb_false_r. simpl.
  rewrite insert_insert_eq.
  reflexivity.
Qed.

Lemma increase_then_decrease_restores_witness :
  let o := DependableObject.mk 2 4294967295 1 ∅ ∅ NULL [] [] true true 20 NULL false in
  let w := DependableObject.mkWorld {[ 200 := o ]} [] in
  exists w' o',
    (let* a := DependableObject.increasePredecessors 200 in
     let* b := DependableObject.decreasePredecessors 200 NULL 100 true false in
     ret (a, b)) w = Some ((to_int 4294967295, to_int 4294967295), w') /\
    DependableObject.heap w' !! 200 = Some o' /\
    DependableObject._numPredecessors o' = 4294967295 /\
    DependableObject.numPredecessors 200 w' = Some (to_int 4294967295, w') /\
    DependableObject.trace w'
      = [] ++ [DependableObject.EvAtSuccessor 200 100 1 (to_int 4294967295)].
Proof.
  intros o w.
  refine (increase_then_decrease_restores 200 NULL 100 false w o _ _).
  - vm_compute. reflexivity.
  - simpl. lia.
Defined.

(** ** DependableObject: edges in and out *)

Section EdgeSetFacts.
Import DependableObject.

Lemma lock_acquire_eq (this : Z) (w : World) (o : t) :
  heap w !! this = Some o -> _objectLock o = false ->
  lock_acquire this w
  = Some (tt, mkWorld (<[this := set_objectLock true o]> (heap w))
                (trace w ++ [EvAcquire this])).
Proof.
  intros Ho Hfree. unfold lock_acquire.
  rewrite (bind_eq _ _ _ _ _ (load_eq _ _ _ Ho)), Hfree. simpl.
  rewrite (bind_eq _ _ _ _ _ (update_eq _ _ _ _ Ho)). reflexivity.
Qed.

Lemma lock_acquire_held (this : Z) (w : World) (o : t) :
  heap w !! this = Some o -> _objectLock o = true -> lock_acquire this w = None.
Proof.
  intros Ho Hheld. unfold lock_acquire.
  rewrite (bind_eq _ _ _ _ _ (load_eq _ _ _ Ho)), Hheld. reflexivity.
Qed.

Lemma lock_release_eq (this : Z) (w : World) (o : t) :
  heap w !! this = Some o ->
  lock_release this w
  = Some (tt, mkWorld (<[this := set_objectLock false o]> (heap w))
                (trace w ++ [EvRelease this])).
Proof.
  intros Ho. unfold lock_release.
  rewrite (bind_eq _ _ _ _ _ (update_eq _ _ _ _ Ho)). reflexivity.
Qed.

Lemma addPredecessor_eq (this depObj : Z) (w : World) (o : t) :
  heap w !! this = Some o -> _objectLock o = false ->
  addPredecessor this depObj w
  = Some (negb (bool_decide (depObj ∈ _predecessors o)),
      mkWorld (<[this := set_predecessors (_predecessors o ∪ {[depObj]}) o]> (heap w))
        (trace w ++ [EvAcquire this; EvRelease this])).
Proof.
  intros Ho Hfree. unfold addPredecessor, SyncLockBlock.
  erewrite bind_eq; [reflexivity |].
  rewrite (bind_eq _ _ _ _ _ (lock_acquire_eq _ _ _ Ho Hfree)).
  erewrite bind_eq;
    [| erewrite bind_eq; [| apply load_eq; simpl; apply lookup_insert_eq];
       erewrite bind_eq; [| apply update_eq; simpl; apply lookup_insert_eq];
       reflexivity].
  erewrite bind_eq; [| apply lock_release_eq; simpl; apply lookup_insert_eq].
  unfold ret. simpl. rewrite !insert_insert_eq, <- app_assoc.
  destruct o; simpl in *; subst. reflexivity.
Qed.

Lemma decreasePredecessorsInLock_null_eq (this numPred : Z) (w : World) (o : t) :
  heap w !! this = Some o ->
  decreasePredecessorsInLock this NULL numPred w
  = Some (tt,
      mkWorld
        (<[this := set_predecessors
                     (if bool_decide (numPred = 0) then ∅ else _predecessors o) o]> (heap w))
        (trace w)).
Proof.
  intros Ho. unfold decreasePredecessorsInLock.
  rewrite (bool_decide_eq_false_2 (NULL <> NULL)) by (intros H; apply H; reflexivity).
  unfold bind at 1, ret at 1.
  rewrite (bind_eq _ _ _ _ _ (load_eq _ _ _ Ho)).
  destruct (decide (numPred = 0)) as [Hz|Hz].
  - rewrite !(bool_decide_eq_true_2 _ Hz). simpl.
    destruct (decide (_predecessors o = ∅)) as [He|He].
    + rewrite (bool_decide_eq_true_2 _ He). simpl. unfold ret.
      rewrite <- He, set_predecessors_id, (insert_id _ _ _ Ho), World_eta. reflexivity.
    + rewrite (bool_decide_eq_false_2 _ He). simpl. apply update_eq, Ho.
  - rewrite !(bool_decide_eq_false_2 _ Hz). simpl. unfold ret.
    rewrite set_predecessors_id, (insert_id _ _ _ Ho), World_eta. reflexivity.
Qed.

End EdgeSetFacts.

(** X11.  [addPredecessor] on a live object with a free lock returns
    whether the predecessor is new, leaves it in the set, and takes and
    drops the object's own lock, which is free again afterwards; a second
    call then returns false and changes no object.  While the lock is held
    the call does not return. *)
Theorem addPredecessor_inserts_under_the_lock
    (this depObj : Z) (w : DependableObject.World) (o : DependableObject.t) :
  DependableObject.heap w !! this = Some o ->
  (DependableObject._objectLock o = true ->
     DependableObject.addPredecessor this depObj w = None) /\
  (DependableObject._objectLock o = false ->
     exists w1 w2 o1,
       DependableObject.addPredecessor this depObj w
         = Some (negb (bool_decide (depObj ∈ DependableObject._predecessors o)), w1) /\
       DependableObject.heap w1 !! this = Some o1 /\
       DependableObject._predecessors o1
         = DependableObject._predecessors o ∪ {[depObj]} /\
       DependableObject._objectLock o1 = false /\
       DependableObject.trace w1
         = DependableObject.trace w
             ++ [DependableObject.EvAcquire this; DependableObject.EvRelease this] /\
       DependableObject.addPredecessor this depObj w1 = Some (false, w2) /\
       DependableObject.heap w2 = DependableObject.heap w1).
Proof.
  intros Ho. split.
  - intros Hheld. unfold DependableObject.addPredecessor, DependableObject.SyncLockBlock.
    unfold bind at 1. unfold bind at 1.
    rewrite (lock_acquire_held _ _ _ Ho Hheld). reflexivity.
  - intros Hfree.
    set (o1 := DependableObject.set_predecessors
                 (DependableObject._predecessors o ∪ {[depObj]}) o).
    assert (Hfree1 : DependableObject._objectLock o1 = false) by exact Hfree.
    eexists _, _, o1.
    split; [apply (addPredecessor_eq _ _ _ _ Ho Hfree) |].
    split; [simpl; apply lookup_insert_eq |].
    split; [reflexivity |]. split; [exact Hfree1 |]. split; [reflexivity |].
    split.
    + erewrite addPredecessor_eq; [| simpl; apply lookup_insert_eq | exact Hfree1].
      rewrite (bool_decide_eq_true_2 (depObj ∈ DependableObject._predecessors o1))
        by (subst o1; simpl; set_solver).
      reflexivity.
    + simpl. rewrite insert_insert_eq. f_equal. subst o1. simpl.
      unfold DependableObject.set_predecessors. simpl. f_equal. set_solver.
Qed.

Lemma addPredecessor_inserts_under_the_lock_witness :
  let o := DependableObject.mk 2 0 1 {[ 100 ]} ∅ NULL [] [] true true 20 NULL false in
  let w := DependableObject.mkWorld {[ 200 := o ]} [] in
  exists w1 w2 o1,
    DependableObject.addPredecessor 200 150 w
      = Some (negb (bool_decide (150 ∈ DependableObject._predecessors o)), w1) /\
    DependableObject.heap w1 !! 200 = Some o1 /\
    DependableObject._predecessors o1 = DependableObject._predecessors o ∪ {[ 150 ]} /\
    DependableObject._objectLock o1 = false /\
    DependableObject.trace w1
      = DependableObject.trace w
          ++ [DependableObject.EvAcquire 200; DependableObject.EvRelease 200] /\
    DependableObject.addPredecessor 200 150 w1 = Some (false, w2) /\
    DependableObject.heap w2 = DependableObject.heap w1.
Proof.
  intros o w.
  refine (proj2 (addPredecessor_inserts_under_the_lock 200 150 w o _) _).
  - vm_compute. reflexivity.
  - reflexivity.
Defined.

(** X12.  Linking and unlinking a predecessor: after [addPredecessor] of a
    live, non-null object that was not a predecessor yet,
    [decreasePredecessorsInLock] for it with a count that is not 0 gives
    the store back as it was. *)
Theorem add_then_remove_predecessor_restores
    (this pred numPred : Z) (w : DependableObject.World) (o f : DependableObject.t) :
  DependableObject.heap w !! this = Some o ->
  DependableObject.heap w !! pred = Some f ->
  DependableObject._objectLock o = false ->
  pred <> NULL -> pred ∉ DependableObject._predecessors o -> numPred <> 0 ->
  exists w',
    (DependableObject.addPredecessor this pred ;;
     DependableObject.decreasePredecessorsInLock this pred numPred) w = Some (tt, w') /\
    DependableObject.heap w' = DependableObject.heap w.
Proof.
  intros Ho Hf Hfree Hnn Hnew Hnz.
  rewrite (bind_eq _ _ _ _ _ (addPredecessor_eq this pred w o Ho Hfree)).
  set (o1 := DependableObject.set_predecessors
               (DependableObject._predecessors o ∪ {[pred]}) o).
  set (w1 := DependableObject.mkWorld _ _).
  assert (Ho1 : DependableObject.heap w1 !! this = Some o1)
    by (subst w1; simpl; apply lookup_insert_eq).
  assert (Hf1 : exists f1, DependableObject.heap w1 !! pred = Some f1).
  { subst w1. simpl. destruct (decide (this = pred)) as [->|Hne].
    - rewrite lookup_insert_eq. eauto.
    - rewrite lookup_insert_ne by exact Hne. eauto. }
  destruct Hf1 as [f1 Hf1].
  rewrite (decreasePredecessorsInLock_eq this pred numPred w1 o1 f1 Ho1 Hf1 Hnn).
  eexists. split; [reflexivity |]. simpl.
  rewrite (bool_decide_eq_false_2 _ Hnz), insert_insert_eq.
  assert (Hset : (DependableObject._predecessors o ∪ {[pred]}) ∖ {[pred]}
                 = DependableObject._predecessors o) by set_solver.
  subst o1. simpl. rewrite Hset.
  change (DependableObject.set_predecessors (DependableObject._predecessors o)
            (DependableObject.set_predecessors
               (DependableObject._predecessors o ∪ {[pred]}) o))
    with (DependableObject.set_predecessors (DependableObject._predecessors o) o).
  rewrite set_predecessors_id. apply insert_id, Ho.
Qed.

Lemma add_then_remove_predecessor_restores_witness :
  let P := DependableObject.mk 1 0 1 ∅ ∅ NULL [] [] true true 10 NULL false in
  let S := DependableObject.mk 2 1 1 {[ 150 ]} ∅ NULL [] [] true true 20 NULL false in
  let w := DependableObject.mkWorld {[ 100 := P; 200 := S ]} [] in
  exists w',
    (DependableObject.addPredecessor 200 100 ;;
     DependableObject.decreasePredecessorsInLock 200 100 1) w = Some (tt, w') /\
    DependableObject.heap w' = DependableObject.heap w.
Proof.
  intros P S w.
  refine (add_then_remove_predecessor_restores 200 100 1 w S P _ _ _ _ _ _).
  - vm_compute. reflexivity.
  - vm_compute. reflexivity.
  - reflexivity.
  - discriminate.
  - unfold S. simpl. set_solver.
  - discriminate.
Defined.

(** X13.  Linking and unlinking a successor: [deleteSuccessor] after
    [addSuccessor] of an object that was not a successor yet returns true
    and gives the receiver its successor set back as it was, the scheduler
    hook having been called once, for the insertion; [deleteSuccessor] of
    an object that is not a successor calls nothing, returns false and
    changes nothing at all. *)
Theorem add_then_delete_successor_restores
    (this depObj : Z) (w : DependableObject.World) (o : DependableObject.t) :
  DependableObject.heap w !! this = Some o ->
  depObj ∉ DependableObject._successors o ->
  (exists w' o',
     (DependableObject.addSuccessor this depObj ;;
      DependableObject.deleteSuccessor this depObj) w = Some (true, w') /\
     DependableObject.heap w' !! this = Some o' /\
     DependableObject._successors o' = DependableObject._successors o /\
     DependableObject.trace w'
       = DependableObject.trace w
           ++ [DependableObject.EvAtSuccessor depObj this 0 0]) /\
  DependableObject.deleteSuccessor this depObj w = Some (false, w).
Proof.
  intros Ho Hnew. split.
  - rewrite (bind_eq _ _ _ _ _ (addSuccessor_eq this depObj w o Ho)).
    erewrite deleteSuccessor_eq by (simpl; apply lookup_insert_eq).
    rewrite bool_decide_eq_true_2 by (simpl; set_solver).
    eexists _, _. split; [reflexivity |]. simpl.
    split; [apply lookup_insert_eq |]. split; [|reflexivity].
    simpl. set_solver.
  - rewrite (deleteSuccessor_eq this depObj w o Ho).
    rewrite (bool_decide_eq_false_2 _ Hnew).
    assert (Hset : DependableObject._successors o ∖ {[depObj]}
                   = DependableObject._successors o) by set_solver.
    rewrite Hset, set_successors_id, (insert_id _ _ _ Ho), World_eta. reflexivity.
Qed.

Lemma add_then_delete_successor_restores_witness :
  let o := DependableObject.mk 1 0 1 ∅ {[ 300 ]} NULL [] [] true true 10 NULL false in
  let w := DependableObject.mkWorld {[ 100 := o ]} [] in
  (exists w' o',
     (DependableObject.addSuccessor 100 200 ;;
      DependableObject.deleteSuccessor 100 200) w = Some (true, w') /\
     DependableObject.heap w' !! 100 = Some o' /\
     DependableObject._successors o' = {[ 300 ]} /\
     DependableObject.trace w'
       = [] ++ [DependableObject.EvAtSuccessor 200 100 0 0]) /\
  DependableObject.deleteSuccessor 100 200 w = Some (false, w).
Proof.
  intros o w.
  refine (add_then_delete_successor_restores 100 200 w o _ _).
  - vm_compute. reflexivity.
  - unfold o. simpl. set_solver.
Defined.

(** X14.  [operator=]: assigning an object to itself changes nothing.
    Assigning from another live object copies the id, both counters, both
    edge sets, the domain, the write targets, both submission flags and the
    work descriptor; it does not copy the read targets, the scheduler data
    or the lock, which stay those of the receiver, and it leaves the source
    as it was. *)
Theorem assignment_skips_read_targets
    (this depObj : Z) (w : DependableObject.World) (o d : DependableObject.t) :
  DependableObject.heap w !! this = Some o ->
  DependableObject.heap w !! depObj = Some d ->
  DependableObject.assign this this w = Some (this, w) /\
  (this <> depObj ->
   exists w',
     DependableObject.assign this depObj w = Some (this, w') /\
     DependableObject.heap w' !! this
       = Some (DependableObject.mk
                 (DependableObject._id d) (DependableObject._numPredecessors d)
                 (DependableObject._references d) (DependableObject._predecessors d)
                 (DependableObject._successors d) (DependableObject._domain d)
                 (DependableObject._outputObjects d) (DependableObject._readObjects o)
                 (DependableObject._submitted d) (DependableObject._needsSubmission d)
                 (DependableObject._wd d) (DependableObject._schedulerData o)
                 (DependableObject._objectLock o)) /\
     DependableObject.heap w' !! depObj = Some d /\
     DependableObject.trace w' = DependableObject.trace w).
Proof.
  intros Ho Hd. split.
  - unfold DependableObject.assign.
    rewrite bool_decide_eq_true_2 by reflexivity. reflexivity.
  - intros Hne. eexists. split; [apply (assign_eq _ _ _ _ _ Ho Hd Hne) |].
    simpl. split; [apply lookup_insert_eq |]. split; [|reflexivity].
    rewrite lookup_insert_ne by exact Hne. exact Hd.
Qed.

Lemma assignment_skips_read_targets_witness :
  let A := DependableObject.mk 1 0 1 ∅ ∅ NULL [61] [62] false false 10 5 true in
  let B := DependableObject.mk 2 3 4 {[ 7 ]} {[ 8 ]} 9 [71] [72] true true 20 6 false in
  let w := DependableObject.mkWorld {[ 100 := A; 200 := B ]} [] in
  exists w',
    DependableObject.assign 100 200 w = Some (100, w') /\
    DependableObject.heap w' !! 100
      = Some (DependableObject.mk 2 3 4 {[ 7 ]} {[ 8 ]} 9 [71] [62] true true 20 5 true) /\
    DependableObject.heap w' !! 200 = Some B /\
    DependableObject.trace w' = DependableObject.trace w.
Proof.
  intros A B w.
  refine (proj2 (assignment_skips_read_targets 100 200 w A B _ _) _).
  - vm_compute. reflexivity.
  - vm_compute. reflexivity.
  - discriminate.
Defined.

(** X15.  [decreasePredecessorsInLock] with a null [finishedPred] calls no
    hook and looks at no other object: it leaves the predecessor set as it
    is, unless [numPred] is 0, in which case it empties the set. *)
Theorem decreasePredecessorsInLock_without_predecessor
    (this numPred : Z) (w : DependableObject.World) (o : DependableObject.t) :
  DependableObject.heap w !! this = Some o ->
  exists w' o',
    DependableObject.decreasePredecessorsInLock this NULL numPred w = Some (tt, w') /\
    DependableObject.heap w' !! this = Some o' /\
    DependableObject._predecessors o'
      = (if bool_decide (numPred = 0) then ∅ else DependableObject._predecessors o) /\
    (forall q, q <> this ->
       DependableObject.heap w' !! q = DependableObject.heap w !! q) /\
    DependableObject.trace w' = DependableObject.trace w.
Proof.
  intros Ho. eexists _, _.
  split; [apply (decreasePredecessorsInLock_null_eq _ _ _ _ Ho) |]. simpl.
  split; [apply lookup_insert_eq |]. split; [reflexivity |]. split; [|reflexivity].
  intros q Hq. apply lookup_insert_ne. congruence.
Qed.

Lemma decreasePredecessorsInLock_without_predecessor_witness :
  let o := DependableObject.mk 2 0 1 {[ 100; 150 ]} ∅ NULL [] [] true true 20 NULL true in
  let w := DependableObject.mkWorld {[ 200 := o ]} [] in
  exists w' o',
    DependableObject.decreasePredecessorsInLock 200 NULL 0 w = Some (tt, w') /\
    DependableObject.heap w' !! 200 = Some o' /\
    DependableObject._predecessors o'
      = (if bool_decide (0 = 0) then ∅ else DependableObject._predecessors o) /\
    (forall q, q <> 200 ->
       DependableObject.heap w' !! q = DependableObject.heap w !! q) /\
    DependableObject.trace w' = DependableObject.trace w.
Proof.
  intros o w.
  refine (decreasePredecessorsInLock_without_predecessor 200 0 w o _).
  vm_compute. reflexivity.
Defined.

(** ** Task-graph dump: kinds of edges and data ranges *)

(** X16.  The three classes of data dependences partition the dependency
    edges: an edge of kind [Dependency] whose type is not [Null] is exactly
    one of a true, an anti and an output dependence, and an edge of another
    kind, or of type [Null], is none of them.  The concurrent, commutative
    and "any" tests pick disjoint sets of edges, none of them anti
    dependences. *)
Theorem edge_classes_partition (e : TgDump.Edge) :
  (TgDump.is_dependency e = true /\ TgDump._dep_type e <> TgDump.Null ->
     (TgDump.is_true_dependency e = true /\ TgDump.is_anti_dependency e = false
        /\ TgDump.is_output_dependency e = false) \/
     (TgDump.is_true_dependency e = false /\ TgDump.is_anti_dependency e = true
        /\ TgDump.is_output_dependency e = false) \/
     (TgDump.is_true_dependency e = false /\ TgDump.is_anti_dependency e = false
        /\ TgDump.is_output_dependency e = true)) /\
  (TgDump.is_dependency e = false \/ TgDump._dep_type e = TgDump.Null ->
     TgDump.is_true_dependency e = false /\ TgDump.is_anti_dependency e = false
       /\ TgDump.is_output_dependency e = false) /\
  (TgDump.is_concurrent_dep e && TgDump.is_commutative_dep e = false) /\
  (TgDump.is_concurrent_dep e && TgDump.is_any_dep e = false) /\
  (TgDump.is_commutative_dep e && TgDump.is_any_dep e = false) /\
  ((TgDump.is_concurrent_dep e || TgDump.is_commutative_dep e || TgDump.is_any_dep e)
     && TgDump.is_anti_dependency e = false) /\
  (TgDump.is_nesting e || TgDump.is_synchronization e || TgDump.is_dependency e = true).
Proof.
  destruct e as [k dt s t r].
  destruct k, dt; vm_compute; repeat split; intros; intuition congruence.
Qed.

Lemma edge_classes_partition_witness :
  let e := TgDump.mkEdge TgDump.Dependency TgDump.OutCommutative 100 200 (4096, 4159) in
  (TgDump.is_true_dependency e = true /\ TgDump.is_anti_dependency e = false
     /\ TgDump.is_output_dependency e = false) \/
  (TgDump.is_true_dependency e = false /\ TgDump.is_anti_dependency e = true
     /\ TgDump.is_output_dependency e = false) \/
  (TgDump.is_true_dependency e = false /\ TgDump.is_anti_dependency e = false
     /\ TgDump.is_output_dependency e = true).
Proof.
  intros e. refine (proj1 (edge_classes_partition e) _).
  split; [reflexivity | discriminate].
Defined.

(** X17.  The data range of an access and the size of an edge over it: for
    an access at a non-null address whose bytes fit below [2^64], the
    [NodeIO] built from it ends at the address of its last byte, and an edge
    whose data range is that of the [NodeIO] has the size of the access.  An
    edge with a null bound, such as one built with the default range, has
    size 0. *)
Theorem data_size_of_access_range
    (isInput isOutput : bool) (depAddress size : Z)
    (kind : TgDump.EdgeKind) (dep_type : TgDump.DependencyType) (source target : Z) :
  0 < depAddress -> 0 < size -> depAddress + size <= 2 ^ 64 ->
  let io := TgDump.NodeIO_of_access isInput isOutput depAddress size in
  TgDump._end_address io = depAddress + size - 1 /\
  TgDump.get_data_size
    (TgDump.mkEdge kind dep_type source target
       (TgDump._start_address io, TgDump._end_address io)) = size /\
  (forall bound,
     TgDump.get_data_size (TgDump.mkEdge kind dep_type source target (NULL, bound)) = 0 /\
     TgDump.get_data_size (TgDump.mkEdge kind dep_type source target (bound, NULL)) = 0).
Proof.
  intros Ha Hs Hfit io.
  assert (Hend : TgDump._end_address io = depAddress + size - 1).
  { subst io. simpl. unfold wrap64.
    rewrite (Z.mod_small (size - 1)) by lia. rewrite Z.mod_small by lia. lia. }
  split; [exact Hend |]. split.
  - subst io. unfold TgDump.get_data_size.
    cbn [TgDump._data_range TgDump._start_address TgDump._end_address
         TgDump.NodeIO_of_access fst snd] in *.
    rewrite Hend.
    rewrite (bool_decide_eq_false_2 (depAddress = NULL)) by (unfold NULL; lia).
    rewrite (bool_decide_eq_false_2 (depAddress + size - 1 = NULL)) by (unfold NULL; lia).
    simpl. unfold wrap64.
    replace (depAddress + size - 1 - depAddress) with (size - 1) by lia.
    rewrite (Z.mod_small (size - 1)) by lia. rewrite Z.mod_small by lia. lia.
  - intros bound. unfold TgDump.get_data_size.
    cbn [TgDump._data_range fst snd].
    rewrite (bool_decide_eq_true_2 (NULL = NULL)) by reflexivity.
    rewrite orb_true_r. split; reflexivity.
Qed.

Lemma data_size_of_access_range_witness :
  let io := TgDump.NodeIO_of_access true false 4096 64 in
  TgDump._end_address io = 4096 + 64 - 1 /\
  TgDump.get_data_size
    (TgDump.mkEdge TgDump.Dependency TgDump.True_ 100 200
       (TgDump._start_address io, TgDump._end_address io)) = 64 /\
  (forall bound,
     TgDump.get_data_size
       (TgDump.mkEdge TgDump.Dependency TgDump.True_ 100 200 (NULL, bound)) = 0 /\
     TgDump.get_data_size
       (TgDump.mkEdge TgDump.Dependency TgDump.True_ 100 200 (bound, NULL)) = 0).
Proof.
  refine (data_size_of_access_range true false 4096 64 TgDump.Dependency TgDump.True_
            100 200 _ _ _); lia.
Defined.

(** ** Task-graph dump: what [connect_nodes] keeps *)

Section TgInvariants.
Import TgDump.

Variable Inv : World -> Prop.

Lemma tg_inv_load (p : Z) : hoare Inv (load p) (fun _ => Inv).
Proof.
  intros w n w' HI. unfold load. destruct (nodes w !! p); [|discriminate].
  intros [= _ <-]. exact HI.
Qed.

Lemma tg_inv_update (p : Z) (f : Node -> Node) :
  (forall w n, Inv w -> nodes w !! p = Some n ->
     Inv (mkWorld (<[p := f n]> (nodes w)) (used_edge_types w))) ->
  hoare Inv (update p f) (fun _ => Inv).
Proof.
  intros Hf w a w' HI. unfold update.
  destruct (nodes w !! p) as [n|] eqn:Hn; [|discriminate].
  intros [= _ <-]. apply Hf; assumption.
Qed.

Lemma tg_inv_mark_used (i : nat) :
  (forall w, Inv w -> Inv (mkWorld (nodes w) (<[i := 1]> (used_edge_types w)))) ->
  hoare Inv (mark_used i) (fun _ => Inv).
Proof. intros Hf w a w' HI [= _ <-]. apply Hf, HI. Qed.

End TgInvariants.

(** Walks through [connect_nodes] and the like; [upd] is run on the
    condition of each [update], [mark] on that of each [mark_used]. *)
Ltac tg_steps upd mark :=
  repeat first
    [ apply hoare_ret
    | apply hoare_diverge
    | apply tg_inv_load
    | apply tg_inv_update; upd
    | apply tg_inv_mark_used; mark
    | eapply hoare_bind; [|intros ?]
    | match goal with
      | |- hoare _ (if ?b then _ else _) _ => destruct b
      | |- hoare _ (match ?x with _ => _ end) _ => destruct x
      end ].

Ltac unfold_connect :=
  unfold TgDump.connect_nodes, TgDump.exit_lock_acquire, TgDump.exit_lock_release,
    TgDump.entry_lock_acquire, TgDump.entry_lock_release, TgDump.get_connections,
    TgDump.is_critical.

Section ConnectKeeps.
Import TgDump.

Lemma prefix_snoc {A : Type} (l k : list A) (x : A) : l `prefix_of` k -> l `prefix_of` k ++ [x].
Proof. intros [r ->]. exists (r ++ [x]). symmetry. apply app_assoc. Qed.

Lemma used_insert_keeps (u0 u : list Z) (i : nat) :
  (length u = length u0 /\ forall j, u0 !! j = Some 1 -> u !! j = Some 1) ->
  length (<[i := 1]> u) = length u0 /\
  forall j, u0 !! j = Some 1 -> <[i := 1]> u !! j = Some 1.
Proof.
  intros [Hlen Hones]. split; [rewrite length_insert; exact Hlen |].
  intros j Hj. specialize (Hones j Hj).
  destruct (decide (i = j)) as [->|Hne].
  - apply list_lookup_insert_eq. apply lookup_lt_Some in Hones. exact Hones.
  - rewrite list_lookup_insert_ne by exact Hne. exact Hones.
Qed.

End ConnectKeeps.

(** X18.  [connect_nodes] only ever adds: whenever it returns, every node
    is still there with the same work descriptor id, function id, type,
    printed and critical marks, and with its old entry and exit edges, in
    their order, at the front of the new lists.  Nodes other than the
    source and the target are exactly as before. *)
Theorem connect_nodes_only_adds_edges
    (source target : Z) (kind : TgDump.EdgeKind) (data_start data_end : Z)
    (dep_type : TgDump.DependencyType) (w w' : TgDump.World) :
  TgDump.connect_nodes source target kind data_start data_end dep_type w
    = Some (tt, w') ->
  (forall p n, TgDump.nodes w !! p = Some n ->
     exists n', TgDump.nodes w' !! p = Some n' /\
       TgDump._exit_edges n `prefix_of` TgDump._exit_edges n' /\
       TgDump._entry_edges n `prefix_of` TgDump._entry_edges n' /\
       TgDump._wd_id n' = TgDump._wd_id n /\ TgDump._func_id n' = TgDump._func_id n /\
       TgDump._type n' = TgDump._type n /\ TgDump._printed n' = TgDump._printed n /\
       TgDump._critical n' = TgDump._critical n) /\
  (forall q, q <> source -> q <> target ->
     TgDump.nodes w' !! q = TgDump.nodes w !! q).
Proof.
  intros Hrun. split.
  - intros p n Hn.
    pose (keeps := fun w0 : TgDump.World =>
      exists n', TgDump.nodes w0 !! p = Some n' /\
        TgDump._exit_edges n `prefix_of` TgDump._exit_edges n' /\
        TgDump._entry_edges n `prefix_of` TgDump._entry_edges n' /\
        TgDump._wd_id n' = TgDump._wd_id n /\ TgDump._func_id n' = TgDump._func_id n /\
        TgDump._type n' = TgDump._type n /\ TgDump._printed n' = TgDump._printed n /\
        TgDump._critical n' = TgDump._critical n).
    assert (Hkeeps : hoare keeps
              (TgDump.connect_nodes source target kind data_start data_end dep_type)
              (fun _ => keeps)).
    { unfold_connect.
      tg_steps
        ltac:(intros w0 n0 (n' & Hn' & Hx & He & Hrest) Hn0; unfold keeps; simpl;
              match goal with
              | |- context [<[?a := _]> _ !! p] =>
                  destruct (decide (a = p)) as [->|Hne];
                  [ rewrite lookup_insert_eq; eexists; split; [reflexivity |];
                    replace n0 with n' by congruence; simpl;
                    repeat split; first [apply Hrest | assumption
                                        | apply prefix_snoc; assumption]
                  | rewrite lookup_insert_ne by exact Hne; eauto 10 ]
              end)
        ltac:(intros w0 HI; exact HI). }
    apply (Hkeeps w tt w'); [|exact Hrun].
    exists n. repeat split; [exact Hn | reflexivity | reflexivity].
  - intros q Hqs Hqt.
    pose (same := fun w0 : TgDump.World => TgDump.nodes w0 !! q = TgDump.nodes w !! q).
    assert (Hsame : hoare same
              (TgDump.connect_nodes source target kind data_start data_end dep_type)
              (fun _ => same)).
    { unfold_connect.
      tg_steps
        ltac:(intros w0 n0 HI Hn0; unfold same; simpl;
              rewrite lookup_insert_ne by congruence; exact HI)
        ltac:(intros w0 HI; exact HI). }
    exact (Hsame w tt w' eq_refl Hrun).
Qed.

Lemma connect_nodes_only_adds_edges_witness :
  let e0 := TgDump.mkEdge TgDump.Nesting TgDump.Null 50 100 (NULL, NULL) in
  let A := TgDump.mkNode 1 7 TgDump.TaskNode [e0] [] false false false false in
  let B := TgDump.mkNode 2 7 TgDump.TaskNode [] [] false false true false in
  let e := TgDump.mkEdge TgDump.Dependency TgDump.True_ 100 200 (4096, 4159) in
  let w := TgDump.mkWorld {[ 100 := A; 200 := B ]} [0; 0; 0; 0; 0] in
  let w' := TgDump.mkWorld
              {[ 100 := TgDump.set_exit_edges [e] A;
                 200 := TgDump.set_entry_edges [e] B ]} [1; 0; 0; 0; 0] in
  (forall p n, TgDump.nodes w !! p = Some n ->
     exists n', TgDump.nodes w' !! p = Some n' /\
       TgDump._exit_edges n `prefix_of` TgDump._exit_edges n' /\
       TgDump._entry_edges n `prefix_of` TgDump._entry_edges n' /\
       TgDump._wd_id n' = TgDump._wd_id n /\ TgDump._func_id n' = TgDump._func_id n /\
       TgDump._type n' = TgDump._type n /\ TgDump._printed n' = TgDump._printed n /\
       TgDump._critical n' = TgDump._critical n) /\
  (forall q, q <> 100 -> q <> 200 ->
     TgDump.nodes w' !! q = TgDump.nodes w !! q).
Proof.
  intros e0 A B e w w'.
  refine (connect_nodes_only_adds_edges 100 200 TgDump.Dependency 4096 4159
            TgDump.True_ w w' _).
  vm_compute. reflexivity.
Defined.

(** X19.  The table [used_edge_types] keeps its length under
    [connect_nodes], and an entry that is 1 stays 1: no call clears a mark
    that an earlier call has set. *)
Theorem connect_nodes_never_clears_a_mark
    (source target : Z) (kind : TgDump.EdgeKind) (data_start data_end : Z)
    (dep_type : TgDump.DependencyType) (w w' : TgDump.World) :
  TgDump.connect_nodes source target kind data_start data_end dep_type w
    = Some (tt, w') ->
  length (TgDump.used_edge_types w') = length (TgDump.used_edge_types w) /\
  forall j, TgDump.used_edge_types w !! j = Some 1 ->
    TgDump.used_edge_types w' !! j = Some 1.
Proof.
  intros Hrun.
  pose (keeps := fun w0 : TgDump.World =>
    length (TgDump.used_edge_types w0) = length (TgDump.used_edge_types w) /\
    forall j, TgDump.used_edge_types w !! j = Some 1 ->
      TgDump.used_edge_types w0 !! j = Some 1).
  assert (Hkeeps : hoare keeps
            (TgDump.connect_nodes source target kind data_start data_end dep_type)
            (fun _ => keeps)).
  { unfold_connect.
    tg_steps
      ltac:(intros w0 n0 HI Hn0; exact HI)
      ltac:(intros w0 HI; unfold keeps; simpl; apply used_insert_keeps; exact HI). }
  apply (Hkeeps w tt w'); [|exact Hrun].
  split; [reflexivity | intros j Hj; exact Hj].
Qed.

Lemma connect_nodes_never_clears_a_mark_witness :
  let A := TgDump.mkNode 1 7 TgDump.TaskNode [] [] false false false false in
  let B := TgDump.mkNode 2 7 TgDump.TaskNode [] [] false false true false in
  let e := TgDump.mkEdge TgDump.Nesting TgDump.Null 100 200 (NULL, NULL) in
  let w := TgDump.mkWorld {[ 100 := A; 200 := B ]} [0; 1; 0; 0; 0] in
  let w' := TgDump.mkWorld
              {[ 100 := TgDump.set_exit_edges [e] A;
                 200 := TgDump.set_entry_edges [e] B ]} [0; 1; 0; 1; 0] in
  length (TgDump.used_edge_types w') = length (TgDump.used_edge_types w) /\
  forall j, TgDump.used_edge_types w !! j = Some 1 ->
    TgDump.used_edge_types w' !! j = Some 1.
Proof.
  intros A B e w w'.
  refine (connect_nodes_never_clears_a_mark 100 200 TgDump.Nesting NULL NULL
            TgDump.Null w w' _).
  vm_compute. reflexivity.
Defined.

(** ** Task-graph dump: a new edge *)

Section FreshConnect.
Import TgDump.

Variables (source target : Z).

(** The exits of the source are [X], the entries of the target are [N],
    and with [free] the entry lock of the target is free. *)
Let ends (X N : list Edge) (free : bool) (w : World) : Prop :=
  (exists n, nodes w !! source = Some n /\ _exit_edges n = X) /\
  (exists m, nodes w !! target = Some m /\ _entry_edges m = N /\
             (free = true -> _entry_lock m = false)).

Lemma ends_update (X N X' N' : list Edge) (free free' : bool) (p : Z) (f : Node -> Node) :
  (p = source -> forall n, _exit_edges n = X -> _exit_edges (f n) = X') ->
  (p <> source -> X' = X) ->
  (p = target -> forall m, _entry_edges m = N -> (free = true -> _entry_lock m = false) ->
     _entry_edges (f m) = N' /\ (free' = true -> _entry_lock (f m) = false)) ->
  (p <> target -> N' = N /\ (free' = true -> free = true)) ->
  hoare (ends X N free) (update p f) (fun _ => ends X' N' free').
Proof.
  intros Hs Hns Ht Hnt w a w' [(n & Hn & Hx) (m & Hm & He & Hl)]. unfold update.
  destruct (nodes w !! p) as [np|] eqn:Hp; [|discriminate].
  intros [= _ <-]. unfold ends. simpl. split.
  - destruct (decide (p = source)) as [Heq|Hne].
    + rewrite Heq, lookup_insert_eq. eexists. split; [reflexivity |].
      apply (Hs Heq). rewrite Heq in Hp. congruence.
    + rewrite lookup_insert_ne by exact Hne. exists n. rewrite (Hns Hne). auto.
  - destruct (decide (p = target)) as [Heq|Hne].
    + rewrite Heq, lookup_insert_eq. eexists. split; [reflexivity |].
      rewrite Heq in Hp. replace np with m by congruence.
      apply (Ht Heq); assumption.
    + rewrite lookup_insert_ne by exact Hne. exists m.
      destruct (Hnt Hne) as [-> Hfree]. auto.
Qed.

Lemma ends_update_keeps (X N : list Edge) (free : bool) (p : Z) (f : Node -> Node) :
  (forall n, _exit_edges (f n) = _exit_edges n) ->
  (forall n, _entry_edges (f n) = _entry_edges n) ->
  (forall n, _entry_lock (f n) = _entry_lock n) ->
  hoare (ends X N free) (update p f) (fun _ => ends X N free).
Proof.
  intros Hx He Hl. apply ends_update.
  - intros _ n Hn. rewrite Hx. exact Hn.
  - reflexivity.
  - intros _ m Hm Hfree. rewrite He, Hl. auto.
  - auto.
Qed.

Variables (kind : EdgeKind) (data_start data_end : Z) (dep_type : DependencyType).

Let new_edge : Edge := mkEdge kind dep_type source target (data_start, data_end).

(** A connection that is new: the edge is appended to the exits of the
    source and to the entries of the target. *)
Lemma connect_nodes_fresh_post (X N : list Edge) :
  new_edge ∉ X ->
  hoare (ends X N true)
    (connect_nodes source target kind data_start data_end dep_type)
    (fun _ => ends (X ++ [new_edge]) (N ++ [new_edge]) true).
Proof.
  intros Hfresh. unfold connect_nodes. fold new_edge.
  eapply hoare_bind with (Q := fun _ => ends X N true).
  { unfold exit_lock_acquire.
    eapply hoare_bind with (Q := fun _ => ends X N true); [apply tg_inv_load |].
    intros n. destruct (Lock.acquire _); [|apply hoare_diverge].
    apply ends_update_keeps; intros ?; reflexivity. }
  intros _.
  eapply hoare_bind with
    (Q := fun c w => ends X N true w /\ c = filter (fun e => get_target e = target) X).
  { intros w c w' HI. unfold get_connections.
    intros (n & w1 & Hload & [= <- <-])%bind_Some.
    unfold load in Hload.
    destruct (nodes w !! source) as [n0|] eqn:E; [|discriminate].
    injection Hload as -> <-. split; [exact HI |].
    destruct HI as [(n1 & Hn1 & Hx) _]. replace n with n1 by congruence.
    rewrite Hx. reflexivity. }
  intros c. destruct (existsb _ c) eqn:Hdup.
  - intros w a w' [_ ->] _. exfalso. apply Hfresh.
    apply existsb_exists in Hdup as (e & He & Heq).
    apply Edge_eq_true in Heq. subst e.
    apply list_elem_of_In, list_elem_of_filter in He as [_ He]. exact He.
  - eapply hoare_bind with (Q := fun _ => ends (X ++ [new_edge]) N true).
    { intros w a w' [HI _]. revert w a w' HI. apply ends_update.
      - intros _ n Hn. simpl. rewrite Hn. reflexivity.
      - intros Hne. congruence.
      - intros _ m Hm Hl. simpl. auto.
      - auto. }
    intros _.
    eapply hoare_bind with (Q := fun _ => ends (X ++ [new_edge]) N false).
    { unfold entry_lock_acquire.
      eapply hoare_bind with (Q := fun _ => ends (X ++ [new_edge]) N true);
        [apply tg_inv_load |].
      intros m. destruct (Lock.acquire _); [|apply hoare_diverge].
      apply ends_update.
      - intros _ n Hn. exact Hn.
      - reflexivity.
      - intros _ m0 Hm0 _. split; [exact Hm0 | discriminate].
      - split; [reflexivity | discriminate]. }
    intros _.
    eapply hoare_bind with
      (Q := fun _ => ends (X ++ [new_edge]) (N ++ [new_edge]) false).
    { apply ends_update.
      - intros _ n Hn. exact Hn.
      - reflexivity.
      - intros _ m Hm _. simpl. rewrite Hm. split; [reflexivity | discriminate].
      - intros Hne. congruence. }
    intros _.
    eapply hoare_bind with
      (Q := fun _ => ends (X ++ [new_edge]) (N ++ [new_edge]) true).
    { unfold entry_lock_release. apply ends_update.
      - intros _ n Hn. exact Hn.
      - reflexivity.
      - intros _ m Hm _. split; [exact Hm | reflexivity].
      - intros Hne. congruence. }
    intros _.
    unfold exit_lock_release, is_critical.
    repeat first
      [ apply hoare_ret
      | apply tg_inv_load
      | apply tg_inv_mark_used; intros w0 HI; exact HI
      | apply ends_update_keeps; intros ?; reflexivity
      | eapply hoare_bind with
          (Q := fun _ => ends (X ++ [new_edge]) (N ++ [new_edge]) true); [|intros ?]
      | match goal with
        | |- hoare _ (if ?b then _ else _) _ => destruct b
        | |- hoare _ (match ?x with _ => _ end) _ => destruct x
        end ].
Qed.

End FreshConnect.

Section NodeQueries.
Import TgDump.

Lemma set_entry_lock_back (n : Node) :
  _entry_lock n = false -> set_entry_lock (Lock.release true) (set_entry_lock true n) = n.
Proof. destruct n; simpl. intros ->. reflexivity. Qed.

Lemma set_exit_lock_back (n : Node) :
  _exit_lock n = false -> set_exit_lock (Lock.release true) (set_exit_lock true n) = n.
Proof. destruct n; simpl. intros ->. reflexivity. Qed.

Lemma tg_World_eta (w : World) : mkWorld (nodes w) (used_edge_types w) = w.
Proof. destruct w; reflexivity. Qed.

(** [get_parent_task] on a live node whose entry lock is free: the world
    is left as it was. *)
Lemma get_parent_task_eq (this : Z) (w : World) (n : Node) :
  nodes w !! this = Some n -> _entry_lock n = false ->
  get_parent_task this w
  = Some (match find is_nesting (_entry_edges n) with
          | Some it => get_source it
          | None => NULL
          end, w).
Proof.
  intros Hn Hfree. unfold get_parent_task, entry_lock_acquire, entry_lock_release.
  erewrite bind_eq;
    [| rewrite (bind_eq _ _ _ _ _ (tg_load_eq _ _ _ Hn)), Hfree; simpl;
       apply (tg_update_eq _ _ _ _ Hn)].
  erewrite bind_eq; [| apply tg_load_eq; simpl; apply lookup_insert_eq].
  erewrite bind_eq; [| apply tg_update_eq; simpl; apply lookup_insert_eq].
  unfold ret. simpl. rewrite insert_insert_eq.
  rewrite (set_entry_lock_back n Hfree), (insert_id _ _ _ Hn), tg_World_eta.
  reflexivity.
Qed.

Lemma is_next_synchronized_eq (this : Z) (w : World) (n : Node) :
  nodes w !! this = Some n -> _exit_lock n = false ->
  is_next_synchronized this w
  = Some (existsb (fun it => is_dependency it || is_synchronization it) (_exit_edges n), w).
Proof.
  intros Hn Hfree. unfold is_next_synchronized, exit_lock_acquire, exit_lock_release.
  erewrite bind_eq;
    [| rewrite (bind_eq _ _ _ _ _ (tg_load_eq _ _ _ Hn)), Hfree; simpl;
       apply (tg_update_eq _ _ _ _ Hn)].
  erewrite bind_eq; [| apply tg_load_eq; simpl; apply lookup_insert_eq].
  erewrite bind_eq; [| apply tg_update_eq; simpl; apply lookup_insert_eq].
  unfold ret. simpl. rewrite insert_insert_eq.
  rewrite (set_exit_lock_back n Hfree), (insert_id _ _ _ Hn), tg_World_eta.
  reflexivity.
Qed.

Lemma find_snoc {A : Type} (p : A -> bool) (l : list A) (x : A) :
  find p (l ++ [x])
  = match find p l with
    | Some y => Some y
    | None => if p x then Some x else None
    end.
Proof.
  induction l as [|y l IH]; simpl; [reflexivity |].
  destruct (p y); [reflexivity | exact IH].
Qed.

End NodeQueries.

(** X20.  A connection that is new.  With both nodes live, the exit lock
    of the source and the entry lock of the target free, and no equal edge
    among the exits of the source, [connect_nodes] returns; the edge is then
    the last exit of the source and the last entry of the target, the two
    locks are free again, and [is_connected_with] finds the target. *)
Theorem connect_nodes_appends_a_new_edge
    (source target : Z) (kind : TgDump.EdgeKind) (data_start data_end : Z)
    (dep_type : TgDump.DependencyType) (w : TgDump.World) (n m : TgDump.Node) :
  TgDump.nodes w !! source = Some n -> TgDump.nodes w !! target = Some m ->
  TgDump._exit_lock n = false -> TgDump._entry_lock m = false ->
  TgDump.mkEdge kind dep_type source target (data_start, data_end)
    ∉ TgDump._exit_edges n ->
  exists w' n' m',
    TgDump.connect_nodes source target kind data_start data_end dep_type w
      = Some (tt, w') /\
    TgDump.nodes w' !! source = Some n' /\
    TgDump._exit_edges n'
      = TgDump._exit_edges n
          ++ [TgDump.mkEdge kind dep_type source target (data_start, data_end)] /\
    TgDump._exit_lock n' = false /\
    TgDump.nodes w' !! target = Some m' /\
    TgDump._entry_edges m'
      = TgDump._entry_edges m
          ++ [TgDump.mkEdge kind dep_type source target (data_start, data_end)] /\
    TgDump._entry_lock m' = false /\
    TgDump.is_connected_with source target w' = Some (true, w').
Proof.
  intros Hn Hm Hx He Hfresh.
  destruct (connect_nodes_returns source target kind data_start data_end dep_type
              w n m Hn Hm Hx He) as [w' Hrun].
  destruct (connect_nodes_fresh_post source target kind data_start data_end dep_type
              (TgDump._exit_edges n) (TgDump._entry_edges m) Hfresh w tt w')
    as [(n' & Hn' & Hexits) (m' & Hm' & Hentries & Hlock)]; [|exact Hrun |].
  { split; [exists n | exists m]; auto. }
  destruct (connect_nodes_post source target kind data_start data_end dep_type
              w tt w' I Hrun) as (n2 & Hn2 & Hfree & _).
  exists w', n', m'. split; [exact Hrun |].
  split; [exact Hn' |]. split; [exact Hexits |].
  split; [congruence |]. split; [exact Hm' |]. split; [exact Hentries |].
  split; [apply Hlock; reflexivity |].
  unfold TgDump.is_connected_with.
  rewrite (bind_eq _ _ _ _ _ (tg_load_eq _ _ _ Hn')), Hexits.
  unfold ret. do 2 f_equal. rewrite existsb_app. simpl.
  rewrite bool_decide_eq_true_2 by reflexivity. apply orb_true_r.
Qed.

Lemma connect_nodes_appends_a_new_edge_witness :
  let A := TgDump.mkNode 1 7 TgDump.TaskNode [] [] false false false false in
  let B := TgDump.mkNode 2 7 TgDump.TaskNode [] [] false false false false in
  let w := TgDump.mkWorld {[ 100 := A; 200 := B ]} [0; 0; 0; 0; 0] in
  let e := TgDump.mkEdge TgDump.Dependency TgDump.Output 100 200 (4096, 4159) in
  exists w' n' m',
    TgDump.connect_nodes 100 200 TgDump.Dependency 4096 4159 TgDump.Output w
      = Some (tt, w') /\
    TgDump.nodes w' !! 100 = Some n' /\
    TgDump._exit_edges n' = TgDump._exit_edges A ++ [e] /\
    TgDump._exit_lock n' = false /\
    TgDump.nodes w' !! 200 = Some m' /\
    TgDump._entry_edges m' = TgDump._entry_edges B ++ [e] /\
    TgDump._entry_lock m' = false /\
    TgDump.is_connected_with 100 200 w' = Some (true, w').
Proof.
  intros A B w e.
  refine (connect_nodes_appends_a_new_edge 100 200 TgDump.Dependency 4096 4159
            TgDump.Output w A B _ _ _ _ _).
  - vm_compute. reflexivity.
  - vm_compute. reflexivity.
  - reflexivity.
  - reflexivity.
  - simpl. apply not_elem_of_nil.
Defined.

(** X21.  The parent of a task is the source of its first nesting edge.
    After a new [Nesting] connection from [parent] to [child],
    [get_parent_task] on the child returns [parent] if the child had no
    nesting entry before, and otherwise still the source of the nesting
    entry it had first; the call changes nothing. *)
Theorem parent_is_the_first_nesting_source
    (parent child : Z) (data_start data_end : Z) (dep_type : TgDump.DependencyType)
    (w : TgDump.World) (n m : TgDump.Node) :
  TgDump.nodes w !! parent = Some n -> TgDump.nodes w !! child = Some m ->
  TgDump._exit_lock n = false -> TgDump._entry_lock m = false ->
  TgDump.mkEdge TgDump.Nesting dep_type parent child (data_start, data_end)
    ∉ TgDump._exit_edges n ->
  exists w',
    TgDump.connect_nodes parent child TgDump.Nesting data_start data_end dep_type w
      = Some (tt, w') /\
    TgDump.get_parent_task child w'
      = Some (match find TgDump.is_nesting (TgDump._entry_edges m) with
              | Some first => TgDump.get_source first
              | None => parent
              end, w').
Proof.
  intros Hn Hm Hx He Hfresh.
  destruct (connect_nodes_appends_a_new_edge parent child TgDump.Nesting data_start
              data_end dep_type w n m Hn Hm Hx He Hfresh)
    as (w' & n' & m' & Hrun & _ & _ & _ & Hm' & Hentries & Hlock & _).
  exists w'. split; [exact Hrun |].
  rewrite (get_parent_task_eq child w' m' Hm' Hlock), Hentries, find_snoc.
  destruct (find TgDump.is_nesting (TgDump._entry_edges m)); reflexivity.
Qed.

Lemma parent_is_the_first_nesting_source_witness :
  let A := TgDump.mkNode 1 7 TgDump.TaskNode [] [] false false false false in
  let d := TgDump.mkEdge TgDump.Dependency TgDump.True_ 50 200 (4096, 4159) in
  let B := TgDump.mkNode 2 7 TgDump.TaskNode [d] [] false false false false in
  let w := TgDump.mkWorld {[ 100 := A; 200 := B ]} [0; 0; 0; 0; 0] in
  exists w',
    TgDump.connect_nodes 100 200 TgDump.Nesting NULL NULL TgDump.Null w = Some (tt, w') /\
    TgDump.get_parent_task 200 w'
      = Some (match find TgDump.is_nesting (TgDump._entry_edges B) with
              | Some first => TgDump.get_source first
              | None => 100
              end, w').
Proof.
  intros A d B w.
  refine (parent_is_the_first_nesting_source 100 200 NULL NULL TgDump.Null w A B
            _ _ _ _ _).
  - vm_compute. reflexivity.
  - vm_compute. reflexivity.
  - reflexivity.
  - reflexivity.
  - simpl. apply not_elem_of_nil.
Defined.

(** X22.  After a new connection of kind [Dependency] or [Synchronization]
    the source is synchronized with a successor and the target with a
    predecessor: [is_next_synchronized] on the source and
    [is_previous_synchronized] on the target both return true, and leave
    the world as it is.  A [Nesting] connection does not change what the
    two tests return. *)
Theorem new_edge_synchronizes_both_ends
    (source target : Z) (kind : TgDump.EdgeKind) (data_start data_end : Z)
    (dep_type : TgDump.DependencyType) (w : TgDump.World) (n m : TgDump.Node) :
  TgDump.nodes w !! source = Some n -> TgDump.nodes w !! target = Some m ->
  TgDump._exit_lock n = false -> TgDump._entry_lock m = false ->
  TgDump.mkEdge kind dep_type source target (data_start, data_end)
    ∉ TgDump._exit_edges n ->
  exists w' before_next before_previous,
    TgDump.is_next_synchronized source w = Some (before_next, w) /\
    TgDump.is_previous_synchronized target w = Some (before_previous, w) /\
    TgDump.connect_nodes source target kind data_start data_end dep_type w
      = Some (tt, w') /\
    TgDump.is_next_synchronized source w'
      = Some (before_next || negb (bool_decide (kind = TgDump.Nesting)), w') /\
    TgDump.is_previous_synchronized target w'
      = Some (before_previous || negb (bool_decide (kind = TgDump.Nesting)), w').
Proof.
  intros Hn Hm Hx He Hfresh.
  destruct (connect_nodes_appends_a_new_edge source target kind data_start
              data_end dep_type w n m Hn Hm Hx He Hfresh)
    as (w' & n' & m' & Hrun & Hn' & Hexits & Hxlock & Hm' & Hentries & _ & _).
  eexists w', _, _.
  split; [apply (is_next_synchronized_eq _ _ _ Hn Hx) |].
  split; [unfold TgDump.is_previous_synchronized;
          rewrite (bind_eq _ _ _ _ _ (tg_load_eq _ _ _ Hm)); reflexivity |].
  split; [exact Hrun |].
  assert (Hnew : forall e,
            e = TgDump.mkEdge kind dep_type source target (data_start, data_end) ->
            TgDump.is_dependency e || TgDump.is_synchronization e
            = negb (bool_decide (kind = TgDump.Nesting))).
  { intros e ->. destruct kind; reflexivity. }
  split.
  - rewrite (is_next_synchronized_eq _ _ _ Hn' Hxlock), Hexits, existsb_app.
    simpl. rewrite (Hnew _ eq_refl), orb_false_r. reflexivity.
  - unfold TgDump.is_previous_synchronized.
    rewrite (bind_eq _ _ _ _ _ (tg_load_eq _ _ _ Hm')), Hentries, existsb_app.
    simpl. rewrite (Hnew _ eq_refl), orb_false_r. reflexivity.
Qed.

Lemma new_edge_synchronizes_both_ends_witness :
  let A := TgDump.mkNode 1 7 TgDump.TaskNode [] [] false false false false in
  let B := TgDump.mkNode 2 7 TgDump.TaskwaitNode [] [] false false false false in
  let w := TgDump.mkWorld {[ 100 := A; 200 := B ]} [0; 0; 0; 0; 0] in
  exists w' before_next before_previous,
    TgDump.is_next_synchronized 100 w = Some (before_next, w) /\
    TgDump.is_previous_synchronized 200 w = Some (before_previous, w) /\
    TgDump.connect_nodes 100 200 TgDump.Synchronization NULL NULL TgDump.Null w
      = Some (tt, w') /\
    TgDump.is_next_synchronized 100 w'
      = Some (before_next
              || negb (bool_decide (TgDump.Synchronization = TgDump.Nesting)), w') /\
    TgDump.is_previous_synchronized 200 w'
      = Some (before_previous
              || negb (bool_decide (TgDump.Synchronization = TgDump.Nesting)), w').
Proof.
  intros A B w.
  refine (new_edge_synchronizes_both_ends 100 200 TgDump.Synchronization NULL NULL
            TgDump.Null w A B _ _ _ _ _).
  - vm_compute. reflexivity.
  - vm_compute. reflexivity.
  - reflexivity.
  - reflexivity.
  - simpl. apply not_elem_of_nil.
Defined.

(** ** nanos_cmalloc_2dim_distributed *)

Section Cmalloc2dimFacts.
Import NanosMemory.

Variable Sys : Type.
Variable getNumNodes : Sys -> Z * Sys.
Variable allocate_none : Z -> Sys -> (nanos_err_t + Z) * Sys.
Variable registerMemoryChunk_2dim : Z -> Z -> Z -> Z -> Sys -> (nanos_err_t + Z) * Sys.
Variable distributeObject : Z -> Z -> Z -> Sys -> (nanos_err_t + unit) * Sys.

(** Asking for the number of nodes is a query: it answers [N] and leaves
    the runtime alone. *)
Variable N : Z.
Hypothesis getNumNodes_pure : forall s, getNumNodes s = (N, s).

Lemma range_is_valid_eq (start_node num_nodes : Z) (w : World2 Sys) :
  exists asks,
    range_is_valid Sys getNumNodes start_node num_nodes w
    = (bool_decide (start_node > 0) && bool_decide (num_nodes > 0)
       && bool_decide (start_node < N)
       && bool_decide (wrap64 (start_node + wrap64 (num_nodes - 1)) < N),
       mkWorld2 Sys (sys2 Sys w) (cell_p2 Sys w) (calls2 Sys w ++ asks)) /\
    Forall (fun c => c = Call2GetNumNodes) asks /\
    (start_node = 0 -> asks = []) /\
    (bool_decide (start_node > 0) && bool_decide (num_nodes > 0)
       && bool_decide (start_node < N) = true ->
     asks = [Call2GetNumNodes; Call2GetNumNodes]).
Proof.
  unfold range_is_valid, call2_getNumNodes.
  destruct (bool_decide (start_node > 0) && bool_decide (num_nodes > 0)) eqn:E1; simpl.
  - rewrite getNumNodes_pure.
    destruct (bool_decide (start_node < N)) eqn:E2; simpl.
    + rewrite getNumNodes_pure. simpl. exists [Call2GetNumNodes; Call2GetNumNodes].
      rewrite <- app_assoc. split; [reflexivity |].
      split; [repeat constructor |]. split; [|reflexivity].
      intros ->. apply andb_prop in E1 as [E1 _].
      apply bool_decide_eq_true_1 in E1. lia.
    + exists [Call2GetNumNodes]. split; [reflexivity |].
      split; [repeat constructor |]. split; [|discriminate].
      intros ->. apply andb_prop in E1 as [E1 _].
      apply bool_decide_eq_true_1 in E1. lia.
  - exists []. rewrite app_nil_r. split; [destruct w; reflexivity |].
    split; [constructor |]. split; [reflexivity | discriminate].
Qed.

End Cmalloc2dimFacts.

(** X23.  [nanos_cmalloc_2dim_distributed], when asking for the number of
    nodes [N] is a pure query and [start_node + num_nodes - 1] does not wrap
    in [size_t].  A range that is not a non-empty range of nodes inside
    [1 .. N-1] is rejected with [NANOS_INVALID_PARAM]: nothing is allocated
    or registered, [*p] is not written, and for [start_node = 0] not even
    the number of nodes is asked for.  A range inside is accepted: the
    memory comes from [allocate_none], never from [allocate], with
    [cols * rows * elem_size] bytes; when the three runtime calls return,
    the address is in [*p] and the result is [NANOS_OK]. *)
Theorem cmalloc_2dim_accepts_ranges_inside_the_nodes
    (Sys : Type) (getNumNodes : Sys -> Z * Sys)
    (allocate_none : Z -> Sys -> (NanosMemory.nanos_err_t + Z) * Sys)
    (registerMemoryChunk_2dim : Z -> Z -> Z -> Z -> Sys -> (NanosMemory.nanos_err_t + Z) * Sys)
    (distributeObject : Z -> Z -> Z -> Sys -> (NanosMemory.nanos_err_t + unit) * Sys)
    (N rows cols elem_size start_node num_nodes file line : Z)
    (w : NanosMemory.World2 Sys) :
  (forall s, getNumNodes s = (N, s)) ->
  0 <= start_node -> 0 <= num_nodes -> start_node + num_nodes - 1 < 2 ^ 64 ->
  let run :=
    NanosMemory.nanos_cmalloc_2dim_distributed Sys getNumNodes allocate_none
      registerMemoryChunk_2dim distributeObject
      rows cols elem_size start_node num_nodes file line w in
  let size := wrap64 (wrap64 (cols * rows) * elem_size) in
  (~ (0 < start_node /\ 0 < num_nodes /\ start_node + num_nodes - 1 < N) ->
     exists asks,
       run = (NanosMemory.NANOS_INVALID_PARAM,
              NanosMemory.mkWorld2 Sys (NanosMemory.sys2 Sys w) (NanosMemory.cell_p2 Sys w)
                (NanosMemory.calls2 Sys w ++ asks)) /\
       Forall (fun c => c = NanosMemory.Call2GetNumNodes) asks /\
       (start_node = 0 -> asks = [])) /\
  (0 < start_node /\ 0 < num_nodes /\ start_node + num_nodes - 1 < N ->
     forall a reg s1 s2 s3,
       allocate_none size (NanosMemory.sys2 Sys w) = (inr a, s1) ->
       registerMemoryChunk_2dim a rows cols elem_size s1 = (inr reg, s2) ->
       distributeObject reg start_node num_nodes s2 = (inr tt, s3) ->
       run = (NanosMemory.NANOS_OK,
              NanosMemory.mkWorld2 Sys s3 a
                (NanosMemory.calls2 Sys w ++
                   [NanosMemory.Call2GetNumNodes; NanosMemory.Call2GetNumNodes;
                    NanosMemory.Call2AllocateNone size;
                    NanosMemory.Call2RegisterMemoryChunk a rows cols elem_size;
                    NanosMemory.Call2DistributeObject reg start_node num_nodes]))).
Proof.
  intros Hpure Hs Hn Hfit run size.
  destruct (range_is_valid_eq Sys getNumNodes N Hpure start_node num_nodes w)
    as (asks & Hvalid & Hasks & Hzero & Htwo).
  assert (Hsum : 0 < num_nodes ->
            wrap64 (start_node + wrap64 (num_nodes - 1)) = start_node + num_nodes - 1).
  { intros Hpos. unfold wrap64.
    rewrite (Z.mod_small (num_nodes - 1)) by lia. rewrite Z.mod_small by lia. lia. }
  subst run. unfold NanosMemory.nanos_cmalloc_2dim_distributed. rewrite Hvalid.
  split.
  - intros Hout.
    assert (Hfalse : bool_decide (start_node > 0) && bool_decide (num_nodes > 0)
                     && bool_decide (start_node < N)
                     && bool_decide (wrap64 (start_node + wrap64 (num_nodes - 1)) < N)
                     = false).
    { apply not_true_is_false. intros Htrue.
      repeat (apply andb_prop in Htrue as [Htrue ?]).
      repeat match goal with
             | X : bool_decide _ = true |- _ => apply bool_decide_eq_true_1 in X
             end.
      rewrite Hsum in * by lia. apply Hout. lia. }
    rewrite Hfalse. exists asks. auto.
  - intros (Hs0 & Hn0 & Hin) a reg s1 s2 s3 Ha Hr Hd.
    assert (Hfront : bool_decide (start_node > 0) && bool_decide (num_nodes > 0)
                     && bool_decide (start_node < N) = true).
    { rewrite !bool_decide_eq_true_2 by lia. reflexivity. }
    rewrite Hfront, (Htwo Hfront). simpl.
    rewrite (bool_decide_eq_true_2 (wrap64 (start_node + wrap64 (num_nodes - 1)) < N))
      by (rewrite Hsum by lia; lia).
    unfold NanosMemory.try_return2, NanosMemory.ebind2, NanosMemory.call2_allocate_none,
      NanosMemory.store_p2, NanosMemory.load_p2, NanosMemory.call2_registerMemoryChunk,
      NanosMemory.call2_distributeObject.
    simpl. fold size. rewrite Ha. simpl. rewrite Hr. simpl. rewrite Hd.
    repeat rewrite <- app_assoc. reflexivity.
Qed.

Lemma cmalloc_2dim_accepts_ranges_inside_the_nodes_witness :
  let run start_node num_nodes :=
    NanosMemory.nanos_cmalloc_2dim_distributed unit (fun s => (4, s))
      (fun _ s => (inr 8192, s)) (fun _ _ _ _ s => (inr 77, s))
      (fun _ _ _ s => (inr tt, s))
      10 20 8 start_node num_nodes 0 0 (NanosMemory.mkWorld2 unit tt NULL []) in
  (exists asks,
     run 0 2 = (NanosMemory.NANOS_INVALID_PARAM,
                NanosMemory.mkWorld2 unit tt NULL ([] ++ asks)) /\
     Forall (fun c => c = NanosMemory.Call2GetNumNodes) asks /\
     (0 = 0 -> asks = [])) /\
  run 1 3 = (NanosMemory.NANOS_OK,
             NanosMemory.mkWorld2 unit tt 8192
               ([] ++ [NanosMemory.Call2GetNumNodes; NanosMemory.Call2GetNumNodes;
                       NanosMemory.Call2AllocateNone (wrap64 (wrap64 (20 * 10) * 8));
                       NanosMemory.Call2RegisterMemoryChunk 8192 10 20 8;
                       NanosMemory.Call2DistributeObject 77 1 3])).
Proof.
  intros run. split.
  - refine (proj1 (cmalloc_2dim_accepts_ranges_inside_the_nodes unit (fun s => (4, s))
              (fun _ s => (inr 8192, s)) (fun _ _ _ _ s => (inr 77, s))
              (fun _ _ _ s => (inr tt, s)) 4 10 20 8 0 2 0 0
              (NanosMemory.mkWorld2 unit tt NULL []) _ _ _ _) _);
      [reflexivity | lia | lia | lia | lia].
  - refine (proj2 (cmalloc_2dim_accepts_ranges_inside_the_nodes unit (fun s => (4, s))
              (fun _ s => (inr 8192, s)) (fun _ _ _ _ s => (inr 77, s))
              (fun _ _ _ s => (inr tt, s)) 4 10 20 8 1 3 0 0
              (NanosMemory.mkWorld2 unit tt NULL []) _ _ _ _) _ 8192 77 tt tt tt _ _ _);
      first [reflexivity | lia].
Defined.

(** X24.  The range test of [nanos_cmalloc_2dim_distributed] adds in
    [size_t] without a guard against wrap-around: for [2 <= start_node < N]
    (with [N] in the range of [unsigned int]) the count [num_nodes = 2^64 - start_node + 1]
    passes it, although the range would end at node [2^64], and the call
    goes on to allocate. *)
Theorem cmalloc_2dim_range_test_wraps
    (Sys : Type) (getNumNodes : Sys -> Z * Sys)
    (allocate_none : Z -> Sys -> (NanosMemory.nanos_err_t + Z) * Sys)
    (registerMemoryChunk_2dim : Z -> Z -> Z -> Z -> Sys -> (NanosMemory.nanos_err_t + Z) * Sys)
    (distributeObject : Z -> Z -> Z -> Sys -> (NanosMemory.nanos_err_t + unit) * Sys)
    (N rows cols elem_size start_node file line : Z)
    (w : NanosMemory.World2 Sys) :
  (forall s, getNumNodes s = (N, s)) ->
  2 <= start_node < N -> N <= 2 ^ 32 ->
  let num_nodes := 2 ^ 64 - start_node + 1 in
  0 < num_nodes < 2 ^ 64 /\ N <= start_node + num_nodes - 1 /\
  NanosMemory.range_is_valid Sys getNumNodes start_node num_nodes w
  = (true,
     NanosMemory.mkWorld2 Sys (NanosMemory.sys2 Sys w) (NanosMemory.cell_p2 Sys w)
       (NanosMemory.calls2 Sys w
          ++ [NanosMemory.Call2GetNumNodes; NanosMemory.Call2GetNumNodes])) /\
  fst (NanosMemory.nanos_cmalloc_2dim_distributed Sys getNumNodes allocate_none
         registerMemoryChunk_2dim distributeObject
         rows cols elem_size start_node num_nodes file line w)
  = match allocate_none (wrap64 (wrap64 (cols * rows) * elem_size))
            (NanosMemory.sys2 Sys w) with
    | (inl e, _) => e
    | (inr a, s1) =>
        match registerMemoryChunk_2dim a rows cols elem_size s1 with
        | (inl e, _) => e
        | (inr reg, s2) =>
            match distributeObject reg start_node num_nodes s2 with
            | (inl e, _) => e
            | (inr _, _) => NanosMemory.NANOS_OK
            end
        end
    end.
Proof.
  intros Hpure Hs Hint num_nodes.
  destruct (range_is_valid_eq Sys getNumNodes N Hpure start_node num_nodes w)
    as (asks & Hvalid & _ & _ & Htwo).
  assert (Hfront : bool_decide (start_node > 0) && bool_decide (num_nodes > 0)
                   && bool_decide (start_node < N) = true).
  { subst num_nodes. rewrite !bool_decide_eq_true_2 by lia. reflexivity. }
  assert (Hwrap : wrap64 (start_node + wrap64 (num_nodes - 1)) = 0).
  { subst num_nodes. unfold wrap64.
    rewrite (Z.mod_small (2 ^ 64 - start_node + 1 - 1)) by lia.
    replace (start_node + (2 ^ 64 - start_node + 1 - 1)) with (1 * 2 ^ 64) by lia.
    apply Z.mod_mul. lia. }
  rewrite Hfront, (Htwo Hfront), Hwrap in Hvalid.
  rewrite (bool_decide_eq_true_2 (0 < N)) in Hvalid by lia. simpl in Hvalid.
  split; [subst num_nodes; lia |]. split; [subst num_nodes; lia |].
  split; [exact Hvalid |].
  unfold NanosMemory.nanos_cmalloc_2dim_distributed. rewrite Hvalid.
  unfold NanosMemory.try_return2, NanosMemory.ebind2, NanosMemory.call2_allocate_none,
    NanosMemory.store_p2, NanosMemory.load_p2, NanosMemory.call2_registerMemoryChunk,
    NanosMemory.call2_distributeObject.
  simpl.
  destruct (allocate_none _ _) as [[e|a] s1]; simpl; [reflexivity |].
  destruct (registerMemoryChunk_2dim _ _ _ _ _) as [[e|reg] s2]; simpl; [reflexivity |].
  destruct (distributeObject _ _ _ _) as [[e|[]] s3]; reflexivity.
Qed.

Lemma cmalloc_2dim_range_test_wraps_witness :
  let num_nodes := 2 ^ 64 - 3 + 1 in
  0 < num_nodes < 2 ^ 64 /\ 4 <= 3 + num_nodes - 1 /\
  NanosMemory.range_is_valid unit (fun s => (4, s)) 3 num_nodes
    (NanosMemory.mkWorld2 unit tt NULL [])
  = (true,
     NanosMemory.mkWorld2 unit tt NULL
       ([] ++ [NanosMemory.Call2GetNumNodes; NanosMemory.Call2GetNumNodes])) /\
  fst (NanosMemory.nanos_cmalloc_2dim_distributed unit (fun s => (4, s))
         (fun _ s => (inr 8192, s)) (fun _ _ _ _ s => (inr 77, s))
         (fun _ _ _ s => (inr tt, s))
         10 20 8 3 num_nodes 0 0 (NanosMemory.mkWorld2 unit tt NULL []))
  = NanosMemory.NANOS_OK.
Proof.
  refine (cmalloc_2dim_range_test_wraps unit (fun s => (4, s))
            (fun _ s => (inr 8192, s)) (fun _ _ _ _ s => (inr 77, s))
            (fun _ _ _ s => (inr tt, s)) 4 10 20 8 3 0 0
            (NanosMemory.mkWorld2 unit tt NULL []) _ _ _).
  - reflexivity.
  - lia.
  - lia.
Defined.

(** ** DeviceOpsPtr: registration with the DeviceOps *)

Section DeviceOpsFacts.

Lemma ops_update_eq (p : Z) (f : DeviceOps.DeviceOps -> DeviceOps.DeviceOps)
    (w : DeviceOps.World) (o : DeviceOps.DeviceOps) :
  DeviceOps.ops w !! p = Some o ->
  DeviceOps.update_ops p f w
  = Some (tt, DeviceOps.mkWorld (<[p := f o]> (DeviceOps.ops w)) (DeviceOps.ptrs w)).
Proof. unfold DeviceOps.update_ops. intros ->. reflexivity. Qed.

Lemma ops_load_eq (p : Z) (w : DeviceOps.World) (o : DeviceOps.DeviceOps) :
  DeviceOps.ops w !! p = Some o -> DeviceOps.load_ops p w = Some (o, w).
Proof. unfold DeviceOps.load_ops. intros ->. reflexivity. Qed.

Lemma ptr_load_eq (p : Z) (w : DeviceOps.World) (v : DeviceOps.DeviceOpsPtr) :
  DeviceOps.ptrs w !! p = Some v -> DeviceOps.load_ptr p w = Some (v, w).
Proof. unfold DeviceOps.load_ptr. intros ->. reflexivity. Qed.

Lemma store_value_eq (p v : Z) (w : DeviceOps.World) (old : DeviceOps.DeviceOpsPtr) :
  DeviceOps.ptrs w !! p = Some old ->
  DeviceOps.store_value p v w
  = Some (tt, DeviceOps.mkWorld (DeviceOps.ops w)
                (<[p := DeviceOps.mkPtr v]> (DeviceOps.ptrs w))).
Proof. unfold DeviceOps.store_value. intros ->. reflexivity. Qed.

(** A change of the reference set, made with the lock of the [DeviceOps]
    taken and dropped. *)
Lemma locked_refs_update (d : Z) (g : gset Z -> gset Z) (w : DeviceOps.World)
    (o : DeviceOps.DeviceOps) :
  DeviceOps.ops w !! d = Some o -> DeviceOps._lock o = false ->
  (DeviceOps.lock_acquire d ;;
   DeviceOps.update_ops d
     (fun o => DeviceOps.mkOps (DeviceOps._pendingDeviceOps o)
                 (g (DeviceOps._refs o)) (DeviceOps._lock o)) ;;
   DeviceOps.lock_release d) w
  = Some (tt,
      DeviceOps.mkWorld
        (<[d := DeviceOps.mkOps (DeviceOps._pendingDeviceOps o)
                  (g (DeviceOps._refs o)) false]> (DeviceOps.ops w))
        (DeviceOps.ptrs w)).
Proof.
  intros Ho Hfree. unfold DeviceOps.lock_acquire, DeviceOps.lock_release.
  erewrite bind_eq;
    [| rewrite (bind_eq _ _ _ _ _ (ops_load_eq _ _ _ Ho)), Hfree; simpl;
       apply (ops_update_eq _ _ _ _ Ho)].
  erewrite bind_eq; [| apply ops_update_eq; simpl; apply lookup_insert_eq].
  erewrite ops_update_eq by (simpl; apply lookup_insert_eq).
  simpl. rewrite !insert_insert_eq. reflexivity.
Qed.

End DeviceOpsFacts.

(** X25.  A [DeviceOpsPtr] that is [set] to a live [DeviceOps] (not at the
    null address, lock free) is registered in the reference set of that
    object.  Its destructor takes it out again.  After [clear()], however,
    the destructor does nothing: the address of the destroyed pointer stays
    in the reference set, since [clear()] only forgets the value. *)
Theorem DeviceOpsPtr_registration
    (this d : Z) (w : DeviceOps.World) (old : DeviceOps.DeviceOpsPtr)
    (o : DeviceOps.DeviceOps) :
  DeviceOps.ptrs w !! this = Some old -> DeviceOps.ops w !! d = Some o ->
  DeviceOps._lock o = false -> d <> NULL ->
  let registered (refs : gset Z) (v : Z) :=
    DeviceOps.mkWorld
      (<[d := DeviceOps.mkOps (DeviceOps._pendingDeviceOps o) refs false]> (DeviceOps.ops w))
      (<[this := DeviceOps.mkPtr v]> (DeviceOps.ptrs w)) in
  DeviceOps.set this d w = Some (tt, registered (DeviceOps._refs o ∪ {[this]}) d) /\
  (DeviceOps.set this d ;; DeviceOps.DeviceOpsPtr_destructor this) w
    = Some (tt, registered (DeviceOps._refs o ∖ {[this]}) d) /\
  (DeviceOps.set this d ;; DeviceOps.clear this ;;
   DeviceOps.DeviceOpsPtr_destructor this) w
    = Some (tt, registered (DeviceOps._refs o ∪ {[this]}) NULL).
Proof.
  intros Hp Ho Hfree Hnn registered.
  assert (Hset : DeviceOps.set this d w
                 = Some (tt, registered (DeviceOps._refs o ∪ {[this]}) d)).
  { unfold DeviceOps.set.
    rewrite (bind_eq _ _ _ _ _ (store_value_eq _ d _ _ Hp)).
    erewrite bind_eq; [| apply ptr_load_eq; simpl; apply lookup_insert_eq].
    simpl. unfold DeviceOps.addFirstRef.
    erewrite (locked_refs_update d (fun r => r ∪ {[this]})) by (simpl; eassumption).
    reflexivity. }
  split; [exact Hset |]. split.
  - rewrite (bind_eq _ _ _ _ _ Hset). unfold DeviceOps.DeviceOpsPtr_destructor.
    erewrite bind_eq; [| apply ptr_load_eq; subst registered; simpl; apply lookup_insert_eq].
    simpl. rewrite (bool_decide_eq_true_2 _ Hnn). unfold DeviceOps.delRef.
    erewrite (locked_refs_update d (fun r => r ∖ {[this]}));
      [| subst registered; simpl; apply lookup_insert_eq | reflexivity].
    subst registered. simpl. rewrite insert_insert_eq.
    assert (Hs : (DeviceOps._refs o ∪ {[this]}) ∖ {[this]} = DeviceOps._refs o ∖ {[this]})
      by set_solver.
    rewrite Hs. reflexivity.
  - rewrite (bind_eq _ _ _ _ _ Hset). unfold DeviceOps.clear.
    erewrite bind_eq;
      [| eapply store_value_eq; subst registered; simpl; apply lookup_insert_eq].
    unfold DeviceOps.DeviceOpsPtr_destructor.
    erewrite bind_eq; [| apply ptr_load_eq; simpl; apply lookup_insert_eq].
    simpl. subst registered. simpl. rewrite insert_insert_eq. reflexivity.
Qed.

Lemma DeviceOpsPtr_registration_witness :
  let w := DeviceOps.mkWorld {[ 500 := DeviceOps.mkOps 2 {[ 41 ]} false ]}
                             {[ 40 := DeviceOps.mkPtr NULL ]} in
  let registered (refs : gset Z) (v : Z) :=
    DeviceOps.mkWorld
      (<[500 := DeviceOps.mkOps 2 refs false]> (DeviceOps.ops w))
      (<[40 := DeviceOps.mkPtr v]> (DeviceOps.ptrs w)) in
  DeviceOps.set 40 500 w = Some (tt, registered ({[ 41 ]} ∪ {[ 40 ]}) 500) /\
  (DeviceOps.set 40 500 ;; DeviceOps.DeviceOpsPtr_destructor 40) w
    = Some (tt, registered ({[ 41 ]} ∖ {[ 40 ]}) 500) /\
  (DeviceOps.set 40 500 ;; DeviceOps.clear 40 ;;
   DeviceOps.DeviceOpsPtr_destructor 40) w
    = Some (tt, registered ({[ 41 ]} ∪ {[ 40 ]}) NULL).
Proof.
  intros w.
  refine (DeviceOpsPtr_registration 40 500 w (DeviceOps.mkPtr NULL)
            (DeviceOps.mkOps 2 {[ 41 ]} false) _ _ _ _).
  - vm_compute. reflexivity.
  - vm_compute. reflexivity.
  - reflexivity.
  - discriminate.
Defined.

(** ** DependableObject: the life of an edge *)

(** X26.  An edge that is created is taken back by the destruction of its
    target.  Let [source] and [target] be two live objects with free locks,
    [target] not yet a successor of [source], and every predecessor of
    [target] live.  After [addSuccessor] on the source, [addPredecessor] on
    the target and the destructor of the target, the successor set of the
    source is the one it had before the edge was created. *)
Theorem destruction_takes_back_the_edge
    (source target : Z) (w : DependableObject.World)
    (os ot : DependableObject.t) :
  DependableObject.heap w !! source = Some os ->
  DependableObject.heap w !! target = Some ot ->
  source <> target ->
  DependableObject._objectLock ot = false ->
  target ∉ DependableObject._successors os ->
  (forall p, p ∈ DependableObject._predecessors ot ->
     is_Some (DependableObject.heap w !! p)) ->
  exists w' os',
    (DependableObject.addSuccessor source target ;;
     DependableObject.addPredecessor target source ;;
     DependableObject.destructor target) w = Some (tt, w') /\
    DependableObject.heap w' !! source = Some os' /\
    DependableObject._successors os' = DependableObject._successors os.
Proof.
  intros Hs Ht Hne Hfree Hnew Hlive.
  rewrite (bind_eq _ _ _ _ _ (addSuccessor_eq source target w os Hs)).
  set (os1 := DependableObject.set_successors
                (DependableObject._successors os ∪ {[target]}) os).
  set (w1 := DependableObject.mkWorld _ _).
  assert (Ht1 : DependableObject.heap w1 !! target = Some ot).
  { subst w1. simpl. rewrite lookup_insert_ne by exact Hne. exact Ht. }
  rewrite (bind_eq _ _ _ _ _ (addPredecessor_eq target source w1 ot Ht1 Hfree)).
  set (ot2 := DependableObject.set_predecessors
                (DependableObject._predecessors ot ∪ {[source]}) ot).
  set (w2 := DependableObject.mkWorld _ _).
  assert (Ht2 : DependableObject.heap w2 !! target = Some ot2)
    by (subst w2; simpl; apply lookup_insert_eq).
  assert (Hs2 : DependableObject.heap w2 !! source = Some os1).
  { subst w2 w1. simpl. rewrite lookup_insert_ne by congruence.
    apply lookup_insert_eq. }
  destruct (destructor_eq target w2 ot2 Ht2 Hfree) as (h' & Hrun & Hh').
  { intros p Hp. subst ot2. simpl in Hp.
    apply elem_of_union in Hp as [Hp|Hp%elem_of_singleton].
    - subst w2 w1. simpl.
      destruct (decide (target = p)) as [->|Hn1]; [rewrite lookup_insert_eq; eauto |].
      rewrite lookup_insert_ne by exact Hn1.
      destruct (decide (source = p)) as [->|Hn2]; [rewrite lookup_insert_eq; eauto |].
      rewrite lookup_insert_ne by exact Hn2. apply Hlive, Hp.
    - subst p. eauto. }
  eexists _, _. split; [exact Hrun |]. simpl. split.
  - rewrite Hh', Hs2. simpl.
    rewrite bool_decide_eq_true_2 by (subst ot2; simpl; set_solver). reflexivity.
  - subst os1. simpl. set_solver.
Qed.

Lemma destruction_takes_back_the_edge_witness :
  let P := DependableObject.mk 1 0 1 ∅ {[ 300 ]} NULL [] [] true true 10 NULL false in
  let S := DependableObject.mk 2 0 1 ∅ ∅ NULL [] [] false false 20 NULL false in
  let w := DependableObject.mkWorld {[ 100 := P; 200 := S ]} [] in
  exists w' os',
    (DependableObject.addSuccessor 100 200 ;;
     DependableObject.addPredecessor 200 100 ;;
     DependableObject.destructor 200) w = Some (tt, w') /\
    DependableObject.heap w' !! 100 = Some os' /\
    DependableObject._successors os' = DependableObject._successors P.
Proof.
  intros P S w.
  refine (destruction_takes_back_the_edge 100 200 w P S _ _ _ _ _ _).
  - vm_compute. reflexivity.
  - vm_compute. reflexivity.
  - discriminate.
  - reflexivity.
  - unfold P. simpl. set_solver.
  - intros p Hp. unfold S in Hp. simpl in Hp. set_solver.
Defined.
